(** * StreamV9 catalog services: a shallow embedding and its verification

    The development follows the TypeScript sources:
    - [validation/schemas.ts]   the zod schemas, as partial functions that
      validate, fill in defaults and apply the sanitising transforms;
    - [utils/fs.ts]             the JSON files, as components of a [World];
    - [services/catalogService.ts] movies, series and categories, with
      [mergeSeasons] and [mergeEpisode];
    - [services/userService.ts] users, login and watch history;
    - [middleware/auth.ts] and the rate limiter of the administrator
      routes.

    Library functions that are not part of the repository (DOMPurify, zod's
    uuid and url checks, slugify, bcrypt, the clock and the uuid generator)
    are fields of an environment [Env]; every definition and theorem is
    parametric in it. Calls run one after the other: the lock of
    [withFileLock] is not contended, and failures of the file system are
    left out. The audit log and the HTTP routes are not modelled. *)

From Stdlib Require Import Ascii QArith.QArith_base.
From stdpp Require Import sorting.
From stdpp Require Import base option numbers list strings gmap.

Local Open Scope string_scope.
Local Open Scope list_scope.
Local Open Scope Z_scope.

(** ** Errors

    The services throw [ZodError] from a failed [parse], [Error('... not
    found')] and [Error('... already exists')]. *)
Inductive Error : Type :=
  | ValidationError
  | NotFound
  | Conflict.

#[global] Instance Error_eq_dec : EqDecision Error.
Proof. solve_decision. Defined.

(** ** The environment: library calls *)
Class Env : Type := {
  (** [sanitize] of utils/sanitize.ts: DOMPurify with no tag and no
      attribute allowed, then [trim]. *)
  sanitize : string → string;
  (** zod's [z.string().uuid()]. *)
  is_uuid : string → bool;
  (** [new URL(url).hostname]; [None] when [z.string().url()] rejects. *)
  url_hostname : string → option string;
  (** [slugify(_, { lower: true, strict: true })]. *)
  slugify : string → string;
  (** [new Date().getFullYear()]. *)
  current_year : Z;
  (** [a.localeCompare(b)]. *)
  localeCompare : string → string → Z;
  (** The string returned by the n-th [dayjs().toISOString()]. *)
  clock : nat → string;
  (** The string returned by the n-th [randomUUID()]. *)
  uuid : nat → string;
  (** [bcrypt.hash(_, 12)]. *)
  bcrypt_hash : string → string;
}.

(** ** Records of types/catalog.ts (inferred from the schemas) *)

Record Subtitle : Type := {
  sub_lang : string;
  sub_label : string;
  sub_url : string;
}.

Record Episode : Type := {
  ep_id : string;
  ep_title : string;
  ep_description : string;
  ep_season : Z;
  ep_episode : Z;
  ep_duration : Z;
  ep_streamUrl : string;
  ep_subtitles : list Subtitle;
  ep_published : bool;
  ep_views : Z;
  ep_lastUpdated : string;
}.

(** A JavaScript object with some of the keys of an episode: what a
    request body, or a spread of several objects, holds before
    [episodeSchema.parse]. *)
Record PartialEpisode : Type := {
  pe_id : option string;
  pe_title : option string;
  pe_description : option string;
  pe_season : option Z;
  pe_episode : option Z;
  pe_duration : option Z;
  pe_streamUrl : option string;
  pe_subtitles : option (list Subtitle);
  pe_published : option bool;
  pe_views : option Z;
  pe_lastUpdated : option string;
}.

Record Season : Type := {
  se_season : Z;
  se_episodes : list Episode;
}.

(** A season object before [seasonSchema.parse]. *)
Record SeasonInput : Type := {
  si_season : Z;
  si_episodes : list PartialEpisode;
}.

Record Series : Type := {
  s_id : string;
  s_name : string;
  s_slug : string;
  s_description : string;
  s_posterUrl : string;
  s_categories : list string;
  s_seasons : list Season;
  s_published : bool;
  s_featured : bool;
  s_createdAt : string;
  s_updatedAt : string;
}.

(** A series object before [seriesSchema.parse]. *)
Record SeriesObject : Type := {
  so_id : string;
  so_name : string;
  so_slug : string;
  so_description : string;
  so_posterUrl : string;
  so_categories : list string;
  so_seasons : list SeasonInput;
  so_published : bool;
  so_featured : bool;
  so_createdAt : string;
  so_updatedAt : string;
}.

(** The argument of [createOrMergeSeries]:
    [Omit<Series, 'id' | 'createdAt' | 'updatedAt'> & { id?: string }]. *)
Record SeriesPayload : Type := {
  sp_id : option string;
  sp_name : string;
  sp_slug : string;
  sp_description : string;
  sp_posterUrl : string;
  sp_categories : list string;
  sp_seasons : list SeasonInput;
  sp_published : bool;
  sp_featured : bool;
}.

(** The argument of [mergeEpisode]. *)
Record EpisodePayload : Type := {
  py_title : string;
  py_description : string;
  py_season : Z;
  py_episode : Z;
  py_duration : Z;
  py_streamUrl : string;
  py_subtitles : list Subtitle;
  py_published : bool;
}.

Record Movie : Type := {
  m_id : string;
  m_title : string;
  m_slug : string;
  m_description : string;
  m_year : Z;
  m_duration : Z;
  m_posterUrl : string;
  m_streamUrl : string;
  m_subtitles : list Subtitle;
  m_categories : list string;
  m_published : bool;
  m_featured : bool;
  m_views : Z;
  m_createdAt : string;
  m_updatedAt : string;
}.

(** [Partial<Movie>], and any object given to [movieSchema.parse]. *)
Record PartialMovie : Type := {
  pm_id : option string;
  pm_title : option string;
  pm_slug : option string;
  pm_description : option string;
  pm_year : option Z;
  pm_duration : option Z;
  pm_posterUrl : option string;
  pm_streamUrl : option string;
  pm_subtitles : option (list Subtitle);
  pm_categories : option (list string);
  pm_published : option bool;
  pm_featured : option bool;
  pm_views : option Z;
  pm_createdAt : option string;
  pm_updatedAt : option string;
}.

Inductive Role : Type := RoleAdmin | RoleUser.

#[global] Instance Role_eq_dec : EqDecision Role.
Proof. solve_decision. Defined.

Record UserRecord : Type := {
  u_id : string;
  u_username : string;
  u_passwordHash : string;
  u_role : Role;
  u_active : bool;
  u_createdAt : string;
  u_updatedAt : string;
}.

(** The argument of [createUser]; [role] has a default in
    [createUserSchema]. *)
Record CreateUserPayload : Type := {
  cu_username : string;
  cu_password : string;
  cu_role : option Role;
}.

Record HistoryEntry : Type := {
  he_contentId : string;
  he_type : string;
  he_progress : Q;
  he_lastWatched : string;
  he_season : option Z;
  he_episode : option Z;
}.

(** ** The files under [data/]

    One component per file or directory of config/constants.ts. [None]
    for a single file means that the file does not exist. *)
Record World : Type := {
  (** [MOVIES_FILE]: [{ movies: [...] }]. *)
  movies_file : option (list Movie);
  (** [SERIES_ROOT/<slug>.json], by slug. *)
  series_files : gmap string Series;
  (** [ADMIN_FILE]: [{ admin: ... }], where [admin] may be [null]. *)
  admin_file : option (option UserRecord);
  (** [USERS_FILE]: [{ users: [...] }]. *)
  users_file : option (list UserRecord);
  (** [HISTORY_ROOT/<username>.json], by username. *)
  history_files : gmap string (list HistoryEntry);
  (** How many times the clock has been read. *)
  clock_reads : nat;
  (** How many identifiers have been drawn. *)
  uuid_draws : nat;
}.

(** ** A state and error monad over the files

    A computation returns the world it leaves behind together with either
    the error it threw or its result. A [throw] keeps every write done
    before it, as an exception does. *)
Definition M (A : Type) : Type := World → World * (Error + A).

Definition ret {A : Type} (a : A) : M A := λ w, (w, inr a).

Definition throw {A : Type} (e : Error) : M A := λ w, (w, inl e).

Definition bind {A B : Type} (m : M A) (k : A → M B) : M B :=
  λ w, match m w with
       | (w', inr a) => k a w'
       | (w', inl e) => (w', inl e)
       end.

Notation "'let!' x ':=' c 'in' k" := (bind c (λ x, k))
  (at level 10, x name, c at level 100, k at level 200,
   format "'let!'  x  ':='  c  'in' '//' k").

(** [schema.parse(o)]: the parsed value, or a thrown [ZodError]. *)
Definition parse {A : Type} (o : option A) : M A :=
  match o with
  | Some a => ret a
  | None => throw ValidationError
  end.

(** [for (const x of l) { s = f(s, x) }] with effects. *)
Fixpoint forM_fold {A S : Type} (f : S → A → M S) (l : list A) (s : S) : M S :=
  match l with
  | [] => ret s
  | x :: l' => let! s' := f s x in forM_fold f l' s'
  end.

(** ** Characters and patterns of the schemas *)

Definition char_between (lo hi : nat) (c : ascii) : bool :=
  let n := nat_of_ascii c in (lo <=? n)%nat && (n <=? hi)%nat.

Definition is_lower (c : ascii) : bool := char_between 97 122 c.
Definition is_upper (c : ascii) : bool := char_between 65 90 c.
Definition is_digit (c : ascii) : bool := char_between 48 57 c.

(** [/^[a-z0-9-]+$/] *)
Definition matches_slug (s : string) : bool :=
  match String.list_ascii_of_string s with
  | [] => false
  | cs => forallb (λ c, is_lower c || is_digit c || char_between 45 45 c) cs
  end.

(** [/^[a-zA-Z0-9_.-]+$/] *)
Definition matches_username (s : string) : bool :=
  match String.list_ascii_of_string s with
  | [] => false
  | cs => forallb (λ c, is_lower c || is_upper c || is_digit c
                        || char_between 95 95 c || char_between 46 46 c
                        || char_between 45 45 c) cs
  end.

(** [.min(lo).max(hi)] on a string. The length is counted in characters of
    the Rocq string, which is the JavaScript length on ASCII text. *)
Definition len_between (lo hi : nat) (s : string) : bool :=
  (lo <=? String.length s)%nat && (String.length s <=? hi)%nat.

Definition check (b : bool) : option unit := if b then Some () else None.

(** config/constants.ts *)
Definition VIDEO_DOMAIN_WHITELIST : list string :=
  ["example.com"; "cdn.example.com"; "videos.local"; "stream.local"].

Definition STREAM_TYPES : list string := ["movie"; "series"].

(** ** Objects and their spreads *)

(** A validated episode seen as an object with all its keys. *)
Definition episode_object (e : Episode) : PartialEpisode :=
  {| pe_id := Some (ep_id e);
     pe_title := Some (ep_title e);
     pe_description := Some (ep_description e);
     pe_season := Some (ep_season e);
     pe_episode := Some (ep_episode e);
     pe_duration := Some (ep_duration e);
     pe_streamUrl := Some (ep_streamUrl e);
     pe_subtitles := Some (ep_subtitles e);
     pe_published := Some (ep_published e);
     pe_views := Some (ep_views e);
     pe_lastUpdated := Some (ep_lastUpdated e) |}.

(** [b ?? a] on one key of a spread: the key of [b] wins when [b] has it. *)
Definition over {A : Type} (a b : option A) : option A :=
  match b with
  | Some _ => b
  | None => a
  end.

(** [{ ...a, ...b }] on episode objects. *)
Definition spread_episode (a b : PartialEpisode) : PartialEpisode :=
  {| pe_id := over (pe_id a) (pe_id b);
     pe_title := over (pe_title a) (pe_title b);
     pe_description := over (pe_description a) (pe_description b);
     pe_season := over (pe_season a) (pe_season b);
     pe_episode := over (pe_episode a) (pe_episode b);
     pe_duration := over (pe_duration a) (pe_duration b);
     pe_streamUrl := over (pe_streamUrl a) (pe_streamUrl b);
     pe_subtitles := over (pe_subtitles a) (pe_subtitles b);
     pe_published := over (pe_published a) (pe_published b);
     pe_views := over (pe_views a) (pe_views b);
     pe_lastUpdated := over (pe_lastUpdated a) (pe_lastUpdated b) |}.

(** The argument of [mergeEpisode] as an object: it has the eight keys of
    its type and no [id], [views] or [lastUpdated]. *)
Definition payload_object (p : EpisodePayload) : PartialEpisode :=
  {| pe_id := None;
     pe_title := Some (py_title p);
     pe_description := Some (py_description p);
     pe_season := Some (py_season p);
     pe_episode := Some (py_episode p);
     pe_duration := Some (py_duration p);
     pe_streamUrl := Some (py_streamUrl p);
     pe_subtitles := Some (py_subtitles p);
     pe_published := Some (py_published p);
     pe_views := None;
     pe_lastUpdated := None |}.

Definition with_id (i : string) (o : PartialEpisode) : PartialEpisode :=
  spread_episode o
    {| pe_id := Some i; pe_title := None; pe_description := None;
       pe_season := None; pe_episode := None; pe_duration := None;
       pe_streamUrl := None; pe_subtitles := None; pe_published := None;
       pe_views := None; pe_lastUpdated := None |}.

Definition with_views (v : Z) (o : PartialEpisode) : PartialEpisode :=
  spread_episode o
    {| pe_id := None; pe_title := None; pe_description := None;
       pe_season := None; pe_episode := None; pe_duration := None;
       pe_streamUrl := None; pe_subtitles := None; pe_published := None;
       pe_views := Some v; pe_lastUpdated := None |}.

Definition with_lastUpdated (t : string) (o : PartialEpisode) : PartialEpisode :=
  spread_episode o
    {| pe_id := None; pe_title := None; pe_description := None;
       pe_season := None; pe_episode := None; pe_duration := None;
       pe_streamUrl := None; pe_subtitles := None; pe_published := None;
       pe_views := None; pe_lastUpdated := Some t |}.

(** In-place assignments [ep.views = v], [ep.lastUpdated = t],
    [season.episodes = l], [series.seasons = l], [series.updatedAt = t]. *)
Definition set_ep_views (v : Z) (e : Episode) : Episode :=
  {| ep_id := ep_id e; ep_title := ep_title e;
     ep_description := ep_description e; ep_season := ep_season e;
     ep_episode := ep_episode e; ep_duration := ep_duration e;
     ep_streamUrl := ep_streamUrl e; ep_subtitles := ep_subtitles e;
     ep_published := ep_published e; ep_views := v;
     ep_lastUpdated := ep_lastUpdated e |}.

Definition set_ep_lastUpdated (t : string) (e : Episode) : Episode :=
  {| ep_id := ep_id e; ep_title := ep_title e;
     ep_description := ep_description e; ep_season := ep_season e;
     ep_episode := ep_episode e; ep_duration := ep_duration e;
     ep_streamUrl := ep_streamUrl e; ep_subtitles := ep_subtitles e;
     ep_published := ep_published e; ep_views := ep_views e;
     ep_lastUpdated := t |}.

Definition set_se_episodes (l : list Episode) (s : Season) : Season :=
  {| se_season := se_season s; se_episodes := l |}.

Definition set_s_seasons (l : list Season) (s : Series) : Series :=
  {| s_id := s_id s; s_name := s_name s; s_slug := s_slug s;
     s_description := s_description s; s_posterUrl := s_posterUrl s;
     s_categories := s_categories s; s_seasons := l;
     s_published := s_published s; s_featured := s_featured s;
     s_createdAt := s_createdAt s; s_updatedAt := s_updatedAt s |}.

Definition set_s_updatedAt (t : string) (s : Series) : Series :=
  {| s_id := s_id s; s_name := s_name s; s_slug := s_slug s;
     s_description := s_description s; s_posterUrl := s_posterUrl s;
     s_categories := s_categories s; s_seasons := s_seasons s;
     s_published := s_published s; s_featured := s_featured s;
     s_createdAt := s_createdAt s; s_updatedAt := t |}.

(** [{ ...e, ...o }] when [e] has every key: the result has every key
    too, so it is an episode again (not yet validated). *)
Definition overwrite (e : Episode) (o : PartialEpisode) : Episode :=
  {| ep_id := default (ep_id e) (pe_id o);
     ep_title := default (ep_title e) (pe_title o);
     ep_description := default (ep_description e) (pe_description o);
     ep_season := default (ep_season e) (pe_season o);
     ep_episode := default (ep_episode e) (pe_episode o);
     ep_duration := default (ep_duration e) (pe_duration o);
     ep_streamUrl := default (ep_streamUrl e) (pe_streamUrl o);
     ep_subtitles := default (ep_subtitles e) (pe_subtitles o);
     ep_published := default (ep_published e) (pe_published o);
     ep_views := default (ep_views e) (pe_views o);
     ep_lastUpdated := default (ep_lastUpdated e) (pe_lastUpdated o) |}.

Definition season_object (s : Season) : SeasonInput :=
  {| si_season := se_season s;
     si_episodes := episode_object <$> se_episodes s |}.

Definition series_object (s : Series) : SeriesObject :=
  {| so_id := s_id s; so_name := s_name s; so_slug := s_slug s;
     so_description := s_description s; so_posterUrl := s_posterUrl s;
     so_categories := s_categories s;
     so_seasons := season_object <$> s_seasons s;
     so_published := s_published s; so_featured := s_featured s;
     so_createdAt := s_createdAt s; so_updatedAt := s_updatedAt s |}.

Definition movie_object (m : Movie) : PartialMovie :=
  {| pm_id := Some (m_id m); pm_title := Some (m_title m);
     pm_slug := Some (m_slug m); pm_description := Some (m_description m);
     pm_year := Some (m_year m); pm_duration := Some (m_duration m);
     pm_posterUrl := Some (m_posterUrl m);
     pm_streamUrl := Some (m_streamUrl m);
     pm_subtitles := Some (m_subtitles m);
     pm_categories := Some (m_categories m);
     pm_published := Some (m_published m);
     pm_featured := Some (m_featured m);
     pm_views := Some (m_views m);
     pm_createdAt := Some (m_createdAt m);
     pm_updatedAt := Some (m_updatedAt m) |}.

(** [{ ...a, ...b }] on movie objects. *)
Definition spread_movie (a b : PartialMovie) : PartialMovie :=
  {| pm_id := over (pm_id a) (pm_id b);
     pm_title := over (pm_title a) (pm_title b);
     pm_slug := over (pm_slug a) (pm_slug b);
     pm_description := over (pm_description a) (pm_description b);
     pm_year := over (pm_year a) (pm_year b);
     pm_duration := over (pm_duration a) (pm_duration b);
     pm_posterUrl := over (pm_posterUrl a) (pm_posterUrl b);
     pm_streamUrl := over (pm_streamUrl a) (pm_streamUrl b);
     pm_subtitles := over (pm_subtitles a) (pm_subtitles b);
     pm_categories := over (pm_categories a) (pm_categories b);
     pm_published := over (pm_published a) (pm_published b);
     pm_featured := over (pm_featured a) (pm_featured b);
     pm_views := over (pm_views a) (pm_views b);
     pm_createdAt := over (pm_createdAt a) (pm_createdAt b);
     pm_updatedAt := over (pm_updatedAt a) (pm_updatedAt b) |}.

(** [{ ...payload, id, createdAt: now, updatedAt: now, views: 0 }] *)
Definition newMovieObject (payload : PartialMovie) (id now : string) : PartialMovie :=
  spread_movie payload
    {| pm_id := Some id; pm_title := None; pm_slug := None;
       pm_description := None; pm_year := None; pm_duration := None;
       pm_posterUrl := None; pm_streamUrl := None; pm_subtitles := None;
       pm_categories := None; pm_published := None; pm_featured := None;
       pm_views := Some 0; pm_createdAt := Some now;
       pm_updatedAt := Some now |}.

(** [{ ...movies[index], ...update, updatedAt: now }] *)
Definition updatedMovieObject (current : Movie) (update : PartialMovie)
    (now : string) : PartialMovie :=
  spread_movie (spread_movie (movie_object current) update)
    {| pm_id := None; pm_title := None; pm_slug := None;
       pm_description := None; pm_year := None; pm_duration := None;
       pm_posterUrl := None; pm_streamUrl := None; pm_subtitles := None;
       pm_categories := None; pm_published := None; pm_featured := None;
       pm_views := None; pm_createdAt := None; pm_updatedAt := Some now |}.



(** Assignments to the components of the world. *)
Definition set_movies_file (f : option (list Movie)) (w : World) : World :=
  {| movies_file := f; series_files := series_files w;
     admin_file := admin_file w; users_file := users_file w;
     history_files := history_files w; clock_reads := clock_reads w;
     uuid_draws := uuid_draws w |}.

Definition set_series_files (f : gmap string Series) (w : World) : World :=
  {| movies_file := movies_file w; series_files := f;
     admin_file := admin_file w; users_file := users_file w;
     history_files := history_files w; clock_reads := clock_reads w;
     uuid_draws := uuid_draws w |}.

Definition set_admin_file (f : option (option UserRecord)) (w : World) : World :=
  {| movies_file := movies_file w; series_files := series_files w;
     admin_file := f; users_file := users_file w;
     history_files := history_files w; clock_reads := clock_reads w;
     uuid_draws := uuid_draws w |}.

Definition set_users_file (f : option (list UserRecord)) (w : World) : World :=
  {| movies_file := movies_file w; series_files := series_files w;
     admin_file := admin_file w; users_file := f;
     history_files := history_files w; clock_reads := clock_reads w;
     uuid_draws := uuid_draws w |}.

Definition set_history_files (f : gmap string (list HistoryEntry)) (w : World) : World :=
  {| movies_file := movies_file w; series_files := series_files w;
     admin_file := admin_file w; users_file := users_file w;
     history_files := f; clock_reads := clock_reads w;
     uuid_draws := uuid_draws w |}.

Definition set_clock_reads (n : nat) (w : World) : World :=
  {| movies_file := movies_file w; series_files := series_files w;
     admin_file := admin_file w; users_file := users_file w;
     history_files := history_files w; clock_reads := n;
     uuid_draws := uuid_draws w |}.

Definition set_uuid_draws (n : nat) (w : World) : World :=
  {| movies_file := movies_file w; series_files := series_files w;
     admin_file := admin_file w; users_file := users_file w;
     history_files := history_files w; clock_reads := clock_reads w;
     uuid_draws := n |}.

(** ** Numbers

    A number is an IEEE double. The integers that the code keeps in one
    are modelled by [Z]; sums of integers below 2^53 are exact and are
    written with [+]. The view counters have no bound, so that their
    increment is given with its rounding. *)

(** [n += 1] for an integer [n] from 0 on that a double holds. Below
    2^53 the sum is exact. From 2^53 to 2^54 the doubles are the even
    integers, [n + 1] lies halfway between [n] and [n + 2], and the tie
    goes to the one whose significand, [n / 2], is even. From 2^54 on
    the doubles are 4 or more apart and [n + 1] rounds back to [n]. *)
Definition js_plus_one (n : Z) : Z :=
  if decide (n < 2 ^ 53) then n + 1
  else if decide (n < 2 ^ 54) then (if Z.even (n / 2) then n else n + 2)
  else n.

(** ** [Array.prototype.sort] and [Map]

    [sort] is stable, and for a consistent comparator its result is the
    only stable sorted arrangement of the array: the one obtained by
    inserting the elements from the right, each before the first element
    it does not sort after. *)
Section js_sort.
Context {A : Type} (cmp : A → A → Z).

Fixpoint js_insert (x : A) (l : list A) : list A :=
  match l with
  | [] => [x]
  | y :: l' => if decide (cmp x y ≤ 0) then x :: l else y :: js_insert x l'
  end.

Definition js_sort (l : list A) : list A := foldr js_insert [] l.
End js_sort.

(** [l.sort((a, b) => a.key - b.key)] *)
Definition sort_by {A : Type} (key : A → Z) : list A → list A :=
  js_sort (λ a b, key a - key b).

(** A [Map<number, V>]: the entries in insertion order. [set] on a key
    that is present replaces the value where the key stands. *)
Definition JsMap (V : Type) : Type := list (Z * V).

Fixpoint map_set {V : Type} (k : Z) (v : V) (m : JsMap V) : JsMap V :=
  match m with
  | [] => [(k, v)]
  | (k', v') :: m' =>
      if decide (k' = k) then (k, v) :: m' else (k', v') :: map_set k v m'
  end.

Fixpoint map_get {V : Type} (k : Z) (m : JsMap V) : option V :=
  match m with
  | [] => None
  | (k', v') :: m' => if decide (k' = k) then Some v' else map_get k m'
  end.

(** [Array.from(m.values())] *)
Definition map_values {V : Type} (m : JsMap V) : list V := m.*2.

(** [a || b] on strings: the empty string is falsy. *)
Definition or_else (a b : string) : string :=
  if decide (a = String.EmptyString) then b else a.

(** [l.findIndex(P)], with the element found. *)
Definition findIndex {A : Type} (P : A → Prop) `{∀ x, Decision (P x)}
  (l : list A) : option (nat * A) := list_find P l.

(** [l.find(P)] *)
Definition find_first {A : Type} (P : A → Prop) `{∀ x, Decision (P x)}
  (l : list A) : option A := snd <$> list_find P l.

(** ** validation/schemas.ts *)
Section schemas.
Context `{env : Env}.

(** [sanitizedString(z.string().min(lo).max(hi))]: the bounds are
    checked on the input, then the transform runs. *)
Definition sanitizedString (lo hi : nat) (s : string) : option string :=
  _ ← check (len_between lo hi s); Some (sanitize s).

(** [sanitizedString(z.string().min(1).max(hi).regex(/^[a-z0-9-]+$/))] *)
Definition sanitizedSlug (hi : nat) (s : string) : option string :=
  _ ← check (len_between 1 hi s && matches_slug s); Some (sanitize s).

(** [z.string().url().refine(url => VIDEO_DOMAIN_WHITELIST.includes(new
    URL(url).hostname))] *)
Definition allowed_url (u : string) : bool :=
  match url_hostname u with
  | Some h => bool_decide (h ∈ VIDEO_DOMAIN_WHITELIST)
  | None => false
  end.

Definition usernameSchema (s : string) : option string :=
  _ ← check (len_between 3 64 s && matches_username s); Some (sanitize s).

Definition passwordSchema (s : string) : option string :=
  _ ← check (len_between 8 128 s); Some s.

Definition subtitleSchema (o : Subtitle) : option Subtitle :=
  lang ← sanitizedString 2 8 (sub_lang o);
  label ← sanitizedString 1 64 (sub_label o);
  _ ← check (allowed_url (sub_url o));
  Some {| sub_lang := lang; sub_label := label; sub_url := sub_url o |}.

Definition streamUrlSchema (u : string) : option string :=
  _ ← check (allowed_url u); Some u.

Definition movieSchema (o : PartialMovie) : option Movie :=
  id ← pm_id o; _ ← check (is_uuid id);
  title ← pm_title o ≫= sanitizedString 1 160;
  slug ← pm_slug o ≫= sanitizedSlug 160;
  description ← pm_description o ≫= sanitizedString 0 1024;
  year ← pm_year o;
  _ ← check (bool_decide (1900 ≤ year ≤ current_year + 1));
  duration ← pm_duration o; _ ← check (bool_decide (0 < duration));
  posterUrl ← pm_posterUrl o; _ ← check (allowed_url posterUrl);
  streamUrl ← pm_streamUrl o ≫= streamUrlSchema;
  subtitles ← mapM subtitleSchema (default [] (pm_subtitles o));
  categories ← pm_categories o; _ ← check (forallb is_uuid categories);
  let published := default false (pm_published o) in
  let featured := default false (pm_featured o) in
  let views := default 0 (pm_views o) in
  _ ← check (bool_decide (0 ≤ views));
  createdAt ← pm_createdAt o;
  updatedAt ← pm_updatedAt o;
  Some {| m_id := id; m_title := title; m_slug := slug;
          m_description := description; m_year := year;
          m_duration := duration; m_posterUrl := posterUrl;
          m_streamUrl := streamUrl; m_subtitles := subtitles;
          m_categories := categories; m_published := published;
          m_featured := featured; m_views := views;
          m_createdAt := createdAt; m_updatedAt := updatedAt |}.

Definition episodeSchema (o : PartialEpisode) : option Episode :=
  id ← pe_id o; _ ← check (is_uuid id);
  title ← pe_title o ≫= sanitizedString 1 160;
  description ← pe_description o ≫= sanitizedString 0 1024;
  season ← pe_season o; _ ← check (bool_decide (1 ≤ season));
  episode ← pe_episode o; _ ← check (bool_decide (1 ≤ episode));
  duration ← pe_duration o; _ ← check (bool_decide (0 < duration));
  streamUrl ← pe_streamUrl o ≫= streamUrlSchema;
  subtitles ← mapM subtitleSchema (default [] (pe_subtitles o));
  let published := default false (pe_published o) in
  let views := default 0 (pe_views o) in
  _ ← check (bool_decide (0 ≤ views));
  lastUpdated ← pe_lastUpdated o;
  Some {| ep_id := id; ep_title := title; ep_description := description;
          ep_season := season; ep_episode := episode;
          ep_duration := duration; ep_streamUrl := streamUrl;
          ep_subtitles := subtitles; ep_published := published;
          ep_views := views; ep_lastUpdated := lastUpdated |}.

Definition seasonSchema (o : SeasonInput) : option Season :=
  _ ← check (bool_decide (1 ≤ si_season o));
  episodes ← mapM episodeSchema (si_episodes o);
  Some {| se_season := si_season o; se_episodes := episodes |}.

Definition seriesSchema (o : SeriesObject) : option Series :=
  _ ← check (is_uuid (so_id o));
  name ← sanitizedString 1 160 (so_name o);
  slug ← sanitizedSlug 160 (so_slug o);
  description ← sanitizedString 0 1024 (so_description o);
  _ ← check (allowed_url (so_posterUrl o));
  _ ← check (forallb is_uuid (so_categories o));
  seasons ← mapM seasonSchema (so_seasons o);
  Some {| s_id := so_id o; s_name := name; s_slug := slug;
          s_description := description; s_posterUrl := so_posterUrl o;
          s_categories := so_categories o; s_seasons := seasons;
          s_published := so_published o; s_featured := so_featured o;
          s_createdAt := so_createdAt o; s_updatedAt := so_updatedAt o |}.

Definition historyEntrySchema (o : HistoryEntry) : option HistoryEntry :=
  _ ← check (bool_decide (he_type o ∈ STREAM_TYPES));
  _ ← check (Qle_bool 0 (he_progress o) && Qle_bool (he_progress o) 1);
  _ ← check (from_option (λ n, bool_decide (1 ≤ n)) true (he_season o));
  _ ← check (from_option (λ n, bool_decide (1 ≤ n)) true (he_episode o));
  Some o.

Definition userSchema (o : UserRecord) : option UserRecord :=
  _ ← check (is_uuid (u_id o));
  username ← usernameSchema (u_username o);
  Some {| u_id := u_id o; u_username := username;
          u_passwordHash := u_passwordHash o; u_role := u_role o;
          u_active := u_active o; u_createdAt := u_createdAt o;
          u_updatedAt := u_updatedAt o |}.

Definition createUserSchema (o : CreateUserPayload) : option CreateUserPayload :=
  username ← usernameSchema (cu_username o);
  password ← passwordSchema (cu_password o);
  Some {| cu_username := username; cu_password := password;
          cu_role := Some (default RoleUser (cu_role o)) |}.
End schemas.

(** ** utils/fs.ts

    A path is the component of the world that holds the file. The JSON in
    a file is taken to be well formed and of the shape of its TypeScript
    type; what [schema.parse] checks beyond that is checked by the
    schemas above. Directories are not modelled, so [ensureDir] is
    silent. *)
Record Path (A : Type) : Type := {
  read_at : World → option A;
  write_at : A → World → World;
}.
Arguments read_at {A} _ _.
Arguments write_at {A} _ _ _.

Definition MOVIES_FILE : Path (list Movie) :=
  {| read_at := movies_file; write_at := λ d, set_movies_file (Some d) |}.

Definition ADMIN_FILE : Path (option UserRecord) :=
  {| read_at := admin_file; write_at := λ d, set_admin_file (Some d) |}.

Definition USERS_FILE : Path (list UserRecord) :=
  {| read_at := users_file; write_at := λ d, set_users_file (Some d) |}.

(** [join(SERIES_ROOT, `${slug}.json`)] *)
Definition series_path (slug : string) : Path Series :=
  {| read_at := λ w, series_files w !! slug;
     write_at := λ d w, set_series_files (<[slug := d]> (series_files w)) w |}.

(** [`${HISTORY_ROOT}${username}.json`] *)
Definition history_path (username : string) : Path (list HistoryEntry) :=
  {| read_at := λ w, history_files w !! username;
     write_at := λ d w, set_history_files (<[username := d]> (history_files w)) w |}.

Definition existsSync {A : Type} (path : Path A) : M bool :=
  λ w, (w, inr (bool_decide (is_Some (read_at path w)))).

(** The temporary file and the rename are one step here. *)
Definition writeJsonFile {A : Type} (path : Path A) (data : A) : M unit :=
  λ w, (write_at path data w, inr ()).

(** [readFile] followed by [JSON.parse]; the file has just been seen by
    [existsSync] where this is called, so [None] does not arise. *)
Definition readFile {A : Type} (path : Path A) : M (option A) :=
  λ w, (w, inr (read_at path w)).

Definition readJsonFile {A : Type} (path : Path A) (defaultValue : A) : M A :=
  λ w, match read_at path w with
       | Some data => (w, inr data)
       | None => (let! _ := writeJsonFile path defaultValue in ret defaultValue) w
       end.

Definition ensureJsonFile {A : Type} (path : Path A) (defaultValue : A) : M unit :=
  let! there := existsSync path in
  if there then ret () else writeJsonFile path defaultValue.

(** Calls are sequential in this model, so the lock is always free: it is
    taken, [fn] runs, and it is released. *)
Definition withFileLock {A B : Type} (path : Path A) (fn : M B) : M B := fn.

(** ** The services *)
Section services.
Context `{env : Env}.

(** [dayjs().toISOString()] *)
Definition dayjs_now : M string :=
  λ w, (set_clock_reads (S (clock_reads w)) w, inr (clock (clock_reads w))).

Definition randomUUID : M string :=
  λ w, (set_uuid_draws (S (uuid_draws w)) w, inr (uuid (uuid_draws w))).

(** *** services/catalogService.ts: movies *)

Definition listMovies : M (list Movie) :=
  let! _ := ensureJsonFile MOVIES_FILE [] in
  withFileLock MOVIES_FILE (
    let! data := readJsonFile MOVIES_FILE [] in
    parse (mapM movieSchema (movie_object <$> data))).

Definition saveMovies (movies : list Movie) : M unit :=
  let! _ := ensureJsonFile MOVIES_FILE [] in
  withFileLock MOVIES_FILE (writeJsonFile MOVIES_FILE movies).

Definition createMovie (payload : PartialMovie) : M Movie :=
  let! now := dayjs_now in
  let! id := randomUUID in
  let! movie := parse (movieSchema (newMovieObject payload id now)) in
  let! movies := listMovies in
  if bool_decide (Exists (λ existing, m_slug existing = m_slug movie) movies)
  then throw Conflict
  else
    let movies :=
      js_sort (λ a b, localeCompare (m_title a) (m_title b)) (movies ++ [movie]) in
    let! _ := saveMovies movies in
    ret movie.

Definition updateMovie (id : string) (update : PartialMovie) : M Movie :=
  let! movies := listMovies in
  match findIndex (λ movie, m_id movie = id) movies with
  | None => throw NotFound
  | Some (index, current) =>
      let! now := dayjs_now in
      let! updated := parse (movieSchema (updatedMovieObject current update now)) in
      let! _ := saveMovies (<[index := updated]> movies) in
      ret updated
  end.

Definition deleteMovie (id : string) : M unit :=
  let! movies := listMovies in
  let filtered := filter (λ movie, m_id movie ≠ id) movies in
  saveMovies filtered.


(** *** services/catalogService.ts: series *)

Definition readSeriesFile (slug : string) : M (option Series) :=
  let path := series_path slug in
  let! there := existsSync path in
  if negb there then ret None
  else withFileLock path (
    let! raw := readFile path in
    match raw with
    | Some data =>
        let! series := parse (seriesSchema (series_object data)) in
        ret (Some series)
    | None => ret None
    end).

Definition saveSeries (series : Series) : M unit :=
  let path := series_path (s_slug series) in
  withFileLock path (writeJsonFile path series).

(** The body of the inner loop of [mergeSeasons] (lines 328-340): one
    incoming episode against the episodes of the current season. *)
Definition mergeIncomingEpisode (episodeMap : JsMap Episode)
    (incomingEpisode : Episode) : M (JsMap Episode) :=
  let! parsedEpisode := parse (episodeSchema (episode_object incomingEpisode)) in
  match map_get (ep_episode parsedEpisode) episodeMap with
  | None => ret (map_set (ep_episode parsedEpisode) parsedEpisode episodeMap)
  | Some existingEpisode =>
      let! now := dayjs_now in
      ret (map_set (ep_episode parsedEpisode)
             (overwrite existingEpisode
                (with_lastUpdated now (episode_object parsedEpisode)))
             episodeMap)
  end.

(** The body of the outer loop of [mergeSeasons] (lines 318-344). *)
Definition mergeIncomingSeason (seasonMap : JsMap Season)
    (incoming : SeasonInput) : M (JsMap Season) :=
  let! sanitizedSeason := parse (seasonSchema incoming) in
  match map_get (se_season sanitizedSeason) seasonMap with
  | None => ret (map_set (se_season sanitizedSeason) sanitizedSeason seasonMap)
  | Some current =>
      let episodeMap :=
        foldl (λ m episode, map_set (ep_episode episode) episode m)
              [] (se_episodes current) in
      let! episodeMap :=
        forM_fold mergeIncomingEpisode (se_episodes sanitizedSeason) episodeMap in
      let current :=
        set_se_episodes (sort_by ep_episode (map_values episodeMap)) current in
      ret (map_set (se_season current) current seasonMap)
  end.

Definition mergeSeasons (existingSeasons : list Season)
    (incomingSeasons : list SeasonInput) : M (list Season) :=
  let seasonMap :=
    foldl (λ m season, map_set (se_season season) season m)
          [] existingSeasons in
  let! seasonMap := forM_fold mergeIncomingSeason incomingSeasons seasonMap in
  ret (sort_by se_season (map_values seasonMap)).

Definition createOrMergeSeries (payload : SeriesPayload) : M Series :=
  let! now := dayjs_now in
  let slug := slugify (or_else (sp_slug payload) (sp_name payload)) in
  let! existing := readSeriesFile slug in
  let! series :=
    match existing with
    | Some existing =>
        let! mergedSeasons :=
          mergeSeasons (s_seasons existing) (sp_seasons payload) in
        parse (seriesSchema
          {| so_id := s_id existing;
             so_name := sp_name payload;
             so_slug := slug;
             so_description := sp_description payload;
             so_posterUrl := sp_posterUrl payload;
             so_categories := sp_categories payload;
             so_seasons := season_object <$> mergedSeasons;
             so_published := sp_published payload;
             so_featured := sp_featured payload;
             so_createdAt := s_createdAt existing;
             so_updatedAt := now |})
    | None =>
        let! id :=
          match sp_id payload with
          | Some id => ret id
          | None => randomUUID
          end in
        parse (seriesSchema
          {| so_id := id;
             so_name := sp_name payload;
             so_slug := slug;
             so_description := sp_description payload;
             so_posterUrl := sp_posterUrl payload;
             so_categories := sp_categories payload;
             so_seasons := sp_seasons payload;
             so_published := sp_published payload;
             so_featured := sp_featured payload;
             so_createdAt := now;
             so_updatedAt := now |})
    end in
  let! _ := saveSeries series in
  ret series.

(** [{ ...episodePayload, id: randomUUID(), lastUpdated: now, views: 0 }]
    through [episodeSchema.parse]. *)
Definition newEpisode (episodePayload : EpisodePayload) (now : string) : M Episode :=
  let! id := randomUUID in
  parse (episodeSchema
           (with_views 0 (with_lastUpdated now
              (with_id id (payload_object episodePayload))))).

Definition mergeEpisode (slug : string) (episodePayload : EpisodePayload) : M Series :=
  let! existing := readSeriesFile slug in
  match existing with
  | None => throw NotFound
  | Some existing =>
      let! now := dayjs_now in
      let! seasons :=
        match findIndex (λ season, se_season season = py_season episodePayload)
                        (s_seasons existing) with
        | None =>
            let! episode := newEpisode episodePayload now in
            let! season := parse (seasonSchema
              {| si_season := py_season episodePayload;
                 si_episodes := [episode_object episode] |}) in
            ret (s_seasons existing ++ [season])
        | Some (seasonIndex, season) =>
            let! episodes :=
              match findIndex (λ ep, ep_episode ep = py_episode episodePayload)
                              (se_episodes season) with
              | None =>
                  let! episode := newEpisode episodePayload now in
                  ret (se_episodes season ++ [episode])
              | Some (episodeIndex, current) =>
                  let! episode := parse (episodeSchema
                    (with_lastUpdated now
                       (spread_episode (episode_object current)
                          (payload_object episodePayload)))) in
                  ret (<[episodeIndex := episode]> (se_episodes season))
              end in
            let season := set_se_episodes (sort_by ep_episode episodes) season in
            ret (<[seasonIndex := season]> (s_seasons existing))
        end in
      let existing := set_s_seasons (sort_by se_season seasons) existing in
      let existing := set_s_updatedAt now existing in
      let! _ := saveSeries existing in
      ret existing
  end.

(** [find] returns the objects inside [series], and the two assignments
    change them in place: the saved series has the episode replaced
    where it was found. *)
Definition incrementSeriesView (slug : string) (season episodeNumber : Z) : M unit :=
  let! series := readSeriesFile slug in
  match series with
  | None => ret ()
  | Some series =>
      match findIndex (λ s, se_season s = season) (s_seasons series) with
      | None => ret ()
      | Some (seasonIndex, targetSeason) =>
          match findIndex (λ ep, ep_episode ep = episodeNumber)
                          (se_episodes targetSeason) with
          | None => ret ()
          | Some (episodeIndex, targetEpisode) =>
              let targetEpisode :=
                set_ep_views (js_plus_one (ep_views targetEpisode)) targetEpisode in
              let! now := dayjs_now in
              let targetEpisode := set_ep_lastUpdated now targetEpisode in
              let targetSeason :=
                set_se_episodes
                  (<[episodeIndex := targetEpisode]> (se_episodes targetSeason))
                  targetSeason in
              saveSeries
                (set_s_seasons (<[seasonIndex := targetSeason]> (s_seasons series))
                   series)
          end
      end
  end.

(** *** services/userService.ts *)

Definition listUsers : M (list UserRecord) :=
  let! _ := ensureJsonFile USERS_FILE [] in
  withFileLock USERS_FILE (
    let! data := readJsonFile USERS_FILE [] in
    parse (mapM userSchema data)).

Definition getAdmin : M (option UserRecord) :=
  let! there := existsSync ADMIN_FILE in
  if negb there then ret None
  else withFileLock ADMIN_FILE (
    let! data := readJsonFile ADMIN_FILE None in
    match data with
    | None => ret None
    | Some a => let! a := parse (userSchema a) in ret (Some a)
    end).

Definition findUserByUsername (username : string) : M (option UserRecord) :=
  let! a := getAdmin in
  let among_users :=
    let! users := listUsers in
    ret (find_first (λ u, u_username u = username) users) in
  match a with
  | Some a' =>
      if decide (u_username a' = username) then ret (Some a')
      else among_users
  | None => among_users
  end.

Definition createUser (payload : CreateUserPayload) : M UserRecord :=
  let! parsed := parse (createUserSchema payload) in
  let! existing := findUserByUsername (cu_username parsed) in
  match existing with
  | Some _ => throw Conflict
  | None =>
      let! now := dayjs_now in
      let passwordHash := bcrypt_hash (cu_password parsed) in
      let! id := randomUUID in
      let! u := parse (userSchema
        {| u_id := id; u_username := cu_username parsed;
           u_passwordHash := passwordHash;
           u_role := default RoleUser (cu_role parsed);
           u_active := true; u_createdAt := now; u_updatedAt := now |}) in
      let! _ :=
        match u_role u with
        | RoleAdmin =>
            let! _ := ensureJsonFile ADMIN_FILE (Some u) in
            withFileLock ADMIN_FILE (writeJsonFile ADMIN_FILE (Some u))
        | RoleUser =>
            let! users := listUsers in
            withFileLock USERS_FILE (writeJsonFile USERS_FILE (users ++ [u]))
        end in
      ret u
  end.

Definition getHistory (username : string) : M (list HistoryEntry) :=
  let path := history_path username in
  let! _ := ensureJsonFile path [] in
  withFileLock path (
    let! data := readJsonFile path [] in
    parse (mapM historyEntrySchema data)).

Definition appendHistory (username : string) (entry : HistoryEntry) : M unit :=
  let path := history_path username in
  let! _ := ensureJsonFile path [] in
  withFileLock path (
    let! existing := readJsonFile path [] in
    let! history := parse (mapM historyEntrySchema existing) in
    let filtered :=
      filter (λ item, he_contentId item ≠ he_contentId entry) history in
    writeJsonFile path (entry :: filtered)).
End services.

(** ** services/userService.ts: update and login

    [bcrypt.compare] is one more library call, which only
    [verifyCredentials] makes. *)

(** [{ password?, active?, role? }], the update of [updateUser]. *)
Record UserUpdate : Type := {
  uu_password : option string;
  uu_active : option bool;
  uu_role : option Role;
}.

(** [bcrypt.compare(password, hash)], which only [verifyCredentials]
    calls. *)
Class Bcrypt : Type := {
  bcrypt_compare : string → string → bool;
}.

Section user_schemas.
Context `{env : Env}.

(** [z.object({ username: usernameSchema, password: passwordSchema })] *)
Definition loginSchema (username password : string) : option (string * string) :=
  username ← usernameSchema username;
  password ← passwordSchema password;
  Some (username, password).

Definition updateUserSchema (o : UserUpdate) : option UserUpdate :=
  password ← match uu_password o with
             | Some password => Some <$> passwordSchema password
             | None => Some None
             end;
  Some {| uu_password := password; uu_active := uu_active o;
          uu_role := uu_role o |}.
End user_schemas.

Section user_services.
Context `{env : Env}.

(** [update.password ? await bcrypt.hash(update.password, 12) :
    user.passwordHash]: the empty string is falsy. *)
Definition applyUserUpdate (user : UserRecord) (update : UserUpdate) : M UserRecord :=
  let! now := dayjs_now in
  let passwordHash :=
    match uu_password update with
    | Some password =>
        if decide (password = String.EmptyString) then u_passwordHash user
        else bcrypt_hash password
    | None => u_passwordHash user
    end in
  parse (userSchema
    {| u_id := u_id user; u_username := u_username user;
       u_passwordHash := passwordHash;
       u_role := default (u_role user) (uu_role update);
       u_active := default (u_active user) (uu_active update);
       u_createdAt := u_createdAt user; u_updatedAt := now |}).

Definition updateUser (username : string) (update : UserUpdate) : M UserRecord :=
  let! parsed := parse (updateUserSchema update) in
  let! admin := getAdmin in
  let among_users :=
    let! users := listUsers in
    match findIndex (λ user, u_username user = username) users with
    | None => throw NotFound
    | Some (index, user) =>
        let! updated := applyUserUpdate user parsed in
        let! _ := withFileLock USERS_FILE
                    (writeJsonFile USERS_FILE (<[index := updated]> users)) in
        ret updated
    end in
  match admin with
  | Some admin' =>
      if decide (u_username admin' = username) then
        let! updatedAdmin := applyUserUpdate admin' parsed in
        let! _ := withFileLock ADMIN_FILE
                    (writeJsonFile ADMIN_FILE (Some updatedAdmin)) in
        ret updatedAdmin
      else among_users
  | None => among_users
  end.

Definition verifyCredentials `{Bcrypt} (username password : string) :
    M (option UserRecord) :=
  let! parsed := parse (loginSchema username password) in
  let! user := findUserByUsername parsed.1 in
  match user with
  | None => ret None
  | Some user =>
      if negb (u_active user) then ret None
      else
        let matches := bcrypt_compare parsed.2 (u_passwordHash user) in
        ret (if matches then Some user else None)
  end.
End user_services.

(** ** services/catalogService.ts: update and listing of series *)

(** [Partial<Series>], the update of [updateSeries]. *)
Record PartialSeries : Type := {
  ps_id : option string;
  ps_name : option string;
  ps_slug : option string;
  ps_description : option string;
  ps_posterUrl : option string;
  ps_categories : option (list string);
  ps_seasons : option (list SeasonInput);
  ps_published : option bool;
  ps_featured : option bool;
  ps_createdAt : option string;
  ps_updatedAt : option string;
}.

(** [{ ...existing, ...update, slug, updatedAt: now }] *)
Definition updatedSeriesObject (existing : Series) (update : PartialSeries)
    (slug now : string) : SeriesObject :=
  {| so_id := default (s_id existing) (ps_id update);
     so_name := default (s_name existing) (ps_name update);
     so_slug := slug;
     so_description := default (s_description existing) (ps_description update);
     so_posterUrl := default (s_posterUrl existing) (ps_posterUrl update);
     so_categories := default (s_categories existing) (ps_categories update);
     so_seasons := default (season_object <$> s_seasons existing)
                           (ps_seasons update);
     so_published := default (s_published existing) (ps_published update);
     so_featured := default (s_featured existing) (ps_featured update);
     so_createdAt := default (s_createdAt existing) (ps_createdAt update);
     so_updatedAt := now |}.

Section series_services.
Context `{env : Env}.

Definition updateSeries (slug : string) (update : PartialSeries) : M Series :=
  let! existing := readSeriesFile slug in
  match existing with
  | None => throw NotFound
  | Some existing =>
      let! now := dayjs_now in
      let! merged :=
        parse (seriesSchema (updatedSeriesObject existing update slug now)) in
      let! _ := saveSeries merged in
      ret merged
  end.

(** [fs.readdir(SERIES_ROOT)]. The directory is the map of the series
    files, so an entry [<slug>.json] is given by its slug, which is what
    [seriesFilePathFromSlug] makes of the entry before [readSeriesFile]
    puts the extension back. The order of the listing is the order of
    [map_to_list]. *)
Definition readdir_series : M (list string) :=
  λ w, (w, inr (map_to_list (series_files w)).*1).

Definition listSeries : M (list Series) :=
  let! files := readdir_series in
  let! series :=
    forM_fold (λ series file,
                 let! record := readSeriesFile file in
                 ret (match record with
                      | Some record => series ++ [record]
                      | None => series
                      end))
              files [] in
  ret (js_sort (λ a b, localeCompare (s_name a) (s_name b)) series).
End series_services.

(** ** services/catalogService.ts: categories *)

Record Category : Type := {
  c_id : string;
  c_name : string;
  c_slug : string;
  c_order : Z;
}.

(** [Partial<Category>], and any object given to [categorySchema.parse]. *)
Record PartialCategory : Type := {
  pc_id : option string;
  pc_name : option string;
  pc_slug : option string;
  pc_order : option Z;
}.

Definition category_object (c : Category) : PartialCategory :=
  {| pc_id := Some (c_id c); pc_name := Some (c_name c);
     pc_slug := Some (c_slug c); pc_order := Some (c_order c) |}.

(** [{ ...a, ...b }] on category objects. *)
Definition spread_category (a b : PartialCategory) : PartialCategory :=
  {| pc_id := over (pc_id a) (pc_id b);
     pc_name := over (pc_name a) (pc_name b);
     pc_slug := over (pc_slug a) (pc_slug b);
     pc_order := over (pc_order a) (pc_order b) |}.

(** [{ ...cat, order }] *)
Definition set_c_order (order : Z) (c : Category) : Category :=
  {| c_id := c_id c; c_name := c_name c; c_slug := c_slug c;
     c_order := order |}.

Section category_schema.
Context `{env : Env}.

Definition categorySchema (o : PartialCategory) : option Category :=
  id ← pc_id o; _ ← check (is_uuid id);
  name ← pc_name o ≫= sanitizedString 1 64;
  slug ← pc_slug o ≫= sanitizedSlug 64;
  order ← pc_order o; _ ← check (bool_decide (0 ≤ order));
  Some {| c_id := id; c_name := name; c_slug := slug; c_order := order |}.
End category_schema.

(** *** The category store

    [CATEGORIES_FILE] is one more file under [data/]: the category
    services of services/catalogService.ts run over the world together
    with that file, through the same operations of utils/fs.ts. *)
Module Categories.

Record Store : Type := {
  files : World;
  (** [CATEGORIES_FILE]: [{ categories: [...] }]. *)
  categories_file : option (list Category);
}.

Definition M (A : Type) : Type := Store → Store * (Error + A).

Definition ret {A : Type} (a : A) : M A := λ s, (s, inr a).

Definition throw {A : Type} (e : Error) : M A := λ s, (s, inl e).

Definition bind {A B : Type} (m : M A) (k : A → M B) : M B :=
  λ s, match m s with
       | (s', inr a) => k a s'
       | (s', inl e) => (s', inl e)
       end.

#[local, warnings="-notation-overridden"] Notation "'let!' x ':=' c 'in' k" := (bind c (λ x, k))
  (at level 10, x name, c at level 100, k at level 200).

Definition parse {A : Type} (o : option A) : M A :=
  match o with
  | Some a => ret a
  | None => throw ValidationError
  end.

(** A computation on the other files, run beside the categories. *)
Definition lift {A : Type} (m : World → World * (Error + A)) : M A :=
  λ s, match m (files s) with
       | (w', r) => ({| files := w'; categories_file := categories_file s |}, r)
       end.

Record Path (A : Type) : Type := {
  read_at : Store → option A;
  write_at : A → Store → Store;
}.
Arguments read_at {A} _ _.
Arguments write_at {A} _ _ _.

Definition CATEGORIES_FILE : Path (list Category) :=
  {| read_at := categories_file;
     write_at := λ d s, {| files := files s; categories_file := Some d |} |}.

Definition existsSync {A : Type} (path : Path A) : M bool :=
  λ s, (s, inr (bool_decide (is_Some (read_at path s)))).

Definition writeJsonFile {A : Type} (path : Path A) (data : A) : M unit :=
  λ s, (write_at path data s, inr ()).

Definition readJsonFile {A : Type} (path : Path A) (defaultValue : A) : M A :=
  λ s, match read_at path s with
       | Some data => (s, inr data)
       | None => (let! _ := writeJsonFile path defaultValue in ret defaultValue) s
       end.

Definition ensureJsonFile {A : Type} (path : Path A) (defaultValue : A) : M unit :=
  let! there := existsSync path in
  if there then ret () else writeJsonFile path defaultValue.

Definition withFileLock {A B : Type} (path : Path A) (fn : M B) : M B := fn.

Section category_services.
Context `{env : Env}.

(** [(a, b) => a.order - b.order || a.name.localeCompare(b.name)]: the
    difference of the orders, or the comparison of the names when the
    difference is 0. *)
Definition compareCategories (a b : Category) : Z :=
  if decide (c_order a - c_order b = 0)
  then localeCompare (c_name a) (c_name b)
  else c_order a - c_order b.

Definition listCategories : M (list Category) :=
  let! _ := ensureJsonFile CATEGORIES_FILE [] in
  withFileLock CATEGORIES_FILE (
    let! data := readJsonFile CATEGORIES_FILE [] in
    parse (mapM categorySchema (category_object <$> data))).

Definition saveCategories (categories : list Category) : M unit :=
  let! _ := ensureJsonFile CATEGORIES_FILE [] in
  withFileLock CATEGORIES_FILE (writeJsonFile CATEGORIES_FILE categories).

Definition createCategory (input : PartialCategory) : M Category :=
  let! id := lift randomUUID in
  let! category := parse (categorySchema
    (spread_category input
       {| pc_id := Some id; pc_name := None; pc_slug := None;
          pc_order := None |})) in
  let! categories := listCategories in
  let categories := js_sort compareCategories (categories ++ [category]) in
  let! _ := saveCategories categories in
  ret category.

Definition updateCategory (id : string) (update : PartialCategory) : M Category :=
  let! categories := listCategories in
  match findIndex (λ cat, c_id cat = id) categories with
  | None => throw NotFound
  | Some (index, current) =>
      let! updated := parse (categorySchema
        (spread_category (category_object current) update)) in
      let categories := js_sort compareCategories (<[index := updated]> categories) in
      let! _ := saveCategories categories in
      ret updated
  end.

Definition deleteCategory (id : string) : M unit :=
  let! categories := listCategories in
  let filtered := filter (λ cat, c_id cat ≠ id) categories in
  saveCategories filtered.

(** [new Map(order.map((id, idx) => [id, idx]))]: a later entry of the
    same id replaces the earlier one. *)
Definition orderMap (order : list string) : gmap string nat :=
  foldl (λ m entry, <[entry.1 := entry.2]> m) ∅ (imap (λ idx id, (id, idx)) order).

Definition reorderCategories (order : list string) : M (list Category) :=
  let! categories := listCategories in
  let orderMap := orderMap order in
  let reordered :=
    (λ cat, set_c_order
              (default (c_order cat) (Z.of_nat <$> orderMap !! c_id cat)) cat)
      <$> categories in
  let reordered := js_sort compareCategories reordered in
  let! _ := saveCategories reordered in
  ret reordered.
End category_services.
End Categories.

(** ** The middleware

    A middleware either calls [next()] or answers with a status. *)
Inductive Outcome : Type :=
  | Next
  | Status (code : Z).

#[global] Instance Outcome_eq_dec : EqDecision Outcome.
Proof. solve_decision. Defined.

(** *** The rate limiter of the administration routes *)
Record RateState : Type := {
  rs_count : Z;
  rs_expiresAt : Z;
}.

Definition WINDOW_MS : Z := 60000.
Definition LIMIT : Z := 10.

(** [`${req.ip}:${req.currentUser?.username ?? 'guest'}`] *)
Definition rate_key (ip : string) (currentUser : option UserRecord) : string :=
  ip +:+ ":" +:+ from_option u_username "guest" currentUser.

(** [rateMap] is the module's [Map]; [now] is [Date.now()]. *)
Definition adminRateLimiter (ip : string) (currentUser : option UserRecord)
    (now : Z) (rateMap : gmap string RateState) :
    gmap string RateState * Outcome :=
  let key := rate_key ip currentUser in
  let fresh := {| rs_count := 1; rs_expiresAt := now + WINDOW_MS |} in
  match rateMap !! key with
  | None => (<[key := fresh]> rateMap, Next)
  | Some state =>
      if decide (rs_expiresAt state < now) then (<[key := fresh]> rateMap, Next)
      else if decide (LIMIT ≤ rs_count state) then (rateMap, Status 429)
      else
        (<[key := {| rs_count := rs_count state + 1;
                     rs_expiresAt := rs_expiresAt state |}]> rateMap, Next)
  end.

(** The requests of one client at the times [times], one after the
    other, with what the limiter answers to each. *)
Fixpoint serve (ip : string) (currentUser : option UserRecord) (times : list Z)
    (rateMap : gmap string RateState) : gmap string RateState * list Outcome :=
  match times with
  | [] => (rateMap, [])
  | now :: times' =>
      let (rateMap', outcome) := adminRateLimiter ip currentUser now rateMap in
      let (rateMap'', outcomes) := serve ip currentUser times' rateMap' in
      (rateMap'', outcome :: outcomes)
  end.

(** *** middleware/auth.ts *)

(** [req.session.user] *)
Record SessionUser : Type := {
  su_username : string;
  su_role : Role;
  su_lastActive : string;
}.

(** What the middleware reads and writes of a request. *)
Record Request : Type := {
  session_user : option SessionUser;
  currentUser : option UserRecord;
}.

Definition SESSION_TTL_MS : Z := 1000 * 60 * 60 * 24 * 7.

(** [new Date(s).getTime()]; [None] for the [NaN] of an invalid date. *)
Class Dates : Type := {
  getTime : string → option Z;
}.

(** [Date.now() - new Date(lastActive).getTime() > SESSION_TTL_MS]: a
    comparison with [NaN] is false. *)
Definition session_expired `{Dates} (now : Z) (lastActive : string) : bool :=
  match getTime lastActive with
  | Some t => bool_decide (SESSION_TTL_MS < now - t)
  | None => false
  end.

(** [delete req.session.user] *)
Definition delete_session_user (req : Request) : Request :=
  {| session_user := None; currentUser := currentUser req |}.

Section auth.
Context `{env : Env} `{dates : Dates}.

(** [now] is [Date.now()]. An error thrown on the way goes to
    [next(error)]; otherwise [next()] is called with the request as
    returned. *)
Definition attachUser (now : Z) (req : Request) : M Request :=
  match session_user req with
  | None => ret req
  | Some sessionUser =>
      if session_expired now (su_lastActive sessionUser)
      then ret (delete_session_user req)
      else
        let! user := findUserByUsername (su_username sessionUser) in
        match user with
        | None => ret (delete_session_user req)
        | Some user =>
            if negb (u_active user) then ret (delete_session_user req)
            else
              let! lastActive := dayjs_now in
              ret {| session_user :=
                       Some {| su_username := u_username user;
                               su_role := u_role user;
                               su_lastActive := lastActive |};
                     currentUser := Some user |}
        end
  end.
End auth.

Definition requireAuth (req : Request) : Outcome :=
  match currentUser req with
  | None => Status 401
  | Some _ => Next
  end.

Definition requireRole (role : Role) (req : Request) : Outcome :=
  match currentUser req with
  | None => Status 401
  | Some user =>
      if decide (role = RoleAdmin ∧ u_role user ≠ RoleAdmin) then Status 403
      else Next
  end.

(** ** The ordering invariant of the data model

    Season numbers strictly ascending within a series, hence unique, and
    episode numbers strictly ascending within every season. *)
Definition strictly_ascending (l : list Z) : Prop := StronglySorted Z.lt l.

Definition season_numbers (seasons : list Season) : list Z :=
  se_season <$> seasons.

Definition episode_numbers (season : Season) : list Z :=
  ep_episode <$> se_episodes season.

Definition well_ordered (seasons : list Season) : Prop :=
  strictly_ascending (season_numbers seasons) ∧
  Forall (λ season, strictly_ascending (episode_numbers season)) seasons.

(** The episode that [seasons.find(s => s.season === season)] and then
    [episodes.find(ep => ep.episode === episode)] reach. *)
Definition lookup_episode (season episode : Z) (seasons : list Season) : option Episode :=
  found ← find_first (λ s, se_season s = season) seasons;
  find_first (λ ep, ep_episode ep = episode) (se_episodes found).

(** ** Stored documents that pass their schema

    Every read parses what the file holds; these say that the parse
    succeeds. *)
Section stored_valid.
Context `{env : Env}.

Definition movies_valid (stored : list Movie) : Prop :=
  is_Some (mapM movieSchema (movie_object <$> stored)).

Definition users_valid (stored : list UserRecord) : Prop :=
  is_Some (mapM userSchema stored).

(** No admin file, [{ admin: null }], or an admin that parses. *)
Definition admin_valid (file : option (option UserRecord)) : Prop :=
  match file with
  | Some (Some a) => is_Some (userSchema a)
  | _ => True
  end.

Definition history_valid (stored : list HistoryEntry) : Prop :=
  Forall (λ item, is_Some (historyEntrySchema item)) stored.


End stored_valid.

(** A payload that lacks a key which [episodeSchema] requires (the keys
    without a default). *)
Definition lacks_required_key (o : PartialEpisode) : Prop :=
  pe_id o = None ∨ pe_title o = None ∨ pe_description o = None ∨
  pe_season o = None ∨ pe_episode o = None ∨ pe_duration o = None ∨
  pe_streamUrl o = None ∨ pe_lastUpdated o = None.

(** Only the clock has been read between [w] and [w']. *)
Definition clock_moved (w w' : World) : Prop :=
  ∃ n, w' = set_clock_reads n w.


(** A [Map] as the merge builds it: one entry per key, and every value
    carries its key. *)
Definition keyed_by {V : Type} (key : V → Z) (m : JsMap V) : Prop :=
  NoDup m.*1 ∧ Forall (λ kv, key kv.2 = kv.1) m.

(** The episode numbers that the payloads of an incoming season carry. *)
Definition incoming_episode_numbers (incoming : SeasonInput) : list Z :=
  omap pe_episode (si_episodes incoming).

(** The entry of season [n] holds episode [e]. *)
Definition holds (n e : Z) (m : JsMap Season) : Prop :=
  ∃ season, map_get n m = Some season ∧ e ∈ episode_numbers season.

(** The world once a file has been created, empty, if it was missing:
    what [ensureJsonFile] leaves behind. *)
Definition with_movies_file (w : World) : World :=
  match movies_file w with
  | Some _ => w
  | None => set_movies_file (Some []) w
  end.

Definition with_users_file (w : World) : World :=
  match users_file w with
  | Some _ => w
  | None => set_users_file (Some []) w
  end.

(** The world once the history file of [username] has been created if
    it was missing. *)
Definition with_history_file (username : string) (w : World) : World :=
  match history_files w !! username with
  | Some _ => w
  | None => set_history_files (<[username := []]> (history_files w)) w
  end.

(** The store once the categories file has been created if it was
    missing. *)
Definition with_categories_file (s : Categories.Store) : Categories.Store :=
  match Categories.categories_file s with
  | Some _ => s
  | None => {| Categories.files := Categories.files s;
               Categories.categories_file := Some [] |}
  end.

(** ** A concrete environment, for evaluation

    Small executable stand-ins for the library calls, exact on the inputs
    used below: plain ASCII text without markup or surrounding blanks
    (which the sanitiser returns as it is), identifiers in the 8-4-4-4-12
    hexadecimal layout, and [http(s)://host/...] addresses. *)
Module Sample.

Definition is_hex (c : ascii) : bool :=
  is_digit c || char_between 97 102 c || char_between 65 70 c.

Fixpoint uuid_shape (groups : list nat) (cs : list ascii) : bool :=
  match groups with
  | [] => false
  | [n] => forallb is_hex cs && (length cs =? n)%nat
  | n :: groups' =>
      forallb is_hex (take n cs) && (length (take n cs) =? n)%nat
      && match drop n cs with
         | "-"%char :: cs' => uuid_shape groups' cs'
         | _ => false
         end
  end.

Definition hex_uuid (s : string) : bool :=
  uuid_shape [8; 4; 4; 4; 12]%nat (String.list_ascii_of_string s).

Fixpoint strip_prefix (p cs : list ascii) : option (list ascii) :=
  match p, cs with
  | [], _ => Some cs
  | a :: p', c :: cs' => if decide (a = c) then strip_prefix p' cs' else None
  | _ :: _, [] => None
  end.

Fixpoint host_chars (cs : list ascii) : list ascii :=
  match cs with
  | [] => []
  | c :: cs' =>
      if decide (c = "/"%char ∨ c = ":"%char ∨ c = "?"%char ∨ c = "#"%char)
      then [] else c :: host_chars cs'
  end.

Definition host_of (u : string) : option string :=
  let cs := String.list_ascii_of_string u in
  rest ← match strip_prefix (String.list_ascii_of_string "https://") cs with
         | Some r => Some r
         | None => strip_prefix (String.list_ascii_of_string "http://") cs
         end;
  match host_chars rest with
  | [] => None
  | h => Some (String.string_of_list_ascii h)
  end.

Definition slug_of_char (c : ascii) : list ascii :=
  if is_lower c || is_digit c then [c]
  else if is_upper c then [ascii_of_nat (nat_of_ascii c + 32)]
  else if decide (c = " "%char ∨ c = "-"%char) then ["-"%char]
  else [].

Definition slug_of (s : string) : string :=
  String.string_of_list_ascii
    (String.list_ascii_of_string s ≫= slug_of_char).

Definition compare_strings (a b : string) : Z :=
  match String.compare a b with
  | Lt => -1
  | Eq => 0
  | Gt => 1
  end.

Definition digit (n : nat) : ascii := ascii_of_nat (48 + n mod 10).

(** Timestamps and identifiers that differ from one call to the next. *)
Definition stamp (n : nat) : string :=
  "2025-01-01T00:00:" +:+
  String.string_of_list_ascii [digit (n / 10); digit n] +:+ ".000Z".

Definition ident (n : nat) : string :=
  "00000000-0000-4000-8000-0000000000" +:+
  String.string_of_list_ascii [digit (n / 10); digit n].

#[local] Instance env : Env :=
  {| sanitize := λ s, s;
     is_uuid := hex_uuid;
     url_hostname := host_of;
     slugify := slug_of;
     current_year := 2025;
     localeCompare := compare_strings;
     clock := stamp;
     uuid := ident;
     bcrypt_hash := λ pw, "$2a$12$" +:+ pw |}.

(** *** Sample documents *)

Definition episode (season number : Z) (title : string) (duration : Z)
    (published : bool) (views : Z) : Episode :=
  {| ep_id := ident (Z.to_nat (10 * season + number));
     ep_title := title;
     ep_description := "An episode";
     ep_season := season;
     ep_episode := number;
     ep_duration := duration;
     ep_streamUrl := "https://stream.local/atlas.m3u8";
     ep_subtitles := [];
     ep_published := published;
     ep_views := views;
     ep_lastUpdated := "2024-06-01T10:00:00.000Z" |}.

(** The series of the scenario: season 1 holds episode 1, titled "A",
    of duration 10 and not published. *)
Definition atlas : Series :=
  {| s_id := ident 40;
     s_name := "Echoes of Atlas";
     s_slug := "echoes-of-atlas";
     s_description := "A series";
     s_posterUrl := "https://cdn.example.com/atlas.png";
     s_categories := [];
     s_seasons :=
       [{| se_season := 1; se_episodes := [episode 1 1 "A" 10 false 0] |}];
     s_published := true;
     s_featured := false;
     s_createdAt := "2024-01-01T00:00:00.000Z";
     s_updatedAt := "2024-06-01T10:00:00.000Z" |}.

Definition movie (n : nat) (title slug : string) (views : Z) : Movie :=
  {| m_id := ident n; m_title := title; m_slug := slug;
     m_description := "A movie"; m_year := 2020; m_duration := 90;
     m_posterUrl := "https://cdn.example.com/poster.png";
     m_streamUrl := "https://videos.local/movie.m3u8";
     m_subtitles := []; m_categories := []; m_published := true;
     m_featured := false; m_views := views;
     m_createdAt := "2024-01-01T00:00:00.000Z";
     m_updatedAt := "2024-01-01T00:00:00.000Z" |}.

Definition account (n : nat) (name : string) (role : Role) : UserRecord :=
  {| u_id := ident n; u_username := name;
     u_passwordHash := "$2a$12$hash"; u_role := role; u_active := true;
     u_createdAt := "2024-01-01T00:00:00.000Z";
     u_updatedAt := "2024-01-01T00:00:00.000Z" |}.

Definition watched (contentId : string) (progress : Q) : HistoryEntry :=
  {| he_contentId := contentId; he_type := "movie";
     he_progress := progress;
     he_lastWatched := "2024-06-01T10:00:00.000Z";
     he_season := None; he_episode := None |}.

Definition world : World :=
  {| movies_file := Some [movie 61 "Alpha" "alpha" 3; movie 62 "Beta" "beta" 0];
     series_files := {[ "echoes-of-atlas" := atlas ]};
     admin_file := Some (Some (account 1 "root" RoleAdmin));
     users_file := Some [account 2 "alice" RoleUser];
     history_files :=
       {[ "alice" := [watched "m2" (1 # 2); watched "m1" (1 # 4)] ]};
     clock_reads := 0;
     uuid_draws := 0 |}.

(** A payload for [mergeEpisode]: season 1, episode 1, retitled. *)
Definition pilot_extended : EpisodePayload :=
  {| py_title := "Pilot Extended"; py_description := "An episode";
     py_season := 1; py_episode := 1; py_duration := 10;
     py_streamUrl := "https://stream.local/atlas.m3u8";
     py_subtitles := []; py_published := false |}.

(** The incoming payload of the scenario: [{ duration: 20 }]. *)
Definition only_duration : PartialEpisode :=
  {| pe_id := None; pe_title := None; pe_description := None;
     pe_season := None; pe_episode := None; pe_duration := Some 20;
     pe_streamUrl := None; pe_subtitles := None; pe_published := None;
     pe_views := None; pe_lastUpdated := None |}.

(** A payload with every required key and neither [published] nor
    [views]. *)
Definition without_flags (season number duration : Z) : PartialEpisode :=
  {| pe_id := Some (ident (Z.to_nat (10 * season + number)));
     pe_title := Some "A";
     pe_description := Some "An episode";
     pe_season := Some season;
     pe_episode := Some number;
     pe_duration := Some duration;
     pe_streamUrl := Some "https://stream.local/atlas.m3u8";
     pe_subtitles := None; pe_published := None; pe_views := None;
     pe_lastUpdated := Some "2024-06-01T10:00:00.000Z" |}.

(** [{ slug }], an update for [updateMovie]. *)
Definition only_slug (slug : string) : PartialMovie :=
  {| pm_id := None; pm_title := None; pm_slug := Some slug;
     pm_description := None; pm_year := None; pm_duration := None;
     pm_posterUrl := None; pm_streamUrl := None; pm_subtitles := None;
     pm_categories := None; pm_published := None; pm_featured := None;
     pm_views := None; pm_createdAt := None; pm_updatedAt := None |}.

(** A payload for [createOrMergeSeries] on the series of the scenario. *)
Definition atlas_import (seasons : list SeasonInput) : SeriesPayload :=
  {| sp_id := None;
     sp_name := "Echoes of Atlas";
     sp_slug := String.EmptyString;
     sp_description := "A series";
     sp_posterUrl := "https://cdn.example.com/atlas.png";
     sp_categories := [];
     sp_seasons := seasons;
     sp_published := true;
     sp_featured := false |}.
(** *** Further sample documents *)

(** [bcrypt.compare] for the hashes of [env]. *)
#[local] Instance bcrypt : Bcrypt :=
  {| bcrypt_compare := λ password hash,
       bool_decide (hash = "$2a$12$" +:+ password) |}.

(** The two instants that the sample documents carry. *)
#[local] Instance dates : Dates :=
  {| getTime := λ s,
       if decide (s = "2025-01-01T00:00:00.000Z") then Some 1735689600000
       else if decide (s = "2024-06-01T10:00:00.000Z") then Some 1717236000000
       else None |}.

(** An import of two seasons: a new season 2, and season 1 with a new
    episode 2. *)
Definition second_import : list SeasonInput :=
  [{| si_season := 2;
      si_episodes := [without_flags 2 1 20; without_flags 2 2 20] |};
   {| si_season := 1; si_episodes := [without_flags 1 2 30] |}].

(** A payload for [mergeEpisode]: season 1, episode 2. *)
Definition sequel : EpisodePayload :=
  {| py_title := "Sequel"; py_description := "An episode";
     py_season := 1; py_episode := 2; py_duration := 12;
     py_streamUrl := "https://stream.local/atlas.m3u8";
     py_subtitles := []; py_published := true |}.

(** A payload for [createOrMergeSeries] on a slug without a file. *)
Definition new_show : SeriesPayload :=
  {| sp_id := None;
     sp_name := "New Show";
     sp_slug := String.EmptyString;
     sp_description := "A series";
     sp_posterUrl := "https://cdn.example.com/show.png";
     sp_categories := [];
     sp_seasons := second_import;
     sp_published := false;
     sp_featured := false |}.

(** [{ published }], an update for [updateSeries]. *)
Definition only_published (published : bool) : PartialSeries :=
  {| ps_id := None; ps_name := None; ps_slug := None; ps_description := None;
     ps_posterUrl := None; ps_categories := None; ps_seasons := None;
     ps_published := Some published; ps_featured := None;
     ps_createdAt := None; ps_updatedAt := None |}.

(** [{ active: false }], an update for [updateUser]. *)
Definition deactivate : UserUpdate :=
  {| uu_password := None; uu_active := Some false; uu_role := None |}.

Definition category (n : nat) (name slug : string) (order : Z) : Category :=
  {| c_id := ident n; c_name := name; c_slug := slug; c_order := order |}.

Definition store : Categories.Store :=
  {| Categories.files := world;
     Categories.categories_file :=
       Some [category 71 "Drama" "drama" 0; category 72 "Comedy" "comedy" 1] |}.

(** A user whose hash is the hash of password1, and the sample world
    with this user beside alice. *)
Definition carol : UserRecord :=
  {| u_id := ident 3; u_username := "carol";
     u_passwordHash := "$2a$12$password1"; u_role := RoleUser;
     u_active := true;
     u_createdAt := "2024-01-01T00:00:00.000Z";
     u_updatedAt := "2024-01-01T00:00:00.000Z" |}.

Definition members : World :=
  set_users_file (Some [account 2 "alice" RoleUser; carol]) world.

(** The sample series with a season 0, which [seasonSchema] rejects, and
    the sample world with this series in a second file. *)
Definition broken : Series :=
  set_s_seasons [{| se_season := 0; se_episodes := [] |}] atlas.

Definition with_broken : World :=
  set_series_files (<["broken" := broken]> (series_files world))
    world.

(** [{ name }], an update for [updateCategory], and an input for
    [createCategory]. *)
Definition only_name (name : string) : PartialCategory :=
  {| pc_id := None; pc_name := Some name; pc_slug := None; pc_order := None |}.

Definition action : PartialCategory :=
  {| pc_id := None; pc_name := Some "Action"; pc_slug := Some "drama";
     pc_order := Some 0 |}.

(** A history entry of a type that [historyEntrySchema] does not know. *)
Definition podcast : HistoryEntry :=
  {| he_contentId := "p1"; he_type := "podcast"; he_progress := 0;
     he_lastWatched := "2024-06-01T10:00:00.000Z";
     he_season := None; he_episode := None |}.

(** The session of alice as an administrator, last active at the second
    instant. *)
Definition stale_session : Request :=
  {| session_user :=
       Some {| su_username := "alice"; su_role := RoleAdmin;
               su_lastActive := "2024-06-01T10:00:00.000Z" |};
     currentUser := None |}.




End Sample.

(** * Verification *)

(** Unfolds the monad and the file operations and computes. *)
Ltac mrun :=
  repeat progress
    (unfold ensureJsonFile, readJsonFile, writeJsonFile, readFile, existsSync,
       withFileLock, dayjs_now, randomUUID, parse, bind, ret, throw;
     simpl).

Ltac mrun_in H :=
  repeat progress
    (unfold ensureJsonFile, readJsonFile, writeJsonFile, readFile, existsSync,
       withFileLock, dayjs_now, randomUUID, parse, bind, ret, throw in H;
     simpl in H).

#[local] Arguments movieSchema : simpl never.
#[local] Arguments episodeSchema : simpl never.
#[local] Arguments seasonSchema : simpl never.
#[local] Arguments seriesSchema : simpl never.
#[local] Arguments userSchema : simpl never.
#[local] Arguments createUserSchema : simpl never.
#[local] Arguments historyEntrySchema : simpl never.


(** ** Facts about [sort] by a numeric key *)
Section sort_facts.
Context {A : Type}.

Lemma js_insert_perm (cmp : A → A → Z) x l : js_insert cmp x l ≡ₚ x :: l.
Proof.
  induction l as [|y l IH]; simpl; [done|].
  case_decide; [done|]. by rewrite IH, Permutation_swap.
Qed.

Lemma js_sort_perm (cmp : A → A → Z) l : js_sort cmp l ≡ₚ l.
Proof.
  induction l as [|x l IH]; simpl; [done|].
  by rewrite js_insert_perm, IH.
Qed.

Context (key : A → Z).

Lemma sort_by_perm l : sort_by key l ≡ₚ l.
Proof. apply js_sort_perm. Qed.

Lemma sort_by_cons x l :
  sort_by key (x :: l) = js_insert (λ a b, key a - key b) x (sort_by key l).
Proof. done. Qed.

Lemma js_insert_keys_sorted x l :
  Sorted Z.le (key <$> l) →
  Sorted Z.le (key <$> js_insert (λ a b, key a - key b) x l).
Proof.
  induction l as [|y l IH]; simpl; intros Hs.
  - by repeat constructor.
  - case_decide as Hxy; simpl.
    + constructor; [done|]. constructor. lia.
    + apply Sorted_inv in Hs as [Hs Hhd]. constructor; [by apply IH|].
      destruct l as [|z l]; simpl.
      * constructor. lia.
      * case_decide; simpl; constructor; [lia|].
        by apply HdRel_inv in Hhd.
Qed.

Lemma sort_by_keys_sorted l : Sorted Z.le (key <$> sort_by key l).
Proof.
  induction l as [|x l IH]; [constructor|].
  rewrite sort_by_cons. by apply js_insert_keys_sorted.
Qed.


Lemma find_first_key_cons n x l :
  find_first (λ y, key y = n) (x :: l) =
  if decide (key x = n) then Some x else find_first (λ y, key y = n) l.
Proof.
  unfold find_first. simpl. case_decide; [done|].
  rewrite <-option_fmap_compose. by apply option_fmap_ext; intros [].
Qed.

(** Stability: the first element with a given key is the same before
    and after sorting. *)
Lemma find_first_js_insert n x l :
  find_first (λ y, key y = n) (js_insert (λ a b, key a - key b) x l) =
  if decide (key x = n) then Some x else find_first (λ y, key y = n) l.
Proof.
  induction l as [|y l IH]; cbn [js_insert].
  - by rewrite find_first_key_cons.
  - destruct (decide (key x - key y ≤ 0)) as [Hxy|Hxy].
    + by rewrite find_first_key_cons.
    + rewrite !find_first_key_cons, IH.
      repeat case_decide; try done; lia.
Qed.

Lemma find_first_sort_by n l :
  find_first (λ y, key y = n) (sort_by key l) = find_first (λ y, key y = n) l.
Proof.
  induction l as [|x l IH]; [done|].
  by rewrite sort_by_cons, find_first_js_insert, IH, find_first_key_cons.
Qed.

(** Ascending keys without a repetition ascend strictly. *)
Lemma sorted_nodup_strict (l : list Z) :
  Sorted Z.le l → NoDup l → strictly_ascending l.
Proof.
  intros Hs Hn. apply (Sorted_StronglySorted _) in Hs.
  induction Hs as [|x l Hs IH Hx]; [constructor|].
  apply NoDup_cons in Hn as [Hx' Hn]. constructor; [by apply IH|].
  rewrite Forall_forall in Hx |- *. intros y Hy.
  specialize (Hx y Hy). assert (x ≠ y) by (by intros ->). lia.
Qed.

End sort_facts.

#[local] Arguments sort_by : simpl never.
#[local] Arguments js_sort : simpl never.
#[local] Arguments find_first : simpl never.
#[local] Arguments findIndex : simpl never.

(** ** Watch history *)
Section history_facts.
Context `{env : Env}.

(** The history schema has no transform: a valid list parses to itself. *)
Lemma historyEntrySchema_id o o' : historyEntrySchema o = Some o' → o' = o.
Proof.
  unfold historyEntrySchema, check. intros Hp.
  repeat (case_match; simplify_eq/=); done.
Qed.

Lemma mapM_historyEntrySchema l :
  Forall (λ item, is_Some (historyEntrySchema item)) l →
  mapM historyEntrySchema l = Some l.
Proof.
  intros Hl. apply mapM_Some. induction Hl as [|x l [x' Hx] _ IH]; constructor; [|done].
  by rewrite Hx, (historyEntrySchema_id _ _ Hx).
Qed.

Lemma appendHistory_run w username entry :
  history_valid (default [] (history_files w !! username)) →
  appendHistory username entry w =
    (set_history_files
       (<[username :=
            entry :: filter (λ item, he_contentId item ≠ he_contentId entry)
                            (default [] (history_files w !! username))]>
          (history_files w)) w,
     inr ()).
Proof.
  intros Hvalid. apply mapM_historyEntrySchema in Hvalid.
  unfold appendHistory, ensureJsonFile, readJsonFile, writeJsonFile,
    existsSync, withFileLock, bind, ret, parse. simpl.
  destruct (history_files w !! username) as [history|] eqn:Hfile; simpl in *.
  - rewrite Hfile, Hvalid. done.
  - rewrite lookup_insert_eq. simpl.
    unfold set_history_files. simpl. by rewrite insert_insert_eq.
Qed.

(** C4. Appending a history entry stores the entry first, followed by
    the previous entries of the user whose contentId differs from the
    entry's, in their order: an earlier entry with the same contentId is
    removed, the entry occurs once, entries with other contentIds are
    kept, a history with at most one entry per contentId stays so, and
    the histories of other users are not touched. *)
Theorem appendHistory_moves_to_front (w : World) (username : string)
    (entry : HistoryEntry) (history : list HistoryEntry) :
  history_files w !! username = Some history →
  history_valid history →
  ∃ w' rest,
    appendHistory username entry w = (w', inr ()) ∧
    history_files w' !! username = Some (entry :: rest) ∧
    rest = filter (λ item, he_contentId item ≠ he_contentId entry) history ∧
    (∀ item, item ∈ rest → he_contentId item ≠ he_contentId entry) ∧
    (∀ item, item ∈ history → he_contentId item ≠ he_contentId entry →
             item ∈ rest) ∧
    (NoDup (he_contentId <$> history) →
     NoDup (he_contentId <$> entry :: rest)) ∧
    (∀ other, other ≠ username →
              history_files w' !! other = history_files w !! other).
Proof.
  intros Hfile Hvalid. eexists _, _. split.
  { apply appendHistory_run. by rewrite Hfile. }
  rewrite Hfile. simpl. split; [by rewrite lookup_insert_eq|].
  split; [done|]. split; [|split; [|split]].
  - intros item Hin. by apply list_elem_of_filter in Hin as [? _].
  - intros item Hin Hne. by apply list_elem_of_filter.
  - intros Hnd. simpl. apply NoDup_cons. split.
    + intros Hin. apply list_elem_of_fmap in Hin as (item & Heq & Hin).
      by apply list_elem_of_filter in Hin as [? _].
    + revert Hnd. clear. induction history as [|x l IH]; [done|].
      rewrite fmap_cons, NoDup_cons. intros [Hx Hnd].
      rewrite filter_cons. case_decide; [|by apply IH].
      rewrite fmap_cons. apply NoDup_cons. split; [|by apply IH].
      intros Hin. apply Hx. apply list_elem_of_fmap in Hin as (y & -> & Hin).
      apply list_elem_of_filter in Hin as [_ Hin].
      by apply list_elem_of_fmap_2.
  - intros other Hne. by rewrite lookup_insert_ne.
Qed.
End history_facts.

(** ** What the schemas keep *)
Section schema_facts.
Context `{env : Env}.

Lemma check_Some b u : check b = Some u → b = true.
Proof. by destruct b. Qed.

Lemma movieSchema_fields o m :
  movieSchema o = Some m →
  pm_id o = Some (m_id m) ∧
  (∃ slug, pm_slug o = Some slug ∧ m_slug m = sanitize slug) ∧
  m_views m = default 0 (pm_views o).
Proof.
  unfold movieSchema, sanitizedSlug. intros Hp.
  simplify_option_eq. eauto.
Qed.
End schema_facts.

(** ** Movies *)
Section movie_facts.
Context `{env : Env}.

Lemma listMovies_existing w stored :
  movies_file w = Some stored →
  listMovies w =
    (w, match mapM movieSchema (movie_object <$> stored) with
        | Some movies => inr movies
        | None => inl ValidationError
        end).
Proof.
  intros Hfile. unfold listMovies. mrun. rewrite !Hfile. mrun.
  rewrite Hfile. by destruct (mapM _ _).
Qed.

Lemma listMovies_absent w :
  movies_file w = None →
  listMovies w = (set_movies_file (Some []) w, inr []).
Proof.
  intros Hfile. unfold listMovies. mrun. by rewrite !Hfile.
Qed.

Lemma saveMovies_run w movies :
  saveMovies movies w = (set_movies_file (Some movies) w, inr ()).
Proof.
  unfold saveMovies. mrun. by destruct (movies_file w).
Qed.

(** Parsing the stored movies keeps their number, their ids, their view
    counters, and sanitises their slugs. *)
Lemma parsed_movies_lookup stored movies i m :
  mapM movieSchema (movie_object <$> stored) = Some movies →
  movies !! i = Some m →
  ∃ m0, stored !! i = Some m0 ∧ m_id m = m_id m0 ∧
        m_views m = m_views m0 ∧ m_slug m = sanitize (m_slug m0).
Proof.
  intros Hp Hi. apply mapM_Some in Hp.
  destruct (Forall2_lookup_r _ _ _ _ _ Hp Hi) as (o & Ho & Hm).
  rewrite list_lookup_fmap in Ho.
  destruct (stored !! i) as [m0|]; simplify_eq/=.
  apply movieSchema_fields in Hm as (Hid & (slug & Hslug & Hs) & Hv).
  simplify_eq/=. eauto.
Qed.

Lemma parsed_movies_lookup_stored stored movies i m0 :
  mapM movieSchema (movie_object <$> stored) = Some movies →
  stored !! i = Some m0 →
  ∃ m, movies !! i = Some m ∧ m_id m = m_id m0 ∧
       m_views m = m_views m0 ∧ m_slug m = sanitize (m_slug m0).
Proof.
  intros Hp Hi. pose proof Hp as Hp'. apply mapM_Some in Hp.
  assert ((movie_object <$> stored) !! i = Some (movie_object m0)) as Ho
    by (by rewrite list_lookup_fmap, Hi).
  destruct (Forall2_lookup_l _ _ _ _ _ Hp Ho) as (m & Hm & _).
  destruct (parsed_movies_lookup _ _ _ _ Hp' Hm) as (m0' & ? & ?).
  simplify_eq. eauto.
Qed.

Lemma createMovie_conflict w payload stored movies movie existing :
  movies_file w = Some stored →
  mapM movieSchema (movie_object <$> stored) = Some movies →
  movieSchema (newMovieObject payload (uuid (uuid_draws w))
                              (clock (clock_reads w))) = Some movie →
  existing ∈ stored →
  pm_slug payload = Some (m_slug existing) →
  createMovie payload w =
    (set_uuid_draws (S (uuid_draws w)) (set_clock_reads (S (clock_reads w)) w),
     inl Conflict).
Proof.
  intros Hfile Hstored Hmovie Hin Hslug.
  unfold createMovie. mrun. rewrite Hmovie. mrun.
  rewrite (listMovies_existing _ stored) by done. mrun.
  rewrite Hstored. rewrite bool_decide_eq_true_2; [done|].
  apply list_elem_of_lookup in Hin as [i Hi].
  destruct (parsed_movies_lookup_stored _ _ _ _ Hstored Hi)
    as (m & Hm & _ & _ & Hs).
  apply Exists_exists. exists m. split; [by eapply list_elem_of_lookup_2|].
  apply movieSchema_fields in Hmovie as (_ & (slug & Hslug' & ->) & _).
  rewrite Hs. unfold newMovieObject in Hslug'. simpl in Hslug'.
  rewrite Hslug in Hslug'. by simplify_eq/=.
Qed.


End movie_facts.

(** ** Users *)
Section user_facts.
Context `{env : Env}.

Lemma userSchema_username o u :
  userSchema o = Some u → u_username u = sanitize (u_username o).
Proof.
  unfold userSchema, usernameSchema. intros Hp. by simplify_option_eq.
Qed.

Lemma createUserSchema_username o parsed :
  createUserSchema o = Some parsed →
  cu_username parsed = sanitize (cu_username o).
Proof.
  unfold createUserSchema, usernameSchema. intros Hp. by simplify_option_eq.
Qed.

Lemma getAdmin_run w :
  getAdmin w =
    (w, match admin_file w with
        | Some (Some a) =>
            match userSchema a with
            | Some a' => inr (Some a')
            | None => inl ValidationError
            end
        | _ => inr None
        end).
Proof.
  unfold getAdmin. mrun.
  destruct (admin_file w) as [[a|]|] eqn:Hfile; mrun; rewrite ?Hfile; mrun;
    try done.
  by destruct (userSchema a).
Qed.

Lemma listUsers_existing w stored :
  users_file w = Some stored →
  listUsers w =
    (w, match mapM userSchema stored with
        | Some users => inr users
        | None => inl ValidationError
        end).
Proof.
  intros Hfile. unfold listUsers. mrun. rewrite !Hfile. mrun.
  rewrite Hfile. by destruct (mapM _ _).
Qed.

Lemma createUser_conflict_admin w payload existing :
  is_Some (createUserSchema payload) →
  admin_file w = Some (Some existing) →
  is_Some (userSchema existing) →
  u_username existing = cu_username payload →
  createUser payload w = (w, inl Conflict).
Proof.
  intros [parsed Hparsed] Hfile [a Ha] Hname.
  unfold createUser, findUserByUsername, bind.
  rewrite Hparsed. mrun. rewrite getAdmin_run, Hfile, Ha.
  rewrite decide_True; [done|].
  rewrite (userSchema_username _ _ Ha), (createUserSchema_username _ _ Hparsed).
  by rewrite Hname.
Qed.

Lemma createUser_conflict_user w payload stored existing :
  is_Some (createUserSchema payload) →
  admin_valid (admin_file w) →
  users_file w = Some stored →
  users_valid stored →
  existing ∈ stored →
  u_username existing = cu_username payload →
  createUser payload w = (w, inl Conflict).
Proof.
  intros [parsed Hparsed] Hadmin Hfile [users Husers] Hin Hname.
  assert (is_Some (find_first (λ u, u_username u = cu_username parsed) users))
    as [found Hfound].
  { apply mapM_Some in Husers.
    apply list_elem_of_lookup in Hin as [i Hi].
    destruct (Forall2_lookup_l _ _ _ _ _ Husers Hi) as (u & Hu & Hpu).
    unfold find_first. apply fmap_is_Some.
    apply (list_find_elem_of _ _ u); [by eapply list_elem_of_lookup_2|].
    rewrite (userSchema_username _ _ Hpu), (createUserSchema_username _ _ Hparsed).
    by rewrite Hname. }
  unfold createUser, findUserByUsername, bind.
  rewrite Hparsed. mrun. rewrite getAdmin_run.
  unfold admin_valid in Hadmin.
  destruct (admin_file w) as [[a|]|]; simpl.
  - destruct Hadmin as [a' Ha']. rewrite Ha'. case_decide; [done|].
    rewrite (listUsers_existing _ stored), Husers by done. by rewrite Hfound.
  - rewrite (listUsers_existing _ stored), Husers by done. by rewrite Hfound.
  - rewrite (listUsers_existing _ stored), Husers by done. by rewrite Hfound.
Qed.
End user_facts.

(** ** Series: schemas and files *)
Section series_files_facts.
Context `{env : Env}.

Lemma episodeSchema_fields o e :
  episodeSchema o = Some e →
  pe_id o = Some (ep_id e) ∧
  (∃ title, pe_title o = Some title ∧ ep_title e = sanitize title) ∧
  (∃ description, pe_description o = Some description ∧
                  ep_description e = sanitize description) ∧
  pe_season o = Some (ep_season e) ∧
  pe_episode o = Some (ep_episode e) ∧
  pe_duration o = Some (ep_duration e) ∧
  pe_streamUrl o = Some (ep_streamUrl e) ∧
  mapM subtitleSchema (default [] (pe_subtitles o)) = Some (ep_subtitles e) ∧
  ep_published e = default false (pe_published o) ∧
  ep_views e = default 0 (pe_views o) ∧
  pe_lastUpdated o = Some (ep_lastUpdated e).
Proof.
  unfold episodeSchema, sanitizedString, streamUrlSchema. intros Hp.
  simplify_option_eq. repeat split; eauto.
Qed.


Lemma seasonSchema_fields o s :
  seasonSchema o = Some s →
  se_season s = si_season o ∧
  mapM episodeSchema (si_episodes o) = Some (se_episodes s).
Proof. unfold seasonSchema. intros Hp. by simplify_option_eq. Qed.

Lemma seriesSchema_fields o s :
  seriesSchema o = Some s →
  s_id s = so_id o ∧
  matches_slug (so_slug o) = true ∧
  s_slug s = sanitize (so_slug o) ∧
  mapM seasonSchema (so_seasons o) = Some (s_seasons s) ∧
  s_createdAt s = so_createdAt o ∧
  s_updatedAt s = so_updatedAt o.
Proof.
  unfold seriesSchema, sanitizedSlug. intros Hp. simplify_option_eq.
  repeat split; try done.
  match goal with
  | H : check (_ && _) = Some _ |- _ =>
      by apply check_Some, andb_prop in H as [_ ?]
  end.
Qed.

Lemma readSeriesFile_run slug w :
  readSeriesFile slug w =
    (w, match series_files w !! slug with
        | Some data =>
            match seriesSchema (series_object data) with
            | Some series => inr (Some series)
            | None => inl ValidationError
            end
        | None => inr None
        end).
Proof.
  unfold readSeriesFile. mrun.
  destruct (series_files w !! slug) as [data|] eqn:Hfile; mrun; [|done].
  rewrite ?Hfile. mrun. by destruct (seriesSchema _).
Qed.

(** Replacing the element that a search finds by another one that
    satisfies the predicate: the search finds the new element there. *)
Lemma list_find_insert_found {A : Type} (P : A → Prop) `{∀ x, Decision (P x)}
    (l : list A) i x y :
  list_find P l = Some (i, x) → P y →
  list_find P (<[i := y]> l) = Some (i, y).
Proof.
  intros (Hi & Hx & Hbefore)%list_find_Some Hy. apply list_find_Some.
  split; [|split; [done|]].
  - apply list_lookup_insert_eq. by eapply lookup_lt_Some.
  - intros j z Hj Hlt. rewrite list_lookup_insert_ne in Hj by lia.
    by eapply Hbefore.
Qed.
End series_files_facts.

(** ** Series: view counts *)
Section series_view_facts.
Context `{env : Env}.



End series_view_facts.

(** ** Series: [mergeSeasons] *)
Section merge_seasons_facts.
Context `{env : Env}.

Lemma forM_fold_inv {A S : Type} (f : S → A → M S) (R : World → World → Prop) :
  (∀ w, R w w) →
  (∀ w1 w2 w3, R w1 w2 → R w2 w3 → R w1 w3) →
  (∀ s x w, R w (f s x w).1) →
  ∀ l s w, R w (forM_fold f l s w).1.
Proof.
  intros Hrefl Htrans Hf l. induction l as [|x l IH]; intros s w; simpl.
  - apply Hrefl.
  - unfold bind. specialize (Hf s x w).
    destruct (f s x w) as [w1 [e|s1]]; simpl in *; [done|].
    eapply Htrans; [done|]. apply IH.
Qed.

Lemma forM_fold_errors {A S : Type} (f : S → A → M S) (err : Error) :
  (∀ s x w e, (f s x w).2 = inl e → e = err) →
  ∀ l s w e, (forM_fold f l s w).2 = inl e → e = err.
Proof.
  intros Hf l. induction l as [|x l IH]; intros s w e; simpl; [done|].
  unfold bind. specialize (Hf s x w).
  destruct (f s x w) as [w1 [e1|s1]]; simpl in *.
  - intros ?; simplify_eq. by apply Hf.
  - apply IH.
Qed.

Lemma forM_fold_fails {A S : Type} (f : S → A → M S) (err : Error) x0 :
  (∀ s x w e, (f s x w).2 = inl e → e = err) →
  (∀ s w, (f s x0 w).2 = inl err) →
  ∀ l s w, x0 ∈ l → (forM_fold f l s w).2 = inl err.
Proof.
  intros Hf Hx0 l. induction l as [|x l IH]; intros s w Hin.
  { by apply elem_of_nil in Hin. }
  simpl. unfold bind. pose proof (Hf s x w) as Hfx.
  destruct (f s x w) as [w1 [e1|s1]] eqn:Hrun; simpl in *.
  - by rewrite (Hfx e1).
  - apply elem_of_cons in Hin as [->|Hin]; [|by apply IH].
    specialize (Hx0 s w). by rewrite Hrun in Hx0.
Qed.

Lemma mergeIncomingEpisode_errors m x w e :
  (mergeIncomingEpisode m x w).2 = inl e → e = ValidationError.
Proof.
  unfold mergeIncomingEpisode. mrun.
  destruct (episodeSchema _) as [parsed|]; mrun; [|congruence].
  by destruct (map_get _ _).
Qed.

Lemma mergeIncomingSeason_errors m x w e :
  (mergeIncomingSeason m x w).2 = inl e → e = ValidationError.
Proof.
  unfold mergeIncomingSeason. mrun.
  destruct (seasonSchema _) as [parsed|]; mrun; [|congruence].
  destruct (map_get _ _) as [current|]; [|done].
  pose proof (forM_fold_errors mergeIncomingEpisode ValidationError
                mergeIncomingEpisode_errors (se_episodes parsed)
                (foldl (λ m0 episode, map_set (ep_episode episode) episode m0)
                   [] (se_episodes current)) w) as Herr.
  destruct (forM_fold _ _ _ _) as [w1 [e1|s1]]; simpl in *; [|done].
  intros ?; simplify_eq. by apply Herr.
Qed.

Lemma lacks_required_key_rejected o :
  lacks_required_key o → episodeSchema o = None.
Proof.
  unfold lacks_required_key. intros Hlack.
  destruct (episodeSchema o) as [e|] eqn:Hp; [|done].
  apply episodeSchema_fields in Hp
    as (? & (? & ? & _) & (? & ? & _) & ? & ? & ? & ? & _ & _ & _ & ?).
  repeat destruct Hlack as [Hlack|Hlack]; congruence.
Qed.

Lemma mergeSeasons_rejects w existingSeasons incomingSeasons season o :
  season ∈ incomingSeasons →
  o ∈ si_episodes season →
  episodeSchema o = None →
  (mergeSeasons existingSeasons incomingSeasons w).2 = inl ValidationError.
Proof.
  intros Hseason Ho Hreject.
  assert (seasonSchema season = None) as Hnone.
  { unfold seasonSchema. destruct (check _); [|done]. simpl.
    rewrite (proj2 (mapM_None _ _)); [done|].
    apply Exists_exists. eauto. }
  unfold mergeSeasons, bind.
  assert (∀ s0 w0, (mergeIncomingSeason s0 season w0).2 = inl ValidationError)
    as Hstep.
  { intros s0 w0. unfold mergeIncomingSeason. mrun. by rewrite Hnone. }
  pose proof (forM_fold_fails mergeIncomingSeason ValidationError season
                mergeIncomingSeason_errors Hstep incomingSeasons) as Hfail.
  match goal with |- context [forM_fold _ _ ?s ?w'] =>
    specialize (Hfail s w' Hseason) end.
  by destruct (forM_fold _ _ _ _) as [w1 [e1|s1]]; simplify_eq/=.
Qed.
End merge_seasons_facts.

Section merge_seasons_claims.
Context `{env : Env}.

Lemma map_get_set {V : Type} k (v : V) (m : JsMap V) :
  map_get k (map_set k v m) = Some v.
Proof.
  induction m as [|[k' v'] m IH]; simpl.
  - by rewrite decide_True.
  - destruct (decide (k' = k)) as [->|Hne]; simpl.
    + by rewrite decide_True.
    + by rewrite decide_False.
Qed.

Lemma mergeIncomingEpisode_existing w episodeMap incomingEpisode
    parsedEpisode existingEpisode :
  episodeSchema (episode_object incomingEpisode) = Some parsedEpisode →
  map_get (ep_episode parsedEpisode) episodeMap = Some existingEpisode →
  mergeIncomingEpisode episodeMap incomingEpisode w =
    (set_clock_reads (S (clock_reads w)) w,
     inr (map_set (ep_episode parsedEpisode)
            (set_ep_lastUpdated (clock (clock_reads w)) parsedEpisode)
            episodeMap)).
Proof.
  intros Hparsed Hget. unfold mergeIncomingEpisode. mrun.
  rewrite Hparsed. mrun. by rewrite Hget.
Qed.

Lemma clock_moved_refl w : clock_moved w w.
Proof. exists (clock_reads w). by destruct w. Qed.

Lemma clock_moved_trans w1 w2 w3 :
  clock_moved w1 w2 → clock_moved w2 w3 → clock_moved w1 w3.
Proof. intros [n ->] [m ->]. by exists m. Qed.

Lemma mergeIncomingEpisode_clock m x w :
  clock_moved w (mergeIncomingEpisode m x w).1.
Proof.
  unfold mergeIncomingEpisode. mrun.
  destruct (episodeSchema _) as [parsed|]; mrun; [|apply clock_moved_refl].
  destruct (map_get _ _); simpl; [by eexists|apply clock_moved_refl].
Qed.

Lemma mergeIncomingSeason_clock m x w :
  clock_moved w (mergeIncomingSeason m x w).1.
Proof.
  unfold mergeIncomingSeason. mrun.
  destruct (seasonSchema _) as [parsed|]; mrun; [|apply clock_moved_refl].
  destruct (map_get _ _) as [current|]; [|apply clock_moved_refl].
  pose proof (forM_fold_inv mergeIncomingEpisode clock_moved
                clock_moved_refl clock_moved_trans mergeIncomingEpisode_clock
                (se_episodes parsed)
                (foldl (λ m0 episode, map_set (ep_episode episode) episode m0)
                   [] (se_episodes current)) w) as Hclock.
  by destruct (forM_fold _ _ _ _) as [w1 [e1|s1]].
Qed.

Lemma mergeSeasons_clock existingSeasons incomingSeasons w :
  clock_moved w (mergeSeasons existingSeasons incomingSeasons w).1.
Proof.
  unfold mergeSeasons, bind.
  pose proof (forM_fold_inv mergeIncomingSeason clock_moved
                clock_moved_refl clock_moved_trans mergeIncomingSeason_clock
                incomingSeasons
                (foldl (λ m season, map_set (se_season season) season m)
                   [] existingSeasons) w) as Hclock.
  by destruct (forM_fold _ _ _ _) as [w1 [e1|s1]].
Qed.
End merge_seasons_claims.

(** ** Series: [createOrMergeSeries] *)
Section create_or_merge_facts.
Context `{env : Env}.

(** C7. When the file of the normalised slug holds a series, the
    document returned by [createOrMergeSeries] has the id and the
    createdAt of that series, its slug is the slug recomputed from the
    payload ([slugify] of the slug, or of the name when the slug is
    empty), and it is saved in the file of that slug. The sanitiser is
    taken not to change a string of the slug alphabet. *)
Theorem createOrMergeSeries_keeps_identity (w w' : World)
    (payload : SeriesPayload) (stored existing series : Series) :
  (∀ s, matches_slug s = true → sanitize s = s) →
  series_files w !! slugify (or_else (sp_slug payload) (sp_name payload)) =
    Some stored →
  seriesSchema (series_object stored) = Some existing →
  createOrMergeSeries payload w = (w', inr series) →
  s_id series = s_id stored ∧
  s_createdAt series = s_createdAt stored ∧
  s_id series = s_id existing ∧
  s_createdAt series = s_createdAt existing ∧
  s_slug series = slugify (or_else (sp_slug payload) (sp_name payload)) ∧
  series_files w' = <[s_slug series := series]> (series_files w).
Proof.
  intros Hsan Hfile Hparse.
  pose proof (seriesSchema_fields _ _ Hparse) as (Hid' & _ & _ & _ & Hc' & _).
  unfold createOrMergeSeries, bind at 1. unfold dayjs_now at 1.
  unfold bind at 1. rewrite readSeriesFile_run. simpl. rewrite Hfile, Hparse.
  unfold bind at 1. unfold bind at 1.
  pose proof (mergeSeasons_clock (s_seasons existing) (sp_seasons payload)
                (set_clock_reads (S (clock_reads w)) w)) as [n Hclock].
  destruct (mergeSeasons _ _ _) as [w1 [e|merged]]; [done|].
  simpl in Hclock. subst w1. unfold parse.
  match goal with
  | |- context [seriesSchema ?o] =>
      destruct (seriesSchema o) as [parsed|] eqn:Hseries; [|done]
  end.
  unfold ret at 1. unfold bind, saveSeries, withFileLock, writeJsonFile, ret.
  intros Hrun. simplify_eq/=.
  apply seriesSchema_fields in Hseries as (Hid & Hslug & Hs & _ & Hc & _).
  simpl in *. rewrite Hs, (Hsan _ Hslug). by rewrite Hid, Hc, Hid', Hc'.
Qed.
End create_or_merge_facts.

(** ** Series: [mergeEpisode] *)
Section search_facts.
Context {A : Type} (P : A → Prop) `{∀ x, Decision (P x)}.


Lemma find_first_snoc l x :
  list_find P l = None → P x → find_first P (l ++ [x]) = Some x.
Proof.
  intros Hnone Hx. unfold find_first.
  rewrite list_find_app_r by done. simpl. by rewrite decide_True.
Qed.

Lemma find_first_insert l i x y :
  list_find P l = Some (i, x) → P y → find_first P (<[i := y]> l) = Some y.
Proof.
  intros Hfind Hy. unfold find_first.
  by rewrite (list_find_insert_found P l i x y).
Qed.
End search_facts.

Section resort_facts.
Context {A : Type} (key : A → Z).


End resort_facts.

Section merge_episode_facts.
Context `{env : Env}.
Context (sanitize_idem : ∀ s, sanitize (sanitize s) = sanitize s).

Lemma subtitleSchema_stable o s1 s2 :
  subtitleSchema o = Some s1 → subtitleSchema s1 = Some s2 → s2 = s1.
Proof.
  unfold subtitleSchema, sanitizedString. intros H1 H2.
  simplify_option_eq. by rewrite !sanitize_idem.
Qed.

Lemma mapM_subtitleSchema_stable l l1 l2 :
  mapM subtitleSchema l = Some l1 → mapM subtitleSchema l1 = Some l2 → l2 = l1.
Proof.
  rewrite !mapM_Some. intros H1. revert l2.
  induction H1 as [|o s1 l l1 Ho _ IH]; intros l2 H2.
  - by apply Forall2_nil_inv_l in H2.
  - apply Forall2_cons_inv_l in H2 as (s2 & l2' & Hs & Hl & ->).
    by rewrite (subtitleSchema_stable _ _ _ Ho Hs), (IH _ Hl).
Qed.

(** Under an idempotent sanitiser, validating a validated episode
    again returns it. *)
Lemma episodeSchema_stable o e e' :
  episodeSchema o = Some e → episodeSchema (episode_object e) = Some e' →
  e' = e.
Proof.
  intros H1 H2.
  apply episodeSchema_fields in H1
    as (_ & (t & _ & Ht) & (d & _ & Hd) & _ & _ & _ & _ & Hsub & _ & _ & _).
  apply episodeSchema_fields in H2
    as (Hid & (t' & Ht' & Ht'') & (d' & Hd' & Hd'') & Hs & He & Hdu & Hu
        & Hsub' & Hp & Hv & Hl).
  simpl in *. simplify_eq.
  pose proof (mapM_subtitleSchema_stable _ _ _ Hsub Hsub') as Hsubs.
  rewrite Ht, sanitize_idem in Ht''. rewrite Hd, sanitize_idem in Hd''.
  destruct e, e'; simpl in *. congruence.
Qed.
End merge_episode_facts.

Section merge_episode_run.
Context `{env : Env}.
Context (episodePayload : EpisodePayload).


Lemma newEpisode_run now w :
  newEpisode episodePayload now w =
    (set_uuid_draws (S (uuid_draws w)) w,
     match episodeSchema
             (with_views 0 (with_lastUpdated now
                (with_id (uuid (uuid_draws w)) (payload_object episodePayload)))) with
     | Some episode => inr episode
     | None => inl ValidationError
     end).
Proof. unfold newEpisode. mrun. by destruct (episodeSchema _). Qed.


End merge_episode_run.

Section merge_episode_twice.
Context `{env : Env}.
Context (sanitize_idem : ∀ s, sanitize (sanitize s) = sanitize s).
Context (episodePayload : EpisodePayload).

Local Abbreviation target_season := (λ s, se_season s = py_season episodePayload).
Local Abbreviation target_episode := (λ ep, ep_episode ep = py_episode episodePayload).
Local Abbreviation reparses ep1 :=
  (∀ t, episodeSchema
          (with_lastUpdated t
             (spread_episode (episode_object ep1)
                (payload_object episodePayload))) =
        Some (set_ep_lastUpdated t ep1)).

End merge_episode_twice.

Section merge_episode_again.
Context `{env : Env}.
Context (sanitize_idem : ∀ s, sanitize (sanitize s) = sanitize s).
Context (episodePayload : EpisodePayload).

Local Abbreviation target_season := (λ s, se_season s = py_season episodePayload).
Local Abbreviation target_episode := (λ ep, ep_episode ep = py_episode episodePayload).
Local Abbreviation reparses ep1 :=
  (∀ t, episodeSchema
          (with_lastUpdated t
             (spread_episode (episode_object ep1)
                (payload_object episodePayload))) =
        Some (set_ep_lastUpdated t ep1)).


End merge_episode_again.

Section ordering_facts.
Lemma sort_by_strict {A : Type} (key : A → Z) l :
  NoDup (key <$> l) → strictly_ascending (key <$> sort_by key l).
Proof.
  intros Hnd. apply sorted_nodup_strict; [apply sort_by_keys_sorted|].
  by rewrite sort_by_perm.
Qed.





Lemma well_ordered_numbers seasons seasons' :
  season_numbers seasons' = season_numbers seasons →
  episode_numbers <$> seasons' = episode_numbers <$> seasons →
  well_ordered seasons → well_ordered seasons'.
Proof.
  unfold well_ordered. intros -> Heps [Hs He]. split; [done|].
  apply (Forall_fmap episode_numbers strictly_ascending). rewrite Heps.
  by apply Forall_fmap.
Qed.
End ordering_facts.

Section merge_episode_order.
Context `{env : Env}.
Context (sanitize_idem : ∀ s, sanitize (sanitize s) = sanitize s).


End merge_episode_order.

(** ** Series: reading back what [mergeEpisode] saved *)
Section read_back_facts.
Context `{env : Env}.


End read_back_facts.

Section read_back_episode.
Context `{env : Env}.
Context (sanitize_idem : ∀ s, sanitize (sanitize s) = sanitize s).



End read_back_episode.

Section read_back_series.
Context `{env : Env}.


End read_back_series.

Section merge_episode_read_back.
Context `{env : Env}.
Context (sanitize_idem : ∀ s, sanitize (sanitize s) = sanitize s).


End merge_episode_read_back.

(** ** Series: the seasons that [mergeSeasons] returns *)
Section map_facts.
Context {V : Type} (key : V → Z).

Lemma map_set_keys k (v : V) m x :
  x ∈ (map_set k v m).*1 → x = k ∨ x ∈ m.*1.
Proof.
  induction m as [|[k' v'] m IH]; simpl.
  - intros ->%list_elem_of_singleton. by left.
  - case_decide; simpl; rewrite !elem_of_cons.
    + intros [->|Hin]; [by left|by right; right].
    + intros [->|Hin]; [by right; left|].
      destruct (IH Hin) as [->|Hin']; [by left|by right; right].
Qed.

Lemma map_set_keyed k v m :
  keyed_by key m → key v = k → keyed_by key (map_set k v m).
Proof.
  intros [Hnd Hkeys] Hk. induction m as [|[k' v'] m IH]; simpl.
  - split; [apply NoDup_singleton|]. by repeat constructor.
  - simpl in Hnd. apply NoDup_cons in Hnd as [Hk' Hnd].
    apply Forall_cons in Hkeys as [Hv' Hkeys].
    destruct (IH Hnd Hkeys) as [IHnd IHkeys].
    case_decide; simpl.
    + subst k'. split; [by apply NoDup_cons|]. by constructor.
    + split; [|by constructor].
      simpl. apply NoDup_cons. split; [|done].
      intros [->|Hin]%map_set_keys; done.
Qed.

Lemma keyed_values m : keyed_by key m → key <$> map_values m = m.*1.
Proof.
  intros [_ Hkeys]. unfold map_values.
  induction Hkeys as [|[k' v'] m Hv' _ IH]; [done|].
  rewrite !fmap_cons. simpl in *. by rewrite Hv', IH.
Qed.

Lemma seed_keyed (l : list V) m :
  keyed_by key m →
  keyed_by key (foldl (λ m0 v, map_set (key v) v m0) m l).
Proof.
  revert m. induction l as [|v l IH]; intros m Hm; simpl; [done|].
  by apply IH, map_set_keyed.
Qed.
End map_facts.

Section merge_seasons_order.
Context `{env : Env}.

Lemma forM_fold_state_inv {A S : Type} (f : S → A → M S) (I : S → Prop) :
  (∀ s x w w' s', f s x w = (w', inr s') → I s → I s') →
  ∀ l s w w' s', forM_fold f l s w = (w', inr s') → I s → I s'.
Proof.
  intros Hf l. induction l as [|x l IH]; intros s w w' s'; simpl.
  - unfold ret. by intros [= _ <-].
  - unfold bind. destruct (f s x w) as [w1 [e|s1]] eqn:Hstep; [done|].
    intros Hrest Hs. eapply IH; [done|]. by eapply Hf.
Qed.

Lemma mergeIncomingSeason_keyed m x w w' m' :
  mergeIncomingSeason m x w = (w', inr m') →
  keyed_by se_season m → keyed_by se_season m'.
Proof.
  unfold mergeIncomingSeason. mrun.
  destruct (seasonSchema x) as [parsed|]; mrun; [|done].
  destruct (map_get (se_season parsed) m) as [current|] eqn:Hget.
  - destruct (forM_fold _ _ _ _) as [w1 [e|episodeMap]]; [done|].
    intros [= _ <-] Hm. by apply map_set_keyed.
  - intros [= _ <-] Hm. by apply map_set_keyed.
Qed.

Lemma mergeIncomingEpisode_keyed m x w w' m' :
  mergeIncomingEpisode m x w = (w', inr m') →
  keyed_by ep_episode m → keyed_by ep_episode m'.
Proof.
  unfold mergeIncomingEpisode. mrun.
  destruct (episodeSchema _) as [parsed|]; mrun; [|done].
  destruct (map_get (ep_episode parsed) m) as [existing|].
  - intros [= _ <-] Hm. by apply map_set_keyed.
  - intros [= _ <-] Hm. by apply map_set_keyed.
Qed.

(** A season that is already present is reconciled through a [Map] by
    episode number: its episodes come out strictly ascending, hence
    without a repeated number. *)
Lemma mergeIncomingSeason_present m x w w' m' parsed current :
  mergeIncomingSeason m x w = (w', inr m') →
  seasonSchema x = Some parsed →
  map_get (se_season parsed) m = Some current →
  ∃ merged, map_get (se_season current) m' = Some merged ∧
            se_season merged = se_season current ∧
            strictly_ascending (episode_numbers merged).
Proof.
  unfold mergeIncomingSeason. mrun. intros Hrun Hparsed Hget.
  rewrite Hparsed in Hrun. mrun_in Hrun. rewrite Hget in Hrun.
  destruct (forM_fold _ _ _ _) as [w1 [e|episodeMap]] eqn:Hfold; [done|].
  injection Hrun as _ <-. eexists. split; [apply map_get_set|].
  split; [done|]. unfold episode_numbers. simpl.
  assert (keyed_by ep_episode episodeMap) as Hkeyed.
  { eapply (forM_fold_state_inv mergeIncomingEpisode (keyed_by ep_episode));
      [apply mergeIncomingEpisode_keyed|done|].
    apply (seed_keyed ep_episode). split; constructor. }
  apply sort_by_strict. rewrite (keyed_values ep_episode) by done.
  by destruct Hkeyed.
Qed.

(** Whatever comes in, the seasons that [mergeSeasons] returns have
    strictly ascending, hence unique, numbers. *)
Lemma mergeSeasons_season_numbers existingSeasons incomingSeasons w w' seasons :
  mergeSeasons existingSeasons incomingSeasons w = (w', inr seasons) →
  strictly_ascending (season_numbers seasons).
Proof.
  unfold mergeSeasons, bind.
  destruct (forM_fold _ _ _ _) as [w1 [e|seasonMap]] eqn:Hfold; [done|].
  unfold ret. intros [= _ <-].
  assert (keyed_by se_season seasonMap) as Hkeyed.
  { eapply (forM_fold_state_inv mergeIncomingSeason (keyed_by se_season));
      [apply mergeIncomingSeason_keyed|done|].
    apply (seed_keyed se_season). split; [constructor|constructor]. }
  apply sort_by_strict. rewrite (keyed_values se_season) by done.
  by destruct Hkeyed.
Qed.
End merge_seasons_order.

(** ** Movies: which operations keep the slugs distinct *)
Section movie_uniqueness.
Context `{env : Env}.

Lemma createMovie_slugs_distinct w w' payload movies movie :
  mapM movieSchema (movie_object <$> default [] (movies_file w)) = Some movies →
  NoDup (m_slug <$> movies) →
  createMovie payload w = (w', inr movie) →
  ∃ saved, movies_file w' = Some saved ∧ saved ≡ₚ movies ++ [movie] ∧
           NoDup (m_slug <$> saved).
Proof.
  intros Hstored Hnd. unfold createMovie. mrun.
  destruct (movieSchema _) as [parsed|]; mrun; [|done].
  assert (∃ w1, listMovies
            (set_uuid_draws (S (uuid_draws w))
               (set_clock_reads (S (clock_reads w)) w)) = (w1, inr movies))
    as [w1 Hlist].
  { destruct (movies_file w) as [stored|] eqn:Hfile; simpl in Hstored.
    - rewrite (listMovies_existing _ stored) by done.
      eexists. by rewrite Hstored.
    - rewrite listMovies_absent by done. cbv in Hstored.
      injection Hstored as <-. by eexists. }
  rewrite Hlist. case_bool_decide as Hexists; [done|].
  rewrite saveMovies_run. mrun. intros [= <- <-]. simpl.
  eexists. split; [done|]. split; [apply js_sort_perm|].
  rewrite js_sort_perm, fmap_app. apply NoDup_app. split; [done|].
  split; [|apply NoDup_singleton].
  intros slug Hin ->%list_elem_of_singleton. apply Hexists.
  apply list_elem_of_fmap in Hin as (existing & Hslug & Hin).
  apply Exists_exists. eauto.
Qed.

Lemma deleteMovie_slugs_distinct w id movies :
  mapM movieSchema (movie_object <$> default [] (movies_file w)) = Some movies →
  NoDup (m_slug <$> movies) →
  ∃ w', deleteMovie id w = (w', inr ()) ∧
        movies_file w' = Some (filter (λ movie, m_id movie ≠ id) movies) ∧
        NoDup (m_slug <$> filter (λ movie, m_id movie ≠ id) movies).
Proof.
  intros Hstored Hnd. unfold deleteMovie, bind.
  assert (∃ w1, listMovies w = (w1, inr movies)) as [w1 Hlist].
  { destruct (movies_file w) as [stored|] eqn:Hfile; simpl in Hstored.
    - rewrite (listMovies_existing _ stored), Hstored by done. by eexists.
    - rewrite listMovies_absent by done. cbv in Hstored.
      injection Hstored as <-. by eexists. }
  rewrite Hlist, saveMovies_run. eexists. split; [done|]. split; [done|].
  eapply sublist_NoDup; [done|]. apply fmap_sublist, sublist_filter.
Qed.
End movie_uniqueness.

(** ** Series: what parsing keeps of the stored seasons *)
Section parsed_lookup.
Context `{env : Env}.


End parsed_lookup.

(** ** Conflicts and view counters *)
Section service_claims.
Context `{env : Env}.

(** C5. [createMovie] with a payload that validates and whose slug is
    the slug of a stored movie throws the conflict error and leaves the
    movies file as it was; [createUser] with a payload that validates
    and whose username is that of the stored admin or of a stored user
    throws the conflict error and leaves the admin file and the users
    file as they were. The stored documents are taken to pass their
    schemas, as every read requires. *)
Theorem duplicate_slug_or_username_conflicts :
  (∀ (w : World) (payload : PartialMovie) (stored : list Movie)
     (existing : Movie),
     movies_file w = Some stored →
     movies_valid stored →
     is_Some (movieSchema (newMovieObject payload (uuid (uuid_draws w))
                             (clock (clock_reads w)))) →
     existing ∈ stored →
     pm_slug payload = Some (m_slug existing) →
     ∃ w', createMovie payload w = (w', inl Conflict) ∧
           movies_file w' = movies_file w ∧
           series_files w' = series_files w ∧
           admin_file w' = admin_file w ∧
           users_file w' = users_file w ∧
           history_files w' = history_files w) ∧
  (∀ (w : World) (payload : CreateUserPayload) (existing : UserRecord),
     is_Some (createUserSchema payload) →
     admin_valid (admin_file w) →
     (admin_file w = Some (Some existing) ∨
      ∃ stored, users_file w = Some stored ∧ users_valid stored ∧
                existing ∈ stored) →
     u_username existing = cu_username payload →
     ∃ w', createUser payload w = (w', inl Conflict) ∧
           admin_file w' = admin_file w ∧
           users_file w' = users_file w).
Proof.
  split.
  - intros w payload stored existing Hfile [movies Hmovies] [movie Hmovie]
      Hin Hslug.
    eexists. split; [by eapply createMovie_conflict|]. done.
  - intros w payload existing Hpayload Hadmin Hwhere Hname.
    exists w. split; [|done].
    destruct Hwhere as [Hfile|(stored & Hfile & Hvalid & Hin)].
    + eapply createUser_conflict_admin; [done..| |done].
      unfold admin_valid in Hadmin. by rewrite Hfile in Hadmin.
    + by eapply createUser_conflict_user.
Qed.


End service_claims.

(** * Further properties of the services *)

(** ** [Map]: keys and lookups *)
Section map_lookup_facts.
Context {V : Type} (key : V → Z).

Lemma map_set_keys_iff k (v : V) m x :
  x ∈ (map_set k v m).*1 ↔ x = k ∨ x ∈ m.*1.
Proof.
  split; [apply map_set_keys|].
  induction m as [|[k' v'] m IH]; simpl.
  - intros [->|Hin]; [apply list_elem_of_singleton; done|by apply elem_of_nil in Hin].
  - rewrite elem_of_cons. case_decide; simpl; rewrite !elem_of_cons.
    + subst k'. intros [->|[->|Hin]]; auto.
    + intros [->|[->|Hin]]; auto.
Qed.

Lemma map_get_set_ne k k' (v : V) m :
  k ≠ k' → map_get k' (map_set k v m) = map_get k' m.
Proof.
  intros Hne. induction m as [|[k0 v0] m IH]; simpl.
  - by rewrite decide_False.
  - destruct (decide (k0 = k)) as [->|Hk0]; simpl.
    + by rewrite !decide_False.
    + by rewrite IH.
Qed.

Lemma map_get_Some k (v : V) m : map_get k m = Some v → (k, v) ∈ m.
Proof.
  induction m as [|[k0 v0] m IH]; simpl; [done|].
  case_decide.
  - intros [= <-]. subst k0. apply elem_of_cons. by left.
  - intros Hget. apply elem_of_cons. right. by apply IH.
Qed.

Lemma map_set_Forall (P : Z * V → Prop) k v m :
  Forall P m → P (k, v) → Forall P (map_set k v m).
Proof.
  intros Hm Hv. induction Hm as [|[k0 v0] m H0 Hm IH]; simpl.
  - by constructor.
  - case_decide; by constructor.
Qed.

(** The map seeded from an array, one [set] per element. *)
Lemma seed_keys (l : list V) m x :
  x ∈ (foldl (λ m0 v, map_set (key v) v m0) m l).*1 ↔ x ∈ m.*1 ∨ x ∈ key <$> l.
Proof.
  revert m. induction l as [|v l IH]; intros m; simpl.
  - rewrite elem_of_nil. tauto.
  - rewrite IH, map_set_keys_iff, elem_of_cons. tauto.
Qed.

Lemma seed_get_other (l : list V) m k :
  k ∉ key <$> l →
  map_get k (foldl (λ m0 v, map_set (key v) v m0) m l) = map_get k m.
Proof.
  revert m. induction l as [|v l IH]; intros m; simpl; [done|].
  rewrite not_elem_of_cons. intros [Hne Hnotin].
  rewrite IH by done. by apply map_get_set_ne.
Qed.

Lemma seed_get (l : list V) m v :
  NoDup (key <$> l) → v ∈ l →
  map_get (key v) (foldl (λ m0 v, map_set (key v) v m0) m l) = Some v.
Proof.
  revert m. induction l as [|v0 l IH]; intros m Hnd Hin; simpl.
  - by apply elem_of_nil in Hin.
  - rewrite fmap_cons in Hnd. apply NoDup_cons in Hnd as [Hv0 Hnd].
    apply elem_of_cons in Hin as [->|Hin].
    + rewrite seed_get_other by done. apply map_get_set.
    + by apply IH.
Qed.

Lemma seed_Forall (P : Z * V → Prop) (l : list V) m :
  Forall P m → Forall (λ v, P (key v, v)) l →
  Forall P (foldl (λ m0 v, map_set (key v) v m0) m l).
Proof.
  revert m. induction l as [|v l IH]; intros m Hm Hl; simpl; [done|].
  apply Forall_cons in Hl as [Hv Hl]. apply IH; [|done].
  by apply map_set_Forall.
Qed.

Lemma keyed_get k (v : V) m :
  keyed_by key m → map_get k m = Some v → v ∈ map_values m ∧ key v = k.
Proof.
  intros [_ Hkeys] Hget%map_get_Some. split.
  - unfold map_values. apply list_elem_of_fmap. by exists (k, v).
  - rewrite Forall_forall in Hkeys. by apply (Hkeys (k, v)).
Qed.
End map_lookup_facts.

(** ** Series: what [mergeSeasons] keeps and adds *)
Section merge_seasons_contents.
Context `{env : Env}.

Lemma forM_fold_inv_in {A S : Type} (f : S → A → M S) (I : S → Prop) l :
  (∀ s x w w' s', x ∈ l → f s x w = (w', inr s') → I s → I s') →
  ∀ s w w' s', forM_fold f l s w = (w', inr s') → I s → I s'.
Proof.
  induction l as [|x l IH]; intros Hf s w w' s'; simpl.
  - unfold ret. by intros [= _ <-].
  - unfold bind. destruct (f s x w) as [w1 [e|s1]] eqn:Hstep; [done|].
    intros Hrest Hs. eapply IH; [|done|].
    + intros s0 y w0 w0' s0' Hy. apply Hf. by apply elem_of_cons; right.
    + eapply Hf; [|done|done]. by apply elem_of_cons; left.
Qed.

Lemma forM_fold_reaches {A S : Type} (f : S → A → M S) (I Q : S → Prop) l x :
  x ∈ l →
  (∀ s y w w' s', f s y w = (w', inr s') → I s → I s') →
  (∀ s w w' s', f s x w = (w', inr s') → I s → Q s') →
  (∀ s y w w' s', f s y w = (w', inr s') → I s → Q s → Q s') →
  ∀ s w w' s', forM_fold f l s w = (w', inr s') → I s → Q s'.
Proof.
  intros Hx HI Hhit Hkeep. induction l as [|y l IH]; intros s w w' s'; simpl.
  - by apply elem_of_nil in Hx.
  - unfold bind. destruct (f s y w) as [w1 [e|s1]] eqn:Hstep; [done|].
    intros Hrest Hs. apply elem_of_cons in Hx as [<-|Hx].
    + assert (I s1 ∧ Q s1) as Hs1 by (split; [by eapply HI|by eapply Hhit]).
      revert Hs1.
      apply (forM_fold_state_inv f (λ s, I s ∧ Q s)) with (l := l) (w := w1) (w' := w');
        [|done].
      intros s0 y w0 w0' s0' Hs0 [HI0 HQ0]. split; [by eapply HI|by eapply Hkeep].
    + eapply IH; [done|done|]. by eapply HI.
Qed.

Lemma seasonSchema_numbers incoming parsed :
  seasonSchema incoming = Some parsed →
  se_season parsed = si_season incoming ∧
  episode_numbers parsed = incoming_episode_numbers incoming.
Proof.
  intros [Hn Heps]%seasonSchema_fields. split; [done|].
  unfold episode_numbers, incoming_episode_numbers.
  apply mapM_Some in Heps.
  induction Heps as [|o e os es Hoe _ IH]; [done|].
  apply episodeSchema_fields in Hoe as (_&_&_&_&He&_).
  rewrite fmap_cons, IH.
  change (omap pe_episode (o :: os)) with
    (match pe_episode o with
     | Some y => y :: omap pe_episode os
     | None => omap pe_episode os
     end).
  by rewrite He.
Qed.

Lemma mergeIncomingEpisode_keys m x w w' m' k :
  mergeIncomingEpisode m x w = (w', inr m') →
  k ∈ m'.*1 ↔ k = ep_episode x ∨ k ∈ m.*1.
Proof.
  unfold mergeIncomingEpisode. mrun.
  destruct (episodeSchema _) as [parsed|] eqn:Hparsed; mrun; [|done].
  apply episodeSchema_fields in Hparsed as (_&_&_&_&He&_).
  simpl in He. injection He as He.
  destruct (map_get (ep_episode parsed) m) as [existing|];
    intros [= _ <-]; by rewrite map_set_keys_iff, He.
Qed.

Lemma mergeIncomingEpisodes_keys l m w w' m' k :
  forM_fold mergeIncomingEpisode l m w = (w', inr m') →
  k ∈ m'.*1 ↔ k ∈ m.*1 ∨ k ∈ ep_episode <$> l.
Proof.
  revert m w. induction l as [|x l IH]; intros m w; simpl.
  - unfold ret. intros [= _ <-]. rewrite elem_of_nil. tauto.
  - unfold bind.
    destruct (mergeIncomingEpisode m x w) as [w1 [e|m1]] eqn:Hstep; [done|].
    intros Hrest. rewrite (IH _ _ Hrest), (mergeIncomingEpisode_keys _ _ _ _ _ _ Hstep).
    rewrite elem_of_cons. tauto.
Qed.

(** One turn of the outer loop: the incoming season is validated, and
    the map gets, under its number, either the validated season itself
    (no such season yet) or the season that was there with the episodes
    of both, by ascending number. *)
Lemma mergeIncomingSeason_step m x w w' m' :
  keyed_by se_season m →
  mergeIncomingSeason m x w = (w', inr m') →
  ∃ parsed merged,
    seasonSchema x = Some parsed ∧
    m' = map_set (si_season x) merged m ∧
    se_season merged = si_season x ∧
    match map_get (si_season x) m with
    | None => merged = parsed
    | Some current =>
        strictly_ascending (episode_numbers merged) ∧
        ∀ e, e ∈ episode_numbers merged ↔
             e ∈ episode_numbers current ∨ e ∈ episode_numbers parsed
    end.
Proof.
  intros Hkeyed. unfold mergeIncomingSeason. mrun.
  destruct (seasonSchema x) as [parsed|] eqn:Hparsed; mrun; [|done].
  destruct (seasonSchema_fields _ _ Hparsed) as [Hn _]. rewrite Hn.
  destruct (map_get (si_season x) m) as [current|] eqn:Hget.
  - destruct (forM_fold _ _ _ _) as [w1 [e|episodeMap]] eqn:Hfold; [done|].
    intros [= _ <-].
    destruct (keyed_get se_season _ _ _ Hkeyed Hget) as [_ Hcurrent].
    exists parsed. eexists. split; [done|]. rewrite Hcurrent.
    split; [done|]. split; [done|].
    assert (keyed_by ep_episode episodeMap) as Hkeyed'.
    { eapply (forM_fold_state_inv mergeIncomingEpisode (keyed_by ep_episode));
        [apply mergeIncomingEpisode_keyed|done|].
      apply (seed_keyed ep_episode). split; constructor. }
    unfold episode_numbers. simpl. split.
    + apply sort_by_strict. rewrite (keyed_values ep_episode) by done.
      by destruct Hkeyed'.
    + intros e. rewrite sort_by_perm, (keyed_values ep_episode) by done.
      rewrite (mergeIncomingEpisodes_keys _ _ _ _ _ _ Hfold).
      rewrite (seed_keys ep_episode). simpl. rewrite elem_of_nil. tauto.
  - intros [= _ <-]. by exists parsed, parsed.
Qed.

Lemma mergeIncomingSeasons_keyed l m w w' m' :
  forM_fold mergeIncomingSeason l m w = (w', inr m') →
  keyed_by se_season m → keyed_by se_season m'.
Proof.
  apply (forM_fold_state_inv mergeIncomingSeason (keyed_by se_season)).
  apply mergeIncomingSeason_keyed.
Qed.

Lemma mergeIncomingSeasons_keys l m w w' m' n :
  keyed_by se_season m →
  forM_fold mergeIncomingSeason l m w = (w', inr m') →
  n ∈ m'.*1 ↔ n ∈ m.*1 ∨ n ∈ si_season <$> l.
Proof.
  revert m w. induction l as [|x l IH]; intros m w Hkeyed; simpl.
  - unfold ret. intros [= _ <-]. rewrite elem_of_nil. tauto.
  - unfold bind.
    destruct (mergeIncomingSeason m x w) as [w1 [e|m1]] eqn:Hstep; [done|].
    intros Hrest.
    destruct (mergeIncomingSeason_step _ _ _ _ _ Hkeyed Hstep)
      as (parsed & merged & _ & -> & _).
    rewrite (IH _ _ (mergeIncomingSeason_keyed _ _ _ _ _ Hstep Hkeyed) Hrest).
    rewrite map_set_keys_iff, elem_of_cons. tauto.
Qed.

Lemma mergeIncomingSeason_holds m x w w' m' n e :
  mergeIncomingSeason m x w = (w', inr m') →
  keyed_by se_season m → holds n e m → holds n e m'.
Proof.
  intros Hstep Hkeyed (season & Hget & He).
  destruct (mergeIncomingSeason_step _ _ _ _ _ Hkeyed Hstep)
    as (parsed & merged & _ & -> & _ & Hmerged).
  destruct (decide (si_season x = n)) as [<-|Hne].
  - exists merged. split; [apply map_get_set|].
    rewrite Hget in Hmerged. destruct Hmerged as [_ Hiff]. apply Hiff. by left.
  - exists season. by rewrite map_get_set_ne.
Qed.

Lemma mergeIncomingSeason_adds m x w w' m' parsed e :
  mergeIncomingSeason m x w = (w', inr m') →
  keyed_by se_season m →
  seasonSchema x = Some parsed → e ∈ episode_numbers parsed →
  holds (si_season x) e m'.
Proof.
  intros Hstep Hkeyed Hparsed He.
  destruct (mergeIncomingSeason_step _ _ _ _ _ Hkeyed Hstep)
    as (parsed' & merged & Hparsed' & -> & _ & Hmerged).
  rewrite Hparsed in Hparsed'. injection Hparsed' as <-.
  exists merged. split; [apply map_get_set|].
  destruct (map_get (si_season x) m) as [current|].
  - destruct Hmerged as [_ Hiff]. apply Hiff. by right.
  - by subst merged.
Qed.

Lemma holds_result n e m :
  keyed_by se_season m → holds n e m →
  ∃ merged, merged ∈ sort_by se_season (map_values m) ∧
            se_season merged = n ∧ e ∈ episode_numbers merged.
Proof.
  intros Hkeyed (season & Hget & He).
  destruct (keyed_get se_season _ _ _ Hkeyed Hget) as [Hin Hn].
  exists season. by rewrite sort_by_perm.
Qed.

Lemma seed_seasons_keyed (existingSeasons : list Season) :
  keyed_by se_season
    (foldl (λ m season, map_set (se_season season) season m) [] existingSeasons).
Proof. apply (seed_keyed se_season). split; constructor. Qed.
End merge_seasons_contents.

Section merge_seasons_results.
Context `{env : Env}.

Lemma mergeSeasons_inv existingSeasons incomingSeasons w w' seasons :
  mergeSeasons existingSeasons incomingSeasons w = (w', inr seasons) →
  ∃ seasonMap,
    forM_fold mergeIncomingSeason incomingSeasons
      (foldl (λ m season, map_set (se_season season) season m) [] existingSeasons)
      w = (w', inr seasonMap) ∧
    keyed_by se_season seasonMap ∧
    seasons = sort_by se_season (map_values seasonMap).
Proof.
  unfold mergeSeasons, bind.
  destruct (forM_fold _ _ _ _) as [w1 [e|seasonMap]] eqn:Hfold; [done|].
  unfold ret. intros [= <- <-]. exists seasonMap. split; [done|]. split; [|done].
  eapply mergeIncomingSeasons_keyed; [done|]. apply seed_seasons_keyed.
Qed.

(** X1. The seasons that [mergeSeasons] returns carry exactly the season
    numbers of the stored seasons and of the incoming ones, each number
    once and in ascending order, whatever the order and the repetitions
    of the two arguments. *)
Theorem mergeSeasons_numbers (existingSeasons : list Season)
    (incomingSeasons : list SeasonInput) (w w' : World) (seasons : list Season) :
  mergeSeasons existingSeasons incomingSeasons w = (w', inr seasons) →
  strictly_ascending (season_numbers seasons) ∧
  ∀ n, n ∈ season_numbers seasons ↔
       n ∈ season_numbers existingSeasons ∨ n ∈ si_season <$> incomingSeasons.
Proof.
  intros Hrun. split; [by eapply mergeSeasons_season_numbers|].
  apply mergeSeasons_inv in Hrun as (seasonMap & Hfold & Hkeyed & ->).
  intros n. unfold season_numbers.
  rewrite sort_by_perm, (keyed_values se_season) by done.
  rewrite (mergeIncomingSeasons_keys _ _ _ _ _ _ (seed_seasons_keyed _) Hfold).
  rewrite (seed_keys se_season). simpl. rewrite elem_of_nil. tauto.
Qed.

(** X2. [mergeSeasons] never drops an episode: every episode number of a
    stored season (the stored seasons having distinct numbers) and every
    episode number of an incoming season is found, in the result, in the
    season of the same number. *)
Theorem mergeSeasons_keeps_episodes (existingSeasons : list Season)
    (incomingSeasons : list SeasonInput) (w w' : World) (seasons : list Season) :
  mergeSeasons existingSeasons incomingSeasons w = (w', inr seasons) →
  (NoDup (season_numbers existingSeasons) →
   ∀ season e, season ∈ existingSeasons → e ∈ episode_numbers season →
     ∃ merged, merged ∈ seasons ∧ se_season merged = se_season season ∧
               e ∈ episode_numbers merged) ∧
  (∀ incoming e, incoming ∈ incomingSeasons →
     e ∈ incoming_episode_numbers incoming →
     ∃ merged, merged ∈ seasons ∧ se_season merged = si_season incoming ∧
               e ∈ episode_numbers merged).
Proof.
  intros (seasonMap & Hfold & Hkeyed & ->)%mergeSeasons_inv. split.
  - intros Hnd season e Hin He. apply holds_result; [done|].
    revert Hfold.
    pose (I := λ m, keyed_by se_season m ∧ holds (se_season season) e m).
    intros Hfold. cut (I seasonMap); [by intros [_ ?]|].
    eapply (forM_fold_state_inv mergeIncomingSeason I); [|done|].
    + intros m x w0 w0' m' Hstep [Hm Hholds]. split.
      * by eapply mergeIncomingSeason_keyed.
      * by eapply mergeIncomingSeason_holds.
    + split; [apply seed_seasons_keyed|].
      exists season. split; [|done]. by apply (seed_get se_season).
  - intros incoming e Hin He. apply holds_result; [done|].
    eapply (forM_fold_reaches mergeIncomingSeason (keyed_by se_season)
              (holds (si_season incoming) e)); [done| | | |done|].
    + intros m y w0 w0' m' Hstep Hm. by eapply mergeIncomingSeason_keyed.
    + intros m w0 w0' m' Hstep Hm.
      destruct (mergeIncomingSeason_step _ _ _ _ _ Hm Hstep)
        as (parsed & _ & Hparsed & _).
      eapply mergeIncomingSeason_adds; [done|done|done|].
      by rewrite (proj2 (seasonSchema_numbers _ _ Hparsed)).
    + intros m y w0 w0' m' Hstep Hm Hholds.
      by eapply mergeIncomingSeason_holds.
    + apply seed_seasons_keyed.
Qed.

(** X3. A stored season whose number no incoming season carries comes
    out of [mergeSeasons] as it went in (the stored seasons having
    distinct numbers). *)
Theorem mergeSeasons_untouched (existingSeasons : list Season)
    (incomingSeasons : list SeasonInput) (w w' : World) (seasons : list Season)
    (season : Season) :
  NoDup (season_numbers existingSeasons) →
  season ∈ existingSeasons →
  se_season season ∉ si_season <$> incomingSeasons →
  mergeSeasons existingSeasons incomingSeasons w = (w', inr seasons) →
  season ∈ seasons.
Proof.
  intros Hnd Hin Hnotin (seasonMap & Hfold & Hkeyed & ->)%mergeSeasons_inv.
  rewrite sort_by_perm.
  pose (I := λ m, keyed_by se_season m ∧
                  map_get (se_season season) m = Some season).
  cut (I seasonMap).
  { intros [_ Hget]. by destruct (keyed_get se_season _ _ _ Hkeyed Hget). }
  eapply (forM_fold_inv_in mergeIncomingSeason I); [|done|].
  - intros m x w0 w0' m' Hx Hstep [Hm Hget]. split.
    + by eapply mergeIncomingSeason_keyed.
    + destruct (mergeIncomingSeason_step _ _ _ _ _ Hm Hstep)
        as (parsed & merged & _ & -> & _).
      rewrite map_get_set_ne; [done|].
      intros Hn. apply Hnotin. apply list_elem_of_fmap. by exists x.
  - split; [apply seed_seasons_keyed|]. by apply (seed_get se_season).
Qed.

Lemma mergeSeasons_episodes_ascending existingSeasons incomingSeasons w w' seasons :
  Forall (λ season, strictly_ascending (episode_numbers season)) existingSeasons →
  Forall (λ incoming, strictly_ascending (incoming_episode_numbers incoming))
         incomingSeasons →
  mergeSeasons existingSeasons incomingSeasons w = (w', inr seasons) →
  Forall (λ season, strictly_ascending (episode_numbers season)) seasons.
Proof.
  intros Hexisting Hincoming
    (seasonMap & Hfold & Hkeyed & ->)%mergeSeasons_inv.
  rewrite sort_by_perm. unfold map_values. apply Forall_fmap.
  pose (I := λ m : JsMap Season,
          keyed_by se_season m ∧
          Forall (λ kv, strictly_ascending (episode_numbers kv.2)) m).
  cut (I seasonMap); [by intros [_ ?]|].
  eapply (forM_fold_inv_in mergeIncomingSeason I); [|done|].
  - intros m x w0 w0' m' Hx Hstep [Hm Hsorted]. split.
    + by eapply mergeIncomingSeason_keyed.
    + destruct (mergeIncomingSeason_step _ _ _ _ _ Hm Hstep)
        as (parsed & merged & Hparsed & -> & _ & Hmerged).
      apply map_set_Forall; [done|]. simpl.
      destruct (map_get (si_season x) m) as [current|].
      * by destruct Hmerged.
      * subst merged. rewrite (proj2 (seasonSchema_numbers _ _ Hparsed)).
        rewrite Forall_forall in Hincoming. by apply Hincoming.
  - split; [apply seed_seasons_keyed|].
    apply (seed_Forall se_season); [constructor|done].
Qed.

(** X4. [mergeSeasons] returns seasons that satisfy the ordering
    invariant as soon as every stored season and every incoming season
    has its own episodes by strictly ascending number: the order of the
    seasons themselves, in either argument, does not matter. *)
Theorem mergeSeasons_well_ordered (existingSeasons : list Season)
    (incomingSeasons : list SeasonInput) (w w' : World) (seasons : list Season) :
  Forall (λ season, strictly_ascending (episode_numbers season)) existingSeasons →
  Forall (λ incoming, strictly_ascending (incoming_episode_numbers incoming))
         incomingSeasons →
  mergeSeasons existingSeasons incomingSeasons w = (w', inr seasons) →
  well_ordered seasons.
Proof.
  intros Hexisting Hincoming Hrun. split.
  - by eapply mergeSeasons_season_numbers.
  - by eapply mergeSeasons_episodes_ascending.
Qed.

(** X5. [mergeSeasons] touches no file and draws no identifier: between
    the world before and the world after only the clock has been read,
    and the only error it throws is the validation error of a schema. *)
Theorem mergeSeasons_effects (existingSeasons : list Season)
    (incomingSeasons : list SeasonInput) (w : World) :
  clock_moved w (mergeSeasons existingSeasons incomingSeasons w).1 ∧
  ∀ e, (mergeSeasons existingSeasons incomingSeasons w).2 = inl e →
       e = ValidationError.
Proof.
  split; [apply mergeSeasons_clock|].
  intros e. unfold mergeSeasons, bind.
  destruct (forM_fold _ _ _ _) as [w1 [e'|seasonMap]] eqn:Hfold; [|done].
  simpl. intros [= <-].
  eapply (forM_fold_errors mergeIncomingSeason ValidationError
            mergeIncomingSeason_errors).
  by erewrite Hfold.
Qed.
End merge_seasons_results.

(** ** Series: [createOrMergeSeries], both branches *)
Section create_or_merge_results.
Context `{env : Env}.

Lemma seasonSchema_object_numbers seasons seasons' :
  mapM seasonSchema (season_object <$> seasons) = Some seasons' →
  season_numbers seasons' = season_numbers seasons ∧
  episode_numbers <$> seasons' = episode_numbers <$> seasons.
Proof.
  intros Hparse%mapM_Some%Forall2_fmap_l.
  induction Hparse as [|s s' l l' Hs _ [IH1 IH2]]; [done|].
  apply seasonSchema_numbers in Hs as [Hn He].
  unfold season_numbers in *. rewrite !fmap_cons, IH1, IH2, Hn, He.
  split; [done|]. f_equal.
  unfold incoming_episode_numbers, episode_numbers. simpl.
  generalize (se_episodes s). intros eps.
  induction eps as [|e eps IH]; [done|]. by rewrite !fmap_cons, <-IH.
Qed.

Lemma seasonSchema_input_numbers inputs seasons :
  mapM seasonSchema inputs = Some seasons →
  season_numbers seasons = si_season <$> inputs ∧
  episode_numbers <$> seasons = incoming_episode_numbers <$> inputs.
Proof.
  intros Hparse%mapM_Some.
  induction Hparse as [|s s' l l' Hs _ [IH1 IH2]]; [done|].
  apply seasonSchema_numbers in Hs as [Hn He].
  unfold season_numbers in *. by rewrite !fmap_cons, IH1, IH2, Hn, He.
Qed.

Lemma well_ordered_by_numbers seasons :
  well_ordered seasons ↔
  strictly_ascending (season_numbers seasons) ∧
  Forall strictly_ascending (episode_numbers <$> seasons).
Proof. unfold well_ordered. by rewrite Forall_fmap. Qed.

(** What a successful [createOrMergeSeries] has done, by branch. *)
Lemma createOrMergeSeries_inv payload w w' series :
  createOrMergeSeries payload w = (w', inr series) →
  let slug := slugify (or_else (sp_slug payload) (sp_name payload)) in
  let now := clock (clock_reads w) in
  match series_files w !! slug with
  | Some stored =>
      ∃ existing merged w1,
        seriesSchema (series_object stored) = Some existing ∧
        mergeSeasons (s_seasons existing) (sp_seasons payload)
          (set_clock_reads (S (clock_reads w)) w) = (w1, inr merged) ∧
        seriesSchema
          {| so_id := s_id existing; so_name := sp_name payload;
             so_slug := slug; so_description := sp_description payload;
             so_posterUrl := sp_posterUrl payload;
             so_categories := sp_categories payload;
             so_seasons := season_object <$> merged;
             so_published := sp_published payload;
             so_featured := sp_featured payload;
             so_createdAt := s_createdAt existing;
             so_updatedAt := now |} = Some series ∧
        w' = set_series_files (<[s_slug series := series]> (series_files w)) w1
  | None =>
      seriesSchema
        {| so_id := default (uuid (uuid_draws w)) (sp_id payload);
           so_name := sp_name payload;
           so_slug := slug; so_description := sp_description payload;
           so_posterUrl := sp_posterUrl payload;
           so_categories := sp_categories payload;
           so_seasons := sp_seasons payload;
           so_published := sp_published payload;
           so_featured := sp_featured payload;
           so_createdAt := now;
           so_updatedAt := now |} = Some series ∧
      w' = set_series_files (<[s_slug series := series]> (series_files w))
             (match sp_id payload with
              | Some _ => set_clock_reads (S (clock_reads w)) w
              | None => set_uuid_draws (S (uuid_draws w))
                          (set_clock_reads (S (clock_reads w)) w)
              end)
  end.
Proof.
  unfold createOrMergeSeries, bind at 1. unfold dayjs_now at 1.
  unfold bind at 1. rewrite readSeriesFile_run. simpl.
  destruct (series_files w !! _) as [stored|] eqn:Hfile.
  - destruct (seriesSchema (series_object stored)) as [existing|] eqn:Hparse;
      [|done].
    unfold bind at 1. unfold bind at 1.
    destruct (mergeSeasons _ _ _) as [w1 [e|merged]] eqn:Hmerge; [done|].
    unfold parse.
    match goal with
    | |- context [seriesSchema ?o] =>
        destruct (seriesSchema o) as [parsed|] eqn:Hseries; [|done]
    end.
    unfold ret at 1. unfold bind, saveSeries, withFileLock, writeJsonFile, ret.
    intros [= <- <-]. exists existing, merged, w1.
    pose proof (mergeSeasons_clock (s_seasons existing) (sp_seasons payload)
                  (set_clock_reads (S (clock_reads w)) w)) as [n Hclock].
    rewrite Hmerge in Hclock. simpl in Hclock. by subst w1.
  - destruct (sp_id payload) as [id|]; unfold saveSeries; mrun;
      (match goal with
       | |- context [seriesSchema ?o] =>
           destruct (seriesSchema o) as [parsed|] eqn:Hseries; [|done]
       end);
      by intros [= <- <-].
Qed.

(** X6. [createOrMergeSeries] returns and saves a series that satisfies
    the ordering invariant whenever its inputs allow it: every incoming
    season has its episodes by strictly ascending number, and either the
    stored series has so too in each of its seasons, or there is no
    stored series and the incoming seasons come by strictly ascending
    number. *)
Theorem createOrMergeSeries_well_ordered (w w' : World)
    (payload : SeriesPayload) (series : Series) :
  match series_files w !! slugify (or_else (sp_slug payload) (sp_name payload)) with
  | Some stored =>
      Forall (λ season, strictly_ascending (episode_numbers season))
             (s_seasons stored)
  | None => strictly_ascending (si_season <$> sp_seasons payload)
  end →
  Forall (λ incoming, strictly_ascending (incoming_episode_numbers incoming))
         (sp_seasons payload) →
  createOrMergeSeries payload w = (w', inr series) →
  well_ordered (s_seasons series) ∧
  series_files w' !! s_slug series = Some series.
Proof.
  intros Hstored Hincoming Hrun.
  apply createOrMergeSeries_inv in Hrun. simpl in Hrun.
  destruct (series_files w !! _) as [stored|].
  - destruct Hrun as (existing & merged & w1 & Hparse & Hmerge & Hseries & ->).
    split; [|apply lookup_insert_eq].
    apply seriesSchema_fields in Hparse as (_&_&_& Hseasons &_).
    apply seriesSchema_fields in Hseries as (_&_&_& Hseasons' &_).
    simpl in *.
    apply seasonSchema_object_numbers in Hseasons as [_ Heps].
    apply seasonSchema_object_numbers in Hseasons' as [Hn' Heps'].
    apply (well_ordered_numbers merged); [done|done|].
    split; [by eapply mergeSeasons_season_numbers|].
    eapply mergeSeasons_episodes_ascending; [|done|done].
    apply Forall_fmap in Hstored. rewrite <-Heps in Hstored.
    by apply Forall_fmap.
  - destruct Hrun as [Hseries ->]. split; [|apply lookup_insert_eq].
    apply seriesSchema_fields in Hseries as (_&_&_& Hseasons &_). simpl in *.
    apply seasonSchema_input_numbers in Hseasons as [Hn Heps].
    apply well_ordered_by_numbers. rewrite Hn, Heps. split; [done|].
    by apply Forall_fmap.
Qed.

(** X7. With no file under the normalised slug, [createOrMergeSeries]
    creates the series: its id is the id of the payload, or a fresh
    identifier when the payload has none (and only then is one drawn);
    createdAt and updatedAt are both the time of the call; its seasons
    are the validated seasons of the payload, in the order in which they
    came; and the one file written is the file of its slug. *)
Theorem createOrMergeSeries_creates (w w' : World) (payload : SeriesPayload)
    (series : Series) :
  series_files w !! slugify (or_else (sp_slug payload) (sp_name payload)) = None →
  createOrMergeSeries payload w = (w', inr series) →
  s_id series = default (uuid (uuid_draws w)) (sp_id payload) ∧
  s_createdAt series = clock (clock_reads w) ∧
  s_updatedAt series = clock (clock_reads w) ∧
  mapM seasonSchema (sp_seasons payload) = Some (s_seasons series) ∧
  season_numbers (s_seasons series) = si_season <$> sp_seasons payload ∧
  s_slug series = sanitize (slugify (or_else (sp_slug payload) (sp_name payload))) ∧
  series_files w' = <[s_slug series := series]> (series_files w) ∧
  uuid_draws w' = match sp_id payload with
               | Some _ => uuid_draws w
               | None => S (uuid_draws w)
               end ∧
  movies_file w' = movies_file w ∧ admin_file w' = admin_file w ∧
  users_file w' = users_file w ∧ history_files w' = history_files w.
Proof.
  intros Hfile Hrun. apply createOrMergeSeries_inv in Hrun. simpl in Hrun.
  rewrite Hfile in Hrun. destruct Hrun as [Hseries ->].
  apply seriesSchema_fields in Hseries as (Hid & _ & Hslug & Hseasons & Hc & Hu).
  simpl in *.
  destruct (seasonSchema_input_numbers _ _ Hseasons) as [Hn _].
  by destruct (sp_id payload).
Qed.
End create_or_merge_results.

(** ** Series: what [mergeEpisode] writes and what it leaves *)
Section search_by_key.
Context {A : Type} (key : A → Z).

Lemma find_first_key_snoc n (l : list A) x :
  find_first (λ y, key y = n) (l ++ [x]) =
  match find_first (λ y, key y = n) l with
  | Some y => Some y
  | None => if decide (key x = n) then Some x else None
  end.
Proof.
  induction l as [|y l IH].
  - simpl. rewrite find_first_key_cons. unfold find_first. simpl.
    by case_decide.
  - rewrite <-app_comm_cons, !find_first_key_cons.
    by destruct (decide (key y = n)).
Qed.

Lemma find_first_key_insert n (l : list A) (i : nat) x y :
  l !! i = Some x → key y = key x →
  find_first (λ z, key z = n) (<[i := y]> l) =
  if decide (key x = n)
  then match find_first (λ z, key z = n) (take i l) with
       | Some z => Some z
       | None => Some y
       end
  else find_first (λ z, key z = n) l.
Proof.
  revert i. induction l as [|z l IH]; intros [|i] Hi Hkey; simplify_eq/=.
  - rewrite !find_first_key_cons, Hkey. by case_decide.
  - rewrite !find_first_key_cons, (IH _ Hi Hkey).
    destruct (decide (key z = n)), (decide (key x = n)); done.
Qed.

Lemma find_first_key_take n (l : list A) (i : nat) x :
  list_find (λ z, key z = n) l = Some (i, x) →
  find_first (λ z, key z = n) (take i l) = None.
Proof.
  intros (_ & _ & Hbefore)%list_find_Some. unfold find_first.
  destruct (list_find _ (take i l)) as [[j z]|] eqn:Hfind; [|done].
  apply list_find_Some in Hfind as (Hj & Hz & _).
  apply lookup_take_Some in Hj as [Hj Hlt]. by destruct (Hbefore j z).
Qed.

Lemma find_first_key_None n (l : list A) :
  list_find (λ z, key z = n) l = None → find_first (λ z, key z = n) l = None.
Proof. unfold find_first. by intros ->. Qed.

Lemma find_first_key_found n (l : list A) (i : nat) x :
  list_find (λ z, key z = n) l = Some (i, x) →
  find_first (λ z, key z = n) l = Some x.
Proof. unfold find_first. by intros ->. Qed.

End search_by_key.

(** ** Series: the episode that [mergeSeasons] makes of a payload *)
Section merge_seasons_episode.
Context `{env : Env}.

Lemma map_get_keys {V : Type} k (m : JsMap V) :
  k ∈ m.*1 → is_Some (map_get k m).
Proof.
  induction m as [|[k0 v0] m IH]; simpl.
  - by intros ?%elem_of_nil.
  - intros [->|Hin]%elem_of_cons.
    + by rewrite decide_True.
    + case_decide; [done|by apply IH].
Qed.

Lemma keyed_find_first {V : Type} (key : V → Z) k v (m : JsMap V) :
  keyed_by key m → map_get k m = Some v →
  find_first (λ y, key y = k) (map_values m) = Some v.
Proof.
  unfold map_values. intros [_ Hkeys].
  induction m as [|[k0 v0] m IH]; simpl; [done|].
  apply Forall_cons in Hkeys as [Hk0 Hkeys]. simpl in Hk0.
  rewrite find_first_key_cons, Hk0.
  case_decide; [done|]. by apply IH.
Qed.

Lemma mergeIncomingEpisode_time m x w :
  (clock_reads w ≤ clock_reads (mergeIncomingEpisode m x w).1)%nat.
Proof.
  unfold mergeIncomingEpisode. mrun.
  destruct (episodeSchema _) as [parsed|]; mrun; [|done].
  destruct (map_get _ _); simpl; lia.
Qed.

Lemma mergeIncomingEpisodes_time l m w :
  (clock_reads w ≤ clock_reads (forM_fold mergeIncomingEpisode l m w).1)%nat.
Proof.
  apply (forM_fold_inv mergeIncomingEpisode
           (λ w w', (clock_reads w ≤ clock_reads w')%nat)).
  - done.
  - intros w1 w2 w3 ??. lia.
  - apply mergeIncomingEpisode_time.
Qed.

Lemma mergeIncomingSeason_time m x w :
  (clock_reads w ≤ clock_reads (mergeIncomingSeason m x w).1)%nat.
Proof.
  unfold mergeIncomingSeason. mrun.
  destruct (seasonSchema _) as [parsed|]; mrun; [|done].
  destruct (map_get _ _) as [current|]; [|done].
  pose proof (mergeIncomingEpisodes_time (se_episodes parsed)
                (foldl (λ m0 episode, map_set (ep_episode episode) episode m0)
                   [] (se_episodes current)) w) as Htime.
  by destruct (forM_fold _ _ _ _) as [w1 [e1|s1]].
Qed.

Lemma mergeIncomingSeasons_time l m w :
  (clock_reads w ≤ clock_reads (forM_fold mergeIncomingSeason l m w).1)%nat.
Proof.
  apply (forM_fold_inv mergeIncomingSeason
           (λ w w', (clock_reads w ≤ clock_reads w')%nat)).
  - done.
  - intros w1 w2 w3 ??. lia.
  - apply mergeIncomingSeason_time.
Qed.

(** An incoming episode of another number leaves the entry alone. *)
Lemma mergeIncomingEpisode_other m x w w' m' e :
  mergeIncomingEpisode m x w = (w', inr m') →
  ep_episode x ≠ e → map_get e m' = map_get e m.
Proof.
  unfold mergeIncomingEpisode. mrun.
  destruct (episodeSchema _) as [parsed|] eqn:Hparsed; mrun; [|done].
  apply episodeSchema_fields in Hparsed as (_&_&_&_& He &_). simpl in He.
  injection He as He.
  destruct (map_get _ m); simpl; intros [= <- <-] Hne;
    apply map_get_set_ne; congruence.
Qed.

Lemma mergeIncomingEpisodes_other l m w w' m' e :
  forM_fold mergeIncomingEpisode l m w = (w', inr m') →
  e ∉ ep_episode <$> l → map_get e m' = map_get e m.
Proof.
  intros Hfold Hnotin.
  eapply (forM_fold_inv_in mergeIncomingEpisode
            (λ m0, map_get e m0 = map_get e m)); [|done|done].
  intros m0 x w0 w0' m0' Hx Hstep <-.
  eapply mergeIncomingEpisode_other; [done|].
  intros He. apply Hnotin. apply list_elem_of_fmap. by exists x.
Qed.

(** Of the incoming episodes of a season, the one numbered as an entry
    of the map, and the only one so numbered, replaces that entry: the
    entry becomes the episode validated once more, with the time read
    at that point. *)
Lemma mergeIncomingEpisodes_merged l :
  ∀ m w w' m' x,
    forM_fold mergeIncomingEpisode l m w = (w', inr m') →
    NoDup (ep_episode <$> l) → x ∈ l →
    is_Some (map_get (ep_episode x) m) →
    ∃ twice now,
      episodeSchema (episode_object x) = Some twice ∧
      (clock_reads w ≤ now < clock_reads w')%nat ∧
      map_get (ep_episode x) m' = Some (set_ep_lastUpdated (clock now) twice).
Proof.
  induction l as [|y l IH]; intros m w w' m' x Hfold Hnd Hx Hget.
  { by apply elem_of_nil in Hx. }
  rewrite fmap_cons in Hnd. apply NoDup_cons in Hnd as [Hy Hnd].
  simpl in Hfold. unfold bind in Hfold.
  destruct (mergeIncomingEpisode m y w) as [w1 [err|m1]] eqn:Hstep; [done|].
  pose proof (mergeIncomingEpisode_time m y w) as Htime.
  rewrite Hstep in Htime. simpl in Htime.
  apply elem_of_cons in Hx as [->|Hx].
  - destruct (episodeSchema (episode_object y)) as [twice|] eqn:Htwice.
    2:{ unfold mergeIncomingEpisode in Hstep. mrun_in Hstep.
        by rewrite Htwice in Hstep. }
    pose proof (episodeSchema_fields _ _ Htwice) as (_&_&_&_& He &_).
    simpl in He. injection He as He. destruct Hget as [existing Hget].
    rewrite He in Hget.
    rewrite (mergeIncomingEpisode_existing w m y twice existing Htwice Hget)
      in Hstep.
    injection Hstep as <- <-.
    pose proof (mergeIncomingEpisodes_time l
                  (map_set (ep_episode twice)
                     (set_ep_lastUpdated (clock (clock_reads w)) twice) m)
                  (set_clock_reads (S (clock_reads w)) w)) as Hrest.
    rewrite Hfold in Hrest. simpl in Hrest.
    exists twice, (clock_reads w). split; [done|]. split; [lia|].
    rewrite (mergeIncomingEpisodes_other _ _ _ _ _ _ Hfold Hy).
    rewrite He. apply map_get_set.
  - assert (ep_episode y ≠ ep_episode x) as Hne.
    { intros He. apply Hy. rewrite He. apply list_elem_of_fmap. by exists x. }
    rewrite <-(mergeIncomingEpisode_other _ _ _ _ _ _ Hstep Hne) in Hget.
    destruct (IH _ _ _ _ _ Hfold Hnd Hx Hget) as (twice & now & ? & ? & ?).
    exists twice, now. split; [done|]. split; [lia|done].
Qed.

(** An incoming season of another number leaves the entry alone. *)
Lemma mergeIncomingSeason_other m x w w' m' n :
  keyed_by se_season m →
  mergeIncomingSeason m x w = (w', inr m') →
  si_season x ≠ n → map_get n m' = map_get n m.
Proof.
  intros Hkeyed Hstep Hne.
  destruct (mergeIncomingSeason_step _ _ _ _ _ Hkeyed Hstep)
    as (parsed & merged & _ & -> & _).
  by apply map_get_set_ne.
Qed.

Lemma mergeIncomingSeasons_other l m w w' m' n :
  keyed_by se_season m →
  forM_fold mergeIncomingSeason l m w = (w', inr m') →
  n ∉ si_season <$> l → map_get n m' = map_get n m.
Proof.
  intros Hkeyed Hfold Hnotin.
  cut (keyed_by se_season m' ∧ map_get n m' = map_get n m); [by intros [_ ?]|].
  eapply (forM_fold_inv_in mergeIncomingSeason
            (λ m0, keyed_by se_season m0 ∧ map_get n m0 = map_get n m));
    [|done|done].
  intros m0 x w0 w0' m0' Hx Hstep [Hm0 <-]. split.
  - by eapply mergeIncomingSeason_keyed.
  - eapply mergeIncomingSeason_other; [done|done|].
    intros Hn. apply Hnotin. apply list_elem_of_fmap. by exists x.
Qed.

(** One incoming season against the entry of its number: a payload
    numbered as an episode of the entry, and the only one so numbered,
    is validated by [seasonSchema], validated again in the loop, and
    stands in the merged season with the time read at that point. *)
Lemma mergeIncomingSeason_merged m incoming w w' m' current o e :
  keyed_by se_season m →
  mergeIncomingSeason m incoming w = (w', inr m') →
  map_get (si_season incoming) m = Some current →
  e ∈ episode_numbers current →
  NoDup (incoming_episode_numbers incoming) →
  o ∈ si_episodes incoming → pe_episode o = Some e →
  ∃ season' once twice now,
    map_get (si_season incoming) m' = Some season' ∧
    episodeSchema o = Some once ∧
    episodeSchema (episode_object once) = Some twice ∧
    (clock_reads w ≤ now < clock_reads w')%nat ∧
    find_first (λ ep, ep_episode ep = e) (se_episodes season') =
      Some (set_ep_lastUpdated (clock now) twice).
Proof.
  intros Hkeyed Hstep Hcurrent He Hnd Ho Hnumber.
  unfold mergeIncomingSeason in Hstep. unfold bind at 1, parse in Hstep.
  destruct (seasonSchema incoming) as [parsed|] eqn:Hparsed; [|done].
  unfold ret at 1 in Hstep.
  pose proof (seasonSchema_numbers _ _ Hparsed) as [Hn Hnumbers].
  apply seasonSchema_fields in Hparsed as [_ Hepisodes].
  rewrite Hn, Hcurrent in Hstep. unfold bind in Hstep.
  destruct (forM_fold _ _ _ _) as [w1 [err|episodeMap]] eqn:Hfold; [done|].
  unfold ret in Hstep. injection Hstep as <- <-.
  destruct (keyed_get se_season _ _ _ Hkeyed Hcurrent) as [_ Hkey].
  apply list_elem_of_lookup in Ho as [i Hi].
  apply mapM_Some in Hepisodes.
  destruct (Forall2_lookup_l _ _ _ _ _ Hepisodes Hi) as (once & Honce & Hparse).
  pose proof (episodeSchema_fields _ _ Hparse) as (_&_&_&_& Hnum &_).
  rewrite Hnumber in Hnum. injection Hnum as ->.
  assert (keyed_by ep_episode episodeMap) as Hmap.
  { eapply (forM_fold_state_inv mergeIncomingEpisode (keyed_by ep_episode));
      [|done|].
    - intros ?????. apply mergeIncomingEpisode_keyed.
    - apply (seed_keyed ep_episode). split; constructor. }
  destruct (mergeIncomingEpisodes_merged _ _ _ _ _ once Hfold)
    as (twice & now & Htwice & Hnow & Hget).
  { unfold episode_numbers in Hnumbers. by rewrite Hnumbers. }
  { by eapply list_elem_of_lookup_2. }
  { apply map_get_keys. apply (seed_keys ep_episode). by right. }
  eexists _, once, twice, now. rewrite Hkey. split; [apply map_get_set|].
  split; [done|]. split; [done|]. split; [done|]. simpl.
  rewrite find_first_sort_by. by apply keyed_find_first.
Qed.

Lemma mergeIncomingSeasons_merged l :
  ∀ m w w' m' incoming current o e,
    keyed_by se_season m →
    forM_fold mergeIncomingSeason l m w = (w', inr m') →
    NoDup (si_season <$> l) → incoming ∈ l →
    map_get (si_season incoming) m = Some current →
    e ∈ episode_numbers current →
    NoDup (incoming_episode_numbers incoming) →
    o ∈ si_episodes incoming → pe_episode o = Some e →
    ∃ season' once twice now,
      map_get (si_season incoming) m' = Some season' ∧
      episodeSchema o = Some once ∧
      episodeSchema (episode_object once) = Some twice ∧
      (clock_reads w ≤ now < clock_reads w')%nat ∧
      find_first (λ ep, ep_episode ep = e) (se_episodes season') =
        Some (set_ep_lastUpdated (clock now) twice).
Proof.
  induction l as [|y l IH];
    intros m w w' m' incoming current o e Hkeyed Hfold Hnd Hin Hcurrent He
      Hnumbers Ho Hnumber.
  { by apply elem_of_nil in Hin. }
  rewrite fmap_cons in Hnd. apply NoDup_cons in Hnd as [Hy Hnd].
  simpl in Hfold. unfold bind in Hfold.
  destruct (mergeIncomingSeason m y w) as [w1 [err|m1]] eqn:Hstep; [done|].
  pose proof (mergeIncomingSeason_time m y w) as Htime.
  rewrite Hstep in Htime. simpl in Htime.
  pose proof (mergeIncomingSeason_keyed _ _ _ _ _ Hstep Hkeyed) as Hkeyed1.
  apply elem_of_cons in Hin as [->|Hin].
  - destruct (mergeIncomingSeason_merged _ _ _ _ _ _ _ _ Hkeyed Hstep Hcurrent
                He Hnumbers Ho Hnumber)
      as (season' & once & twice & now & Hget & Honce & Htwice & Hnow & Hfind).
    pose proof (mergeIncomingSeasons_time l m1 w1) as Hrest.
    rewrite Hfold in Hrest. simpl in Hrest.
    exists season', once, twice, now.
    rewrite (mergeIncomingSeasons_other _ _ _ _ _ _ Hkeyed1 Hfold Hy).
    split; [done|]. split; [done|]. split; [done|]. split; [lia|done].
  - assert (si_season y ≠ si_season incoming) as Hne.
    { intros Hn. apply Hy. rewrite Hn. apply list_elem_of_fmap.
      by exists incoming. }
    rewrite <-(mergeIncomingSeason_other _ _ _ _ _ _ Hkeyed Hstep Hne)
      in Hcurrent.
    destruct (IH _ _ _ _ _ _ _ _ Hkeyed1 Hfold Hnd Hin Hcurrent He Hnumbers
                Ho Hnumber)
      as (season' & once & twice & now & ? & ? & ? & ? & ?).
    exists season', once, twice, now.
    split; [done|]. split; [done|]. split; [done|]. split; [lia|done].
Qed.

(** C1 (as amended). The series merge validates every incoming episode
    with [episodeSchema]: a payload that lacks a required key, such as
    [{ duration: 20 }], makes the merge fail with a validation error.
    For a payload that validates and carries the season and episode
    number of a stored episode (the stored seasons, the incoming
    seasons and the payloads of that incoming season each having
    distinct numbers), the seasons that [mergeSeasons] returns hold,
    under these numbers, an episode with the validated value of the
    payload (sanitised twice) for every key that the payload supplies,
    and with a time read during the merge as [lastUpdated]. Nothing is
    said here of [subtitles], [published] and [views] when the payload
    omits them. *)
Theorem mergeSeasons_episode_from_payload :
  (∀ w existingSeasons incomingSeasons season o,
     season ∈ incomingSeasons → o ∈ si_episodes season →
     lacks_required_key o →
     ∃ w', mergeSeasons existingSeasons incomingSeasons w =
             (w', inl ValidationError)) ∧
  (∀ w w' existingSeasons incomingSeasons seasons season existingEpisode
     incoming o,
     NoDup (season_numbers existingSeasons) →
     season ∈ existingSeasons → existingEpisode ∈ se_episodes season →
     NoDup (si_season <$> incomingSeasons) →
     incoming ∈ incomingSeasons → si_season incoming = se_season season →
     NoDup (incoming_episode_numbers incoming) →
     o ∈ si_episodes incoming →
     pe_episode o = Some (ep_episode existingEpisode) →
     mergeSeasons existingSeasons incomingSeasons w = (w', inr seasons) →
     ∃ merged now,
       lookup_episode (se_season season) (ep_episode existingEpisode) seasons =
         Some merged ∧
       (clock_reads w ≤ now < clock_reads w')%nat ∧
       ep_lastUpdated merged = clock now ∧
       pe_id o = Some (ep_id merged) ∧
       (∃ title, pe_title o = Some title ∧
                 ep_title merged = sanitize (sanitize title)) ∧
       (∃ description, pe_description o = Some description ∧
                 ep_description merged = sanitize (sanitize description)) ∧
       pe_season o = Some (ep_season merged) ∧
       pe_episode o = Some (ep_episode merged) ∧
       pe_duration o = Some (ep_duration merged) ∧
       pe_streamUrl o = Some (ep_streamUrl merged) ∧
       (∀ subtitles, pe_subtitles o = Some subtitles →
          ∃ once, mapM subtitleSchema subtitles = Some once ∧
                  mapM subtitleSchema once = Some (ep_subtitles merged)) ∧
       (∀ published, pe_published o = Some published →
          ep_published merged = published) ∧
       (∀ views, pe_views o = Some views → ep_views merged = views)).
Proof.
  split.
  - intros w existingSeasons incomingSeasons season o Hseason Ho Hlack.
    pose proof (mergeSeasons_rejects w existingSeasons incomingSeasons
                  season o Hseason Ho (lacks_required_key_rejected o Hlack)).
    destruct (mergeSeasons _ _ _) as [w' r]. exists w'. by simplify_eq/=.
  - intros w w' existingSeasons incomingSeasons seasons season existingEpisode
      incoming o Hstored Hseason Hexisting Hnd Hincoming Hn Hnumbers Ho
      Hnumber Hrun.
    apply mergeSeasons_inv in Hrun as (seasonMap & Hfold & Hkeyed & ->).
    destruct (mergeIncomingSeasons_merged _ _ _ _ _ incoming season o
                (ep_episode existingEpisode) (seed_seasons_keyed _) Hfold)
      as (season' & once & twice & now & Hget & Honce & Htwice & Hnow & Hfind);
      try done.
    { rewrite Hn. by apply (seed_get se_season). }
    { apply list_elem_of_fmap. by exists existingEpisode. }
    exists (set_ep_lastUpdated (clock now) twice), now. split.
    { unfold lookup_episode. rewrite find_first_sort_by, <-Hn.
      rewrite (keyed_find_first se_season _ _ _ Hkeyed Hget). done. }
    split; [done|]. split; [done|].
    apply episodeSchema_fields in Honce
      as (Hid & (t & Ht & Ht') & (d & Hd & Hd') & Hs & He & Hdu & Hu
          & Hsub & Hp & Hv & _).
    apply episodeSchema_fields in Htwice
      as (Hid2 & (t2 & Ht2 & Ht2') & (d2 & Hd2 & Hd2') & Hs2 & He2 & Hdu2
          & Hu2 & Hsub2 & Hp2 & Hv2 & _).
    simpl in *. simplify_eq. rewrite Ht', Hd' in *.
    repeat split; eauto; try congruence.
    + intros subtitles Hsubtitles. rewrite Hsubtitles in Hsub. eauto.
    + intros published Hpublished. by rewrite Hp2, Hp, Hpublished.
    + intros views Hviews. by rewrite Hv2, Hv, Hviews.
Qed.
End merge_seasons_episode.

Section merge_episode_results.
Context `{env : Env}.
Context (episodePayload : EpisodePayload).

Local Abbreviation target_season := (λ s, se_season s = py_season episodePayload).
Local Abbreviation target_episode := (λ ep, ep_episode ep = py_episode episodePayload).
Local Abbreviation fresh_object id now :=
  (with_views 0 (with_lastUpdated now (with_id id (payload_object episodePayload)))).

(** What a successful [mergeEpisode] has done, by branch. *)
Lemma mergeEpisode_cases slug w w1 s1 :
  mergeEpisode slug episodePayload w = (w1, inr s1) →
  ∃ existing ep1 seasons w0,
    readSeriesFile slug w = (w, inr (Some existing)) ∧
    s1 = set_s_updatedAt (clock (clock_reads w))
           (set_s_seasons (sort_by se_season seasons) existing) ∧
    w1 = set_series_files (<[s_slug s1 := s1]> (series_files w)) w0 ∧
    match list_find target_season (s_seasons existing) with
    | None =>
        ∃ ep0,
          episodeSchema (fresh_object (uuid (uuid_draws w)) (clock (clock_reads w)))
            = Some ep0 ∧
          episodeSchema (episode_object ep0) = Some ep1 ∧
          seasons = s_seasons existing ++
                    [{| se_season := py_season episodePayload;
                        se_episodes := [ep1] |}] ∧
          w0 = set_uuid_draws (S (uuid_draws w))
                 (set_clock_reads (S (clock_reads w)) w)
    | Some (i, season) =>
        ∃ episodes,
          seasons = <[i := set_se_episodes (sort_by ep_episode episodes) season]>
                      (s_seasons existing) ∧
          match list_find target_episode (se_episodes season) with
          | None =>
              episodeSchema
                (fresh_object (uuid (uuid_draws w)) (clock (clock_reads w)))
                = Some ep1 ∧
              episodes = se_episodes season ++ [ep1] ∧
              w0 = set_uuid_draws (S (uuid_draws w))
                     (set_clock_reads (S (clock_reads w)) w)
          | Some (j, current) =>
              episodeSchema
                (with_lastUpdated (clock (clock_reads w))
                   (spread_episode (episode_object current)
                      (payload_object episodePayload))) = Some ep1 ∧
              episodes = <[j := ep1]> (se_episodes season) ∧
              w0 = set_clock_reads (S (clock_reads w)) w
          end
    end.
Proof.
  intros Hrun. unfold mergeEpisode in Hrun. unfold bind at 1 in Hrun.
  rewrite readSeriesFile_run in Hrun. rewrite readSeriesFile_run.
  destruct (series_files w !! slug) as [data|]; [|done].
  destruct (seriesSchema _) as [existing|]; [|done].
  unfold bind at 1 in Hrun. unfold dayjs_now at 1 in Hrun.
  unfold findIndex in Hrun.
  destruct (list_find target_season (s_seasons existing))
    as [[i season]|] eqn:Hi.
  - destruct (list_find target_episode (se_episodes season))
      as [[j current]|] eqn:Hj.
    + mrun_in Hrun.
      destruct (episodeSchema _) as [ep1|] eqn:Hep in Hrun; [|done].
      simplify_eq/=.
      eexists existing, ep1, _, _. split; [done|]. split; [done|].
      split; [done|]. rewrite Hi. eexists. split; [done|]. by rewrite Hj.
    + unfold bind at 1 in Hrun. unfold bind at 1 in Hrun.
      unfold bind at 1 in Hrun. rewrite newEpisode_run in Hrun.
      destruct (episodeSchema _) as [ep1|] eqn:Hep in Hrun; [|done].
      mrun_in Hrun. simplify_eq/=.
      eexists existing, ep1, _, _. split; [done|]. split; [done|].
      split; [done|]. rewrite Hi. eexists. split; [done|]. by rewrite Hj.
  - unfold bind at 1 in Hrun. unfold bind at 1 in Hrun.
    unfold bind at 1 in Hrun. rewrite newEpisode_run in Hrun.
    destruct (episodeSchema _) as [ep0|] eqn:Hep in Hrun; [|done].
    unfold parse at 1 in Hrun.
    destruct (seasonSchema _) as [season|] eqn:Hseason in Hrun; [|done].
    mrun_in Hrun. simplify_eq/=.
    apply seasonSchema_fields in Hseason as [Hnumber Hepisodes].
    simpl in *.
    destruct (episodeSchema (episode_object ep0)) as [ep1|] eqn:Hep';
      [|done].
    simpl in Hepisodes.
    eexists existing, ep1, _, _. split; [done|]. split; [done|].
    split; [done|]. rewrite Hi. exists ep0. split; [done|]. split; [done|].
    split; [|done]. destruct season; simpl in *.
    injection Hepisodes as <-. by subst.
Qed.
End merge_episode_results.

Section merge_episode_theorems.
Context `{env : Env}.
Context (episodePayload : EpisodePayload).

Local Abbreviation target_season := (λ s, se_season s = py_season episodePayload).
Local Abbreviation target_episode := (λ ep, ep_episode ep = py_episode episodePayload).
Local Abbreviation fresh_object id now :=
  (with_views 0 (with_lastUpdated now (with_id id (payload_object episodePayload)))).

Lemma fresh_object_number id now ep1 :
  episodeSchema (fresh_object id now) = Some ep1 →
  ep_season ep1 = py_season episodePayload ∧
  ep_episode ep1 = py_episode episodePayload.
Proof.
  intros (_&_&_& Hs & He &_)%episodeSchema_fields. simpl in *.
  by simplify_eq.
Qed.

Lemma reparsed_number ep0 ep1 :
  episodeSchema (episode_object ep0) = Some ep1 →
  ep_season ep1 = ep_season ep0 ∧ ep_episode ep1 = ep_episode ep0.
Proof.
  intros (_&_&_& Hs & He &_)%episodeSchema_fields. simpl in *.
  by simplify_eq.
Qed.

Lemma overwritten_number now current ep1 :
  episodeSchema (with_lastUpdated now
    (spread_episode (episode_object current) (payload_object episodePayload)))
    = Some ep1 →
  ep_season ep1 = py_season episodePayload ∧
  ep_episode ep1 = py_episode episodePayload.
Proof.
  intros (_&_&_& Hs & He &_)%episodeSchema_fields. simpl in *.
  by simplify_eq.
Qed.

(** X8. [mergeEpisode] changes one episode only: in the series that it
    returns and saves, every other pair of a season number and an episode
    number reaches the episode it reached in the series read from the
    file (or none, as before), and the fields of the series other
    than its seasons and updatedAt are those read. Only the file of the
    series is written. *)
Theorem mergeEpisode_frame (slug : string) (w w1 : World) (s1 : Series) :
  mergeEpisode slug episodePayload w = (w1, inr s1) →
  ∃ existing,
    readSeriesFile slug w = (w, inr (Some existing)) ∧
    (∀ n e, (n, e) ≠ (py_season episodePayload, py_episode episodePayload) →
       lookup_episode n e (s_seasons s1) =
       lookup_episode n e (s_seasons existing)) ∧
    s_id s1 = s_id existing ∧ s_name s1 = s_name existing ∧
    s_slug s1 = s_slug existing ∧
    s_description s1 = s_description existing ∧
    s_posterUrl s1 = s_posterUrl existing ∧
    s_categories s1 = s_categories existing ∧
    s_published s1 = s_published existing ∧
    s_featured s1 = s_featured existing ∧
    s_createdAt s1 = s_createdAt existing ∧
    s_updatedAt s1 = clock (clock_reads w) ∧
    series_files w1 = <[s_slug existing := s1]> (series_files w) ∧
    movies_file w1 = movies_file w ∧ admin_file w1 = admin_file w ∧
    users_file w1 = users_file w ∧ history_files w1 = history_files w.
Proof.
  intros (existing & ep1 & seasons & w0 & Hread & -> & -> & Hcases)%mergeEpisode_cases.
  exists existing. split; [done|]. split.
  2:{ simpl. repeat split; try done.
      all: destruct (list_find _ (s_seasons existing)) as [[i season]|];
        [destruct Hcases as (episodes & _ & Hcases);
         destruct (list_find _ (se_episodes season)) as [[j current]|];
         by destruct Hcases as (_ & _ & ->)
        |by destruct Hcases as (ep0 & _ & _ & _ & ->)]. }
  intros n e Hne. simpl. unfold lookup_episode.
  rewrite find_first_sort_by.
  destruct (list_find _ (s_seasons existing)) as [[i season]|] eqn:Hi.
  - destruct Hcases as (episodes & -> & Hcases).
    pose proof Hi as (Hlook & Hseason & _)%list_find_Some.
    rewrite (find_first_key_insert se_season n _ i season) by done.
    destruct (decide (se_season season = n)) as [Hn|Hn]; [|done].
    assert (n = py_season episodePayload) as -> by congruence.
    rewrite (find_first_key_take se_season _ _ _ _ Hi).
    rewrite (find_first_key_found se_season _ _ _ _ Hi).
    simpl. rewrite find_first_sort_by.
    assert (py_episode episodePayload ≠ e) as He by congruence.
    destruct (list_find _ (se_episodes season)) as [[j current]|] eqn:Hj.
    + destruct Hcases as (Hep & -> & _).
      pose proof Hj as (Hlookj & Hcurrent & _)%list_find_Some.
      apply overwritten_number in Hep as [_ Hnum].
      rewrite (find_first_key_insert ep_episode e _ j current) by congruence.
      rewrite decide_False by congruence. done.
    + destruct Hcases as (Hep & -> & _).
      apply fresh_object_number in Hep as [_ Hnum].
      rewrite find_first_key_snoc.
      destruct (find_first _ (se_episodes season)); [done|].
      rewrite decide_False by congruence. done.
  - destruct Hcases as (ep0 & Hep0 & Hep1 & -> & _).
    rewrite find_first_key_snoc.
    destruct (find_first _ (s_seasons existing)) as [found|] eqn:Hfound; [done|].
    simpl. case_decide as Hn; [|done]. simpl.
    apply fresh_object_number in Hep0 as [_ Hnum0].
    apply reparsed_number in Hep1 as [_ Hnum1].
    rewrite find_first_key_cons, decide_False; [done|].
    intros He. apply Hne. congruence.
Qed.

(** X9. After [mergeEpisode] the season and episode number of the payload
    reach an episode with the title, description, duration, stream
    address, subtitles and published flag of the payload (validated,
    hence sanitised) and the time of the call as lastUpdated. When these
    numbers reached an episode before, the id and the view count are
    its own and no identifier is drawn; when they reached none, the id
    is a fresh identifier and the view count is 0. The sanitiser is
    taken to be idempotent. *)
Theorem mergeEpisode_upserts (slug : string) (w w1 : World) (s1 : Series) :
  (∀ s, sanitize (sanitize s) = sanitize s) →
  mergeEpisode slug episodePayload w = (w1, inr s1) →
  ∃ existing ep1,
    readSeriesFile slug w = (w, inr (Some existing)) ∧
    lookup_episode (py_season episodePayload) (py_episode episodePayload)
      (s_seasons s1) = Some ep1 ∧
    ep_season ep1 = py_season episodePayload ∧
    ep_episode ep1 = py_episode episodePayload ∧
    ep_title ep1 = sanitize (py_title episodePayload) ∧
    ep_description ep1 = sanitize (py_description episodePayload) ∧
    ep_duration ep1 = py_duration episodePayload ∧
    ep_streamUrl ep1 = py_streamUrl episodePayload ∧
    mapM subtitleSchema (py_subtitles episodePayload) = Some (ep_subtitles ep1) ∧
    ep_published ep1 = py_published episodePayload ∧
    ep_lastUpdated ep1 = clock (clock_reads w) ∧
    match lookup_episode (py_season episodePayload) (py_episode episodePayload)
            (s_seasons existing) with
    | Some current =>
        ep_id ep1 = ep_id current ∧ ep_views ep1 = ep_views current ∧
        uuid_draws w1 = uuid_draws w
    | None =>
        ep_id ep1 = uuid (uuid_draws w) ∧ ep_views ep1 = 0 ∧
        uuid_draws w1 = S (uuid_draws w)
    end.
Proof.
  intros Hidem
    (existing & ep1 & seasons & w0 & Hread & -> & -> & Hcases)%mergeEpisode_cases.
  exists existing, ep1. split; [done|]. simpl. unfold lookup_episode.
  rewrite find_first_sort_by.
  destruct (list_find _ (s_seasons existing)) as [[i season]|] eqn:Hi.
  - destruct Hcases as (episodes & -> & Hcases).
    pose proof Hi as (Hlook & Hseason & _)%list_find_Some.
    rewrite (find_first_key_insert se_season _ _ i season) by done.
    rewrite decide_True by done.
    rewrite (find_first_key_take se_season _ _ _ _ Hi).
    rewrite (find_first_key_found se_season _ _ _ _ Hi). simpl.
    rewrite find_first_sort_by.
    destruct (list_find _ (se_episodes season)) as [[j current]|] eqn:Hj.
    + destruct Hcases as (Hep & -> & ->).
      pose proof Hj as (Hlookj & Hcurrent & _)%list_find_Some.
      pose proof (overwritten_number _ _ _ Hep) as [Hs He].
      rewrite (find_first_key_insert ep_episode _ _ j current) by congruence.
      rewrite decide_True by done.
      rewrite (find_first_key_take ep_episode _ _ _ _ Hj).
      rewrite (find_first_key_found ep_episode _ _ _ _ Hj).
      apply episodeSchema_fields in Hep
        as (Hid & (t & Ht & ->) & (d & Hd & ->) & _ & _ & Hdur & Hurl & Hsubs
            & -> & -> & Hstamp).
      simpl in *. by simplify_eq.
    + destruct Hcases as (Hep & -> & ->).
      pose proof (fresh_object_number _ _ _ Hep) as [Hs He].
      rewrite find_first_key_snoc.
      rewrite (find_first_key_None ep_episode _ _ Hj).
      rewrite decide_True by done.
      apply episodeSchema_fields in Hep
        as (Hid & (t & Ht & ->) & (d & Hd & ->) & _ & _ & Hdur & Hurl & Hsubs
            & -> & -> & Hstamp).
      simpl in *. by simplify_eq.
  - destruct Hcases as (ep0 & Hep0 & Hep1 & -> & ->).
    pose proof (fresh_object_number _ _ _ Hep0) as [Hs0 He0].
    pose proof (reparsed_number _ _ Hep1) as [Hs1 He1].
    assert (ep1 = ep0) as -> by (by eapply episodeSchema_stable).
    rewrite find_first_key_snoc.
    rewrite (find_first_key_None se_season _ _ Hi).
    rewrite decide_True by done. simpl.
    rewrite find_first_key_cons, decide_True by done.
    apply episodeSchema_fields in Hep0
      as (Hid & (t & Ht & ->) & (d & Hd & ->) & _ & _ & Hdur & Hurl & Hsubs
          & -> & -> & Hstamp).
    simpl in *. by simplify_eq.
Qed.
End merge_episode_theorems.

(** ** Schemas: the record that comes out *)
Section schema_records.
Context `{env : Env}.

Lemma seriesSchema_record o s :
  seriesSchema o = Some s →
  ∃ seasons,
    mapM seasonSchema (so_seasons o) = Some seasons ∧
    s = {| s_id := so_id o; s_name := sanitize (so_name o);
           s_slug := sanitize (so_slug o);
           s_description := sanitize (so_description o);
           s_posterUrl := so_posterUrl o; s_categories := so_categories o;
           s_seasons := seasons; s_published := so_published o;
           s_featured := so_featured o; s_createdAt := so_createdAt o;
           s_updatedAt := so_updatedAt o |}.
Proof.
  unfold seriesSchema, sanitizedString, sanitizedSlug. intros H.
  simplify_option_eq. by eexists.
Qed.

Lemma movieSchema_record o m :
  movieSchema o = Some m →
  pm_id o = Some (m_id m) ∧
  (∃ title, pm_title o = Some title ∧ m_title m = sanitize title) ∧
  (∃ slug, pm_slug o = Some slug ∧ m_slug m = sanitize slug) ∧
  (∃ description, pm_description o = Some description ∧
                  m_description m = sanitize description) ∧
  pm_year o = Some (m_year m) ∧
  pm_duration o = Some (m_duration m) ∧
  pm_posterUrl o = Some (m_posterUrl m) ∧
  pm_streamUrl o = Some (m_streamUrl m) ∧
  mapM subtitleSchema (default [] (pm_subtitles o)) = Some (m_subtitles m) ∧
  pm_categories o = Some (m_categories m) ∧
  m_published m = default false (pm_published o) ∧
  m_featured m = default false (pm_featured o) ∧
  m_views m = default 0 (pm_views o) ∧
  pm_createdAt o = Some (m_createdAt m) ∧
  pm_updatedAt o = Some (m_updatedAt m).
Proof.
  unfold movieSchema, sanitizedString, sanitizedSlug, streamUrlSchema.
  intros H. simplify_option_eq. repeat split; eauto.
Qed.
End schema_records.

(** ** Schemas: validating twice *)
Section schema_stability.
Context `{env : Env}.
Context (sanitize_idem : ∀ s, sanitize (sanitize s) = sanitize s).

Lemma mapM_episodeSchema_stable (l : list PartialEpisode) l1 l2 :
  mapM episodeSchema l = Some l1 →
  mapM episodeSchema (episode_object <$> l1) = Some l2 → l2 = l1.
Proof.
  rewrite !mapM_Some. intros H1. revert l2.
  induction H1 as [|o e1 l l1 Ho _ IH]; intros l2 H2.
  - by apply Forall2_nil_inv_l in H2.
  - rewrite fmap_cons in H2.
    apply Forall2_cons_inv_l in H2 as (e2 & l2' & He & Hl & ->).
    by rewrite (episodeSchema_stable sanitize_idem _ _ _ Ho He), (IH _ Hl).
Qed.

Lemma seasonSchema_stable o s s' :
  seasonSchema o = Some s → seasonSchema (season_object s) = Some s' → s' = s.
Proof.
  intros [Hn He]%seasonSchema_fields [Hn' He']%seasonSchema_fields.
  simpl in *. pose proof (mapM_episodeSchema_stable _ _ _ He He').
  destruct s, s'; simpl in *. congruence.
Qed.

Lemma mapM_seasonSchema_stable (l : list SeasonInput) l1 l2 :
  mapM seasonSchema l = Some l1 →
  mapM seasonSchema (season_object <$> l1) = Some l2 → l2 = l1.
Proof.
  rewrite !mapM_Some. intros H1. revert l2.
  induction H1 as [|o e1 l l1 Ho _ IH]; intros l2 H2.
  - by apply Forall2_nil_inv_l in H2.
  - rewrite fmap_cons in H2.
    apply Forall2_cons_inv_l in H2 as (e2 & l2' & He & Hl & ->).
    by rewrite (seasonSchema_stable _ _ _ Ho He), (IH _ Hl).
Qed.

Lemma seriesSchema_stable o s s' :
  seriesSchema o = Some s → seriesSchema (series_object s) = Some s' → s' = s.
Proof.
  intros (seasons & Hseasons & ->)%seriesSchema_record
         (seasons' & Hseasons' & ->)%seriesSchema_record.
  simpl in *.
  rewrite (mapM_seasonSchema_stable _ _ _ Hseasons Hseasons').
  by rewrite !sanitize_idem.
Qed.

Lemma movieSchema_stable o m m' :
  movieSchema o = Some m → movieSchema (movie_object m) = Some m' → m' = m.
Proof.
  intros (_ & (t & _ & Ht) & (s & _ & Hs) & (d & _ & Hd) &_&_&_&_& Hsub &_)
           %movieSchema_record
         (Hid & (t' & Ht' & Ht'') & (s' & Hs' & Hs'') & (d' & Hd' & Hd'')
          & Hy & Hdu & Hp & Hst & Hsub' & Hcat & Hpub & Hfeat & Hviews & Hc & Hu)
           %movieSchema_record.
  simpl in *. simplify_eq.
  pose proof (mapM_subtitleSchema_stable sanitize_idem _ _ _ Hsub Hsub') as Hsubs.
  rewrite Ht, sanitize_idem in Ht''. rewrite Hs, sanitize_idem in Hs''.
  rewrite Hd, sanitize_idem in Hd''.
  rewrite <-Ht in Ht''. rewrite <-Hs in Hs''. rewrite <-Hd in Hd''.
  destruct m, m'; simpl in *. by subst.
Qed.

Lemma userSchema_stable o u u' :
  userSchema o = Some u → userSchema u = Some u' → u' = u.
Proof.
  unfold userSchema, usernameSchema. intros H1 H2. simplify_option_eq.
  by rewrite !sanitize_idem.
Qed.
End schema_stability.

Section schema_theorems.
Context `{env : Env}.

(** X10. A second validation never alters a record when the sanitiser
    is idempotent: for a series, a movie or a user record that came out
    of its schema, the schema either returns that very record, down to
    every episode and subtitle, or rejects it. It can reject it: the
    bounds of a string are checked before the sanitiser runs, so a
    string that the sanitiser shortens below its minimum passes once and
    not twice. *)
Theorem validation_stable :
  (∀ s, sanitize (sanitize s) = sanitize s) →
  (∀ o s, seriesSchema o = Some s →
          seriesSchema (series_object s) = Some s ∨
          seriesSchema (series_object s) = None) ∧
  (∀ o m, movieSchema o = Some m →
          movieSchema (movie_object m) = Some m ∨
          movieSchema (movie_object m) = None) ∧
  (∀ o u, userSchema o = Some u →
          userSchema u = Some u ∨ userSchema u = None).
Proof.
  intros Hidem. split; [|split].
  - intros o s Hs.
    destruct (seriesSchema (series_object s)) as [s'|] eqn:Hs'; [left|by right].
    f_equal. by eapply seriesSchema_stable.
  - intros o m Hm.
    destruct (movieSchema (movie_object m)) as [m'|] eqn:Hm'; [left|by right].
    f_equal. by eapply movieSchema_stable.
  - intros o u Hu.
    destruct (userSchema u) as [u'|] eqn:Hu'; [left|by right].
    f_equal. by eapply userSchema_stable.
Qed.
End schema_theorems.

(** ** [filter] *)
Section filter_facts.
Context {A : Type} (P : A → Prop) `{∀ x, Decision (P x)}.

Lemma filter_all (l : list A) : Forall P l → filter P l = l.
Proof.
  induction 1 as [|x l Hx _ IH]; [done|].
  by rewrite filter_cons_True, IH.
Qed.

Lemma filter_again (l : list A) : filter P (filter P l) = filter P l.
Proof.
  apply filter_all, Forall_forall. by intros x [? _]%list_elem_of_filter.
Qed.
End filter_facts.

(** ** Movies: create, update, delete *)
Section movie_results.
Context `{env : Env}.

Lemma listMovies_run w :
  listMovies w =
    (with_movies_file w,
     match mapM movieSchema (movie_object <$> default [] (movies_file w)) with
     | Some movies => inr movies
     | None => inl ValidationError
     end).
Proof.
  unfold with_movies_file. destruct (movies_file w) as [stored|] eqn:Hfile.
  - by rewrite (listMovies_existing _ stored).
  - by rewrite listMovies_absent.
Qed.

(** X11. A successful [createMovie] adds exactly the movie it returns:
    the saved list is a rearrangement of the validated stored movies
    and the new one. The new movie has a fresh identifier, no views and
    the time of the call as createdAt and updatedAt, whatever the payload
    said about these keys; its slug is the slug of no stored movie, so
    distinct slugs stay distinct. Nothing but the movies file is
    written. *)
Theorem createMovie_adds (w w' : World) (payload : PartialMovie) (movie : Movie) :
  createMovie payload w = (w', inr movie) →
  ∃ movies saved,
    mapM movieSchema (movie_object <$> default [] (movies_file w)) = Some movies ∧
    movies_file w' = Some saved ∧
    saved ≡ₚ movies ++ [movie] ∧
    (m_slug movie ∉ m_slug <$> movies) ∧
    (NoDup (m_slug <$> movies) → NoDup (m_slug <$> saved)) ∧
    m_id movie = uuid (uuid_draws w) ∧
    m_views movie = 0 ∧
    m_createdAt movie = clock (clock_reads w) ∧
    m_updatedAt movie = clock (clock_reads w) ∧
    series_files w' = series_files w ∧ admin_file w' = admin_file w ∧
    users_file w' = users_file w ∧ history_files w' = history_files w.
Proof.
  unfold createMovie. mrun.
  destruct (movieSchema _) as [parsed|] eqn:Hparsed; mrun; [|done].
  rewrite listMovies_run. simpl.
  destruct (mapM _ _) as [movies|] eqn:Hmovies; [|done].
  case_bool_decide as Hexists; [done|].
  rewrite saveMovies_run. mrun. intros [= <- <-].
  assert (m_slug parsed ∉ m_slug <$> movies) as Hfresh.
  { intros (existing & Hslug & Hin)%list_elem_of_fmap. apply Hexists.
    apply Exists_exists. eauto. }
  apply movieSchema_record in Hparsed
    as (Hid &_&_&_&_&_&_&_&_&_&_&_& Hviews & Hc & Hu).
  simpl in *. exists movies. eexists. split; [done|]. split; [done|].
  split; [apply js_sort_perm|]. split; [done|]. split.
  { intros Hnd. rewrite js_sort_perm, fmap_app. apply NoDup_app.
    split; [done|]. split; [|apply NoDup_singleton].
    by intros slug Hin ->%list_elem_of_singleton. }
  injection Hid as Hid. injection Hc as Hc. injection Hu as Hu.
  unfold with_movies_file. simpl. by destruct (movies_file w).
Qed.

Lemma over_default {A : Type} (a : A) (b : option A) :
  over (Some a) b = Some (default a b).
Proof. by destruct b. Qed.

Lemma over_None {A : Type} (a : option A) : over a None = a.
Proof. done. Qed.

#[local] Arguments over : simpl never.

(** X12. A successful [updateMovie] replaces the first validated movie
    with the given id, where it stands, and leaves every other movie and
    the length of the list as they were. In the movie it returns and
    saves, updatedAt is the time of the call (an updatedAt of the update
    is ignored), every other key that the update supplies has the value
    of the update, validated, and every key that it does not supply has
    the value of the stored movie, validated again. *)
Theorem updateMovie_changes (w w' : World) (id : string) (update : PartialMovie)
    (updated : Movie) :
  updateMovie id update w = (w', inr updated) →
  ∃ movies i current,
    mapM movieSchema (movie_object <$> default [] (movies_file w)) = Some movies ∧
    list_find (λ movie, m_id movie = id) movies = Some (i, current) ∧
    movies_file w' = Some (<[i := updated]> movies) ∧
    m_updatedAt updated = clock (clock_reads w) ∧
    m_id updated = default (m_id current) (pm_id update) ∧
    m_title updated = sanitize (default (m_title current) (pm_title update)) ∧
    m_slug updated = sanitize (default (m_slug current) (pm_slug update)) ∧
    m_description updated =
      sanitize (default (m_description current) (pm_description update)) ∧
    m_year updated = default (m_year current) (pm_year update) ∧
    m_duration updated = default (m_duration current) (pm_duration update) ∧
    m_posterUrl updated = default (m_posterUrl current) (pm_posterUrl update) ∧
    m_streamUrl updated = default (m_streamUrl current) (pm_streamUrl update) ∧
    mapM subtitleSchema (default (m_subtitles current) (pm_subtitles update))
      = Some (m_subtitles updated) ∧
    m_categories updated = default (m_categories current) (pm_categories update) ∧
    m_published updated = default (m_published current) (pm_published update) ∧
    m_featured updated = default (m_featured current) (pm_featured update) ∧
    m_views updated = default (m_views current) (pm_views update) ∧
    m_createdAt updated = default (m_createdAt current) (pm_createdAt update) ∧
    series_files w' = series_files w ∧ admin_file w' = admin_file w ∧
    users_file w' = users_file w ∧ history_files w' = history_files w.
Proof.
  unfold updateMovie, bind at 1. rewrite listMovies_run.
  destruct (mapM _ _) as [movies|] eqn:Hmovies; [|done].
  unfold findIndex.
  destruct (list_find _ movies) as [[i current]|] eqn:Hfind; [|done].
  mrun. destruct (movieSchema _) as [parsed|] eqn:Hparsed; mrun; [|done].
  rewrite saveMovies_run. mrun. intros [= <- <-].
  exists movies, i, current. split; [done|]. split; [done|]. split; [done|].
  apply movieSchema_record in Hparsed
    as (Hid & (t & Ht & ->) & (s & Hs & ->) & (d & Hd & ->) & Hy & Hdu & Hp & Hst
        & Hsub & Hcat & -> & -> & -> & Hc & Hu).
  simpl in *. rewrite ?over_None, ?over_default in *. simpl in *. simplify_eq.
  unfold with_movies_file in *.
  destruct (movies_file w); simpl in *; repeat split; congruence.
Qed.

(** X13. [deleteMovie] never fails on an unknown id: when the stored
    movies validate it saves the validated movies other than those with
    the given id, in their order. A movie is saved exactly when it was
    stored with another id; if no movie has the id the list is saved as
    it was read; and distinct slugs stay distinct. *)
Theorem deleteMovie_removes (w : World) (id : string) (movies : list Movie) :
  mapM movieSchema (movie_object <$> default [] (movies_file w)) = Some movies →
  ∃ w' saved,
    deleteMovie id w = (w', inr ()) ∧
    movies_file w' = Some saved ∧
    saved = filter (λ movie, m_id movie ≠ id) movies ∧
    (∀ movie, movie ∈ saved ↔ movie ∈ movies ∧ m_id movie ≠ id) ∧
    ((∀ movie, movie ∈ movies → m_id movie ≠ id) → saved = movies) ∧
    (NoDup (m_slug <$> movies) → NoDup (m_slug <$> saved)) ∧
    series_files w' = series_files w ∧ admin_file w' = admin_file w ∧
    users_file w' = users_file w ∧ history_files w' = history_files w.
Proof.
  intros Hmovies. unfold deleteMovie, bind.
  rewrite listMovies_run, Hmovies, saveMovies_run.
  eexists _, _. split; [done|]. split; [done|]. split; [done|].
  split; [|split; [|split]].
  - intros movie. by rewrite list_elem_of_filter, (comm (∧)).
  - intros Hall. apply filter_all. by apply Forall_forall.
  - intros Hnd. eapply sublist_NoDup; [done|].
    apply fmap_sublist, sublist_filter.
  - unfold with_movies_file. by destruct (movies_file w).
Qed.
End movie_results.

#[local] Arguments loginSchema : simpl never.
#[local] Arguments updateUserSchema : simpl never.

(** ** Watch history: reading back *)
Section history_results.
Context `{env : Env}.

Lemma getHistory_run w username :
  getHistory username w =
    (with_history_file username w,
     match mapM historyEntrySchema (default [] (history_files w !! username)) with
     | Some history => inr history
     | None => inl ValidationError
     end).
Proof.
  unfold getHistory, with_history_file. mrun.
  destruct (history_files w !! username) as [stored|] eqn:Hfile; mrun.
  - rewrite Hfile. by destruct (mapM _ _).
  - by rewrite lookup_insert_eq.
Qed.

(** X14. [appendHistory] followed by [getHistory]: when the stored
    history and the entry validate, the history read back is the entry
    followed by the stored entries of other contents, in their order,
    and it validates again. Appending the same entry once more changes
    nothing. *)
Theorem appendHistory_read_back (w : World) (username : string)
    (entry : HistoryEntry) :
  history_valid (default [] (history_files w !! username)) →
  is_Some (historyEntrySchema entry) →
  ∃ w' saved,
    appendHistory username entry w = (w', inr ()) ∧
    saved = entry :: filter (λ item, he_contentId item ≠ he_contentId entry)
                       (default [] (history_files w !! username)) ∧
    history_valid saved ∧
    getHistory username w' = (w', inr saved) ∧
    appendHistory username entry w' = (w', inr ()).
Proof.
  intros Hvalid Hentry. rewrite appendHistory_run by done.
  set (stored := default [] (history_files w !! username)) in *.
  set (saved := entry :: filter _ stored).
  assert (history_valid saved) as Hsaved.
  { apply Forall_cons. split; [done|].
    unfold history_valid in Hvalid. rewrite Forall_forall in Hvalid.
    apply Forall_forall. intros item [_ Hin]%list_elem_of_filter. by apply Hvalid. }
  eexists _, saved. split; [done|]. split; [done|]. split; [done|].
  assert (∀ w0 : World,
            history_files (set_history_files (<[username := saved]> (history_files w0)) w0)
              !! username = Some saved) as Hlook.
  { intros w0. simpl. apply lookup_insert_eq. }
  split.
  - rewrite getHistory_run. unfold with_history_file. rewrite !Hlook.
    change (default [] (Some saved)) with saved.
    by rewrite (mapM_historyEntrySchema saved).
  - assert (filter (λ item, he_contentId item ≠ he_contentId entry) saved =
            filter (λ item, he_contentId item ≠ he_contentId entry) stored)
      as Hfilter.
    { unfold saved. rewrite filter_cons_False by (by intros ?).
      apply filter_again. }
    rewrite appendHistory_run; rewrite Hlook; [|done].
    change (default [] (Some saved)) with saved. rewrite Hfilter.
    fold saved. simpl. by rewrite insert_insert_eq.
Qed.

(** X15. [appendHistory] does not validate the entry it is given: an
    entry that [historyEntrySchema] rejects is saved all the same, and
    from then on every [getHistory] and every [appendHistory] of that
    user throws the validation error, the file staying as it is. *)
Theorem appendHistory_unvalidated (w : World) (username : string)
    (entry : HistoryEntry) :
  history_valid (default [] (history_files w !! username)) →
  historyEntrySchema entry = None →
  ∃ w' rest,
    appendHistory username entry w = (w', inr ()) ∧
    history_files w' !! username = Some (entry :: rest) ∧
    getHistory username w' = (w', inl ValidationError) ∧
    ∀ later, appendHistory username later w' = (w', inl ValidationError).
Proof.
  intros Hvalid Hentry. rewrite appendHistory_run by done.
  eexists _, _. split; [done|]. simpl. rewrite lookup_insert_eq.
  split; [done|]. split.
  - rewrite getHistory_run. unfold with_history_file. simpl.
    rewrite lookup_insert_eq. simpl. by rewrite Hentry.
  - intros later. unfold appendHistory. mrun. rewrite !lookup_insert_eq. mrun.
    rewrite lookup_insert_eq. simpl. by rewrite Hentry.
Qed.
End history_results.

(** ** Users: create, update, log in *)
Lemma find_first_elem {A : Type} (P : A → Prop) `{∀ x, Decision (P x)}
    (l : list A) x :
  find_first P l = Some x → P x ∧ x ∈ l.
Proof.
  unfold find_first. destruct (list_find P l) as [[i y]|] eqn:Hfind; [|done].
  intros [= <-]. apply list_find_Some in Hfind as (Hi & Hy & _).
  split; [done|]. by eapply list_elem_of_lookup_2.
Qed.

Section user_results.
Context `{env : Env}.

Lemma listUsers_run w :
  listUsers w =
    (with_users_file w,
     match mapM userSchema (default [] (users_file w)) with
     | Some users => inr users
     | None => inl ValidationError
     end).
Proof.
  unfold with_users_file. destruct (users_file w) as [stored|] eqn:Hfile.
  - by rewrite (listUsers_existing _ stored).
  - unfold listUsers. mrun. by rewrite !Hfile.
Qed.

Lemma listUsers_after w1 w users :
  default [] (users_file w1) = default [] (users_file w) →
  mapM userSchema (default [] (users_file w)) = Some users →
  listUsers w1 = (with_users_file w1, inr users).
Proof. intros Hsame Husers. by rewrite listUsers_run, Hsame, Husers. Qed.

Lemma getAdmin_world w : (getAdmin w).1 = w.
Proof. by rewrite getAdmin_run. Qed.

(** [findUserByUsername] on stores that validate. *)
Lemma findUserByUsername_inv username w w0 found :
  findUserByUsername username w = (w0, inr found) →
  ∃ admin,
    getAdmin w = (w, inr admin) ∧
    match admin with
    | Some a =>
        if decide (u_username a = username) then found = Some a ∧ w0 = w
        else ∃ users,
          mapM userSchema (default [] (users_file w)) = Some users ∧
          found = find_first (λ u, u_username u = username) users ∧
          w0 = with_users_file w
    | None =>
        ∃ users,
          mapM userSchema (default [] (users_file w)) = Some users ∧
          found = find_first (λ u, u_username u = username) users ∧
          w0 = with_users_file w
    end.
Proof.
  unfold findUserByUsername, bind at 1.
  pose proof (getAdmin_world w) as Hw.
  destruct (getAdmin w) as [w1 [e|admin]] eqn:Hadmin; [done|].
  simpl in Hw. subst w1. intros Hrun. exists admin. split; [done|].
  assert (∀ w0 found,
    (let! users := listUsers in
     ret (find_first (λ u, u_username u = username) users)) w = (w0, inr found) →
    ∃ users,
      mapM userSchema (default [] (users_file w)) = Some users ∧
      found = find_first (λ u, u_username u = username) users ∧
      w0 = with_users_file w) as Hamong.
  { intros w2 found2. unfold bind. rewrite listUsers_run.
    destruct (mapM _ _) as [users|]; [|done].
    unfold ret. intros [= <- <-]. by exists users. }
  destruct admin as [a|].
  - case_decide.
    + unfold ret in Hrun. by injection Hrun as <- <-.
    + by apply Hamong.
  - by apply Hamong.
Qed.

Lemma userSchema_record o u :
  userSchema o = Some u →
  is_uuid (u_id o) = true ∧
  len_between 3 64 (u_username o) = true ∧
  matches_username (u_username o) = true ∧
  u = {| u_id := u_id o; u_username := sanitize (u_username o);
         u_passwordHash := u_passwordHash o; u_role := u_role o;
         u_active := u_active o; u_createdAt := u_createdAt o;
         u_updatedAt := u_updatedAt o |}.
Proof.
  unfold userSchema, usernameSchema. intros Hp. simplify_option_eq.
  repeat match goal with
         | H : check _ = Some _ |- _ => apply check_Some in H
         end.
  repeat match goal with
         | H : _ && _ = true |- _ => apply andb_prop in H as [? ?]
         end.
  done.
Qed.

Lemma createUserSchema_record o parsed :
  createUserSchema o = Some parsed →
  len_between 3 64 (cu_username o) = true ∧
  matches_username (cu_username o) = true ∧
  len_between 8 128 (cu_password o) = true ∧
  parsed = {| cu_username := sanitize (cu_username o);
              cu_password := cu_password o;
              cu_role := Some (default RoleUser (cu_role o)) |}.
Proof.
  unfold createUserSchema, usernameSchema, passwordSchema. intros Hp.
  simplify_option_eq.
  repeat match goal with
         | H : check _ = Some _ |- _ => apply check_Some in H
         end.
  repeat match goal with
         | H : _ && _ = true |- _ => apply andb_prop in H as [? ?]
         end.
  done.
Qed.

Lemma createUser_inv w w' payload u :
  createUser payload w = (w', inr u) →
  ∃ admin users,
    is_Some (createUserSchema payload) ∧
    is_uuid (u_id u) = true ∧
    getAdmin w = (w, inr admin) ∧
    mapM userSchema (default [] (users_file w)) = Some users ∧
    (∀ a, admin = Some a → u_username a ≠ sanitize (cu_username payload)) ∧
    (∀ existing, existing ∈ users →
       u_username existing ≠ sanitize (cu_username payload)) ∧
    u_id u = uuid (uuid_draws w) ∧
    u_username u = sanitize (sanitize (cu_username payload)) ∧
    u_passwordHash u = bcrypt_hash (cu_password payload) ∧
    u_role u = default RoleUser (cu_role payload) ∧
    u_active u = true ∧
    u_createdAt u = clock (clock_reads w) ∧
    u_updatedAt u = clock (clock_reads w) ∧
    match u_role u with
    | RoleAdmin =>
        admin_file w' = Some (Some u) ∧
        users_file w' = Some (default [] (users_file w))
    | RoleUser =>
        admin_file w' = admin_file w ∧ users_file w' = Some (users ++ [u])
    end ∧
    movies_file w' = movies_file w ∧ series_files w' = series_files w ∧
    history_files w' = history_files w.
Proof.
  unfold createUser, bind at 1.
  destruct (createUserSchema payload) as [parsed|] eqn:Hparsed; [|done].
  assert (is_Some (Some parsed)) as Hvalid by done.
  apply createUserSchema_record in Hparsed as (_ & _ & _ & ->).
  simpl. unfold bind at 1.
  destruct (findUserByUsername _ w) as [w0 [e|[existing|]]] eqn:Hfind;
    [done|done|].
  apply findUserByUsername_inv in Hfind as (admin & Hadmin & Hfind).
  assert (∃ users,
            mapM userSchema (default [] (users_file w)) = Some users ∧
            (∀ a, admin = Some a → u_username a ≠ sanitize (cu_username payload)) ∧
            None = find_first (λ u, u_username u = sanitize (cu_username payload))
                     users ∧
            w0 = with_users_file w) as (users & Husers & Hno_admin & Hnone & ->).
  { destruct admin as [a|].
    - case_decide as Ha; [by destruct Hfind|].
      destruct Hfind as (users & ? & ? & ?). exists users.
      split; [done|]. split; [|done]. by intros ? [= <-].
    - destruct Hfind as (users & ? & ? & ?). exists users.
      split; [done|]. split; [|done]. by intros ? [=]. }
  mrun. destruct (userSchema _) as [u0|] eqn:Hu; mrun; [|done].
  apply userSchema_record in Hu as (Huuid & _ & _ & ->). simpl in *.
  assert (is_uuid (uuid (uuid_draws w)) = true) as Huuid'.
  { revert Huuid. unfold with_users_file. by destruct (users_file w). }
  assert (∀ existing, existing ∈ users →
            u_username existing ≠ sanitize (cu_username payload)) as Hno_user.
  { intros existing Hin Hname. unfold find_first in Hnone.
    destruct (list_find _ users) as [[i x]|] eqn:Hlf; [done|].
    eapply list_find_None in Hlf. rewrite Forall_forall in Hlf.
    by apply (Hlf existing). }
  destruct (default RoleUser (cu_role payload)) eqn:Hrole.
  - unfold with_users_file.
    destruct (admin_file w) as [stored|] eqn:Hfile, (users_file w) eqn:Hfile';
      mrun; rewrite ?Hfile; mrun; intros [= <- <-]; exists admin, users;
      simpl; repeat split; done.
  - erewrite (listUsers_after _ w users);
      [|unfold with_users_file;
        destruct (users_file w) eqn:Hfile'; simpl; by rewrite ?Hfile'|done].
    unfold with_users_file.
    destruct (users_file w) eqn:Hfile'; simpl; rewrite ?Hfile';
      intros [= <- <-]; exists admin, users; simpl; repeat split; done.
Qed.

(** X16. A successful [createUser] has found the name taken neither by
    the administrator nor by a user. The record it returns is active,
    carries a fresh identifier, the hash of the password, the role asked
    for (user when none is) and the time of the call as createdAt and
    updatedAt. A user is appended to the validated users; an
    administrator replaces whatever the admin file held, and the users
    are left alone. *)
Theorem createUser_adds (w w' : World) (payload : CreateUserPayload)
    (u : UserRecord) :
  createUser payload w = (w', inr u) →
  ∃ admin users,
    is_Some (createUserSchema payload) ∧
    is_uuid (u_id u) = true ∧
    getAdmin w = (w, inr admin) ∧
    mapM userSchema (default [] (users_file w)) = Some users ∧
    (∀ a, admin = Some a → u_username a ≠ sanitize (cu_username payload)) ∧
    (∀ existing, existing ∈ users →
       u_username existing ≠ sanitize (cu_username payload)) ∧
    u_id u = uuid (uuid_draws w) ∧
    u_username u = sanitize (sanitize (cu_username payload)) ∧
    u_passwordHash u = bcrypt_hash (cu_password payload) ∧
    u_role u = default RoleUser (cu_role payload) ∧
    u_active u = true ∧
    u_createdAt u = clock (clock_reads w) ∧
    u_updatedAt u = clock (clock_reads w) ∧
    match u_role u with
    | RoleAdmin =>
        admin_file w' = Some (Some u) ∧
        users_file w' = Some (default [] (users_file w))
    | RoleUser =>
        admin_file w' = admin_file w ∧ users_file w' = Some (users ++ [u])
    end ∧
    movies_file w' = movies_file w ∧ series_files w' = series_files w ∧
    history_files w' = history_files w.
Proof. apply createUser_inv. Qed.
Lemma updateUserSchema_record o parsed :
  updateUserSchema o = Some parsed →
  parsed = o ∧
  ∀ password, uu_password o = Some password →
              len_between 8 128 password = true.
Proof.
  unfold updateUserSchema, passwordSchema. intros Hp.
  destruct o as [[password|] active role]; simplify_option_eq.
  - split; [done|]. intros ? [= <-]. by eapply check_Some.
  - split; [done|]. by intros ? [=].
Qed.

Lemma len_between_nonempty lo hi s :
  (0 < lo)%nat → len_between lo hi s = true → s ≠ String.EmptyString.
Proof.
  intros Hlo Hlen ->. unfold len_between in Hlen. simpl in Hlen.
  apply andb_prop in Hlen as [Hlen _]. apply Nat.leb_le in Hlen. lia.
Qed.

Lemma applyUserUpdate_inv user update w w' updated :
  (∀ password, uu_password update = Some password →
               len_between 8 128 password = true) →
  applyUserUpdate user update w = (w', inr updated) →
  w' = set_clock_reads (S (clock_reads w)) w ∧
  updated =
    {| u_id := u_id user; u_username := sanitize (u_username user);
       u_passwordHash := match uu_password update with
                         | Some password => bcrypt_hash password
                         | None => u_passwordHash user
                         end;
       u_role := default (u_role user) (uu_role update);
       u_active := default (u_active user) (uu_active update);
       u_createdAt := u_createdAt user;
       u_updatedAt := clock (clock_reads w) |}.
Proof.
  intros Hpw. unfold applyUserUpdate. mrun.
  destruct (userSchema _) as [u|] eqn:Hu; mrun; [|done].
  intros [= <- <-]. split; [done|].
  apply userSchema_record in Hu as (_ & _ & _ & ->). simpl.
  destruct (uu_password update) as [password|]; [|done].
  rewrite decide_False; [done|].
  apply (len_between_nonempty 8 128); [lia|]. by apply Hpw.
Qed.

Lemma updateUser_inv w w' username update updated :
  updateUser username update w = (w', inr updated) →
  ∃ admin user,
    getAdmin w = (w, inr admin) ∧
    u_username user = username ∧
    updated =
      {| u_id := u_id user; u_username := sanitize (u_username user);
         u_passwordHash := match uu_password update with
                           | Some password => bcrypt_hash password
                           | None => u_passwordHash user
                           end;
         u_role := default (u_role user) (uu_role update);
         u_active := default (u_active user) (uu_active update);
         u_createdAt := u_createdAt user;
         u_updatedAt := clock (clock_reads w) |} ∧
    ((admin = Some user ∧
      admin_file w' = Some (Some updated) ∧ users_file w' = users_file w) ∨
     ((∀ a, admin = Some a → u_username a ≠ username) ∧
      ∃ users i,
        mapM userSchema (default [] (users_file w)) = Some users ∧
        list_find (λ u, u_username u = username) users = Some (i, user) ∧
        users_file w' = Some (<[i := updated]> users) ∧
        admin_file w' = admin_file w)) ∧
    movies_file w' = movies_file w ∧ series_files w' = series_files w ∧
    history_files w' = history_files w ∧ uuid_draws w' = uuid_draws w.
Proof.
  unfold updateUser, bind at 1.
  destruct (updateUserSchema update) as [parsed|] eqn:Hparsed; [|done].
  apply updateUserSchema_record in Hparsed as [-> Hpw]. simpl.
  unfold bind at 1. rewrite getAdmin_run.
  set (admin_result := match admin_file w with
                       | Some (Some a) => _
                       | _ => _
                       end).
  destruct admin_result as [e|admin] eqn:Hadmin; [done|].
  assert (∀ w0 updated0,
    (let! users := listUsers in
     match findIndex (λ user, u_username user = username) users with
     | None => throw NotFound
     | Some (index, user) =>
         let! updated := applyUserUpdate user update in
         let! _ := withFileLock USERS_FILE
                     (writeJsonFile USERS_FILE (<[index := updated]> users)) in
         ret updated
     end) w = (w0, inr updated0) →
    ∃ user users i,
      u_username user = username ∧
      updated0 =
        {| u_id := u_id user; u_username := sanitize (u_username user);
           u_passwordHash := match uu_password update with
                             | Some password => bcrypt_hash password
                             | None => u_passwordHash user
                             end;
           u_role := default (u_role user) (uu_role update);
           u_active := default (u_active user) (uu_active update);
           u_createdAt := u_createdAt user;
           u_updatedAt := clock (clock_reads w) |} ∧
      mapM userSchema (default [] (users_file w)) = Some users ∧
      list_find (λ u, u_username u = username) users = Some (i, user) ∧
      users_file w0 = Some (<[i := updated0]> users) ∧
      admin_file w0 = admin_file w ∧
      movies_file w0 = movies_file w ∧ series_files w0 = series_files w ∧
      history_files w0 = history_files w ∧ uuid_draws w0 = uuid_draws w)
    as Hamong.
  { intros w0 updated0. unfold bind at 1. rewrite listUsers_run.
    destruct (mapM _ _) as [users|] eqn:Husers; [|done].
    unfold findIndex.
    destruct (list_find _ users) as [[i user]|] eqn:Hfind; [|done].
    unfold bind at 1.
    destruct (applyUserUpdate user update (with_users_file w))
      as [w1 [e|u1]] eqn:Happly; [done|].
    apply applyUserUpdate_inv in Happly as [-> ->]; [|done].
    mrun. intros [= <- <-].
    pose proof Hfind as (_ & Hname & _)%list_find_Some.
    exists user, users, i. unfold with_users_file.
    destruct (users_file w); simpl; repeat split; done. }
  intros Hrun. exists admin.
  assert (getAdmin w = (w, inr admin)) as Hget.
  { rewrite getAdmin_run. fold admin_result. by rewrite Hadmin. }
  destruct admin as [a|].
  - case_decide as Ha.
    + unfold bind at 1 in Hrun.
      destruct (applyUserUpdate a update w) as [w1 [e|u1]] eqn:Happly; [done|].
      apply applyUserUpdate_inv in Happly as [-> ->]; [|done].
      mrun_in Hrun. injection Hrun as <- <-.
      exists a. split; [done|]. split; [done|]. split; [done|].
      split; [by left|]. done.
    + apply Hamong in Hrun
        as (user & users & i & Hname & -> & Husers & Hfind & Hsaved & Hsame & Hrest).
      exists user. split; [done|]. split; [done|]. split; [done|].
      split; [|done]. right. split; [by intros ? [= <-]|].
      by exists users, i.
  - apply Hamong in Hrun
      as (user & users & i & Hname & -> & Husers & Hfind & Hsaved & Hsame & Hrest).
    exists user. split; [done|]. split; [done|]. split; [done|].
    split; [|done]. right. split; [by intros ? [=]|].
    by exists users, i.
Qed.

(** X17. A successful [updateUser] rewrites one record where it stands:
    the administrator when the name is theirs, or else the first
    validated user of that name, whose place in the list it keeps. The
    record keeps its id, its name (validated again) and its createdAt;
    the hash changes exactly when the update brings a password; role and
    active flag are those of the update where it brings them; updatedAt
    is the time of the call. A change of role moves no record from one
    file to the other. *)
Theorem updateUser_changes (w w' : World) (username : string)
    (update : UserUpdate) (updated : UserRecord) :
  updateUser username update w = (w', inr updated) →
  ∃ admin user,
    getAdmin w = (w, inr admin) ∧
    u_username user = username ∧
    updated =
      {| u_id := u_id user; u_username := sanitize (u_username user);
         u_passwordHash := match uu_password update with
                           | Some password => bcrypt_hash password
                           | None => u_passwordHash user
                           end;
         u_role := default (u_role user) (uu_role update);
         u_active := default (u_active user) (uu_active update);
         u_createdAt := u_createdAt user;
         u_updatedAt := clock (clock_reads w) |} ∧
    ((admin = Some user ∧
      admin_file w' = Some (Some updated) ∧ users_file w' = users_file w) ∨
     ((∀ a, admin = Some a → u_username a ≠ username) ∧
      ∃ users i,
        mapM userSchema (default [] (users_file w)) = Some users ∧
        list_find (λ u, u_username u = username) users = Some (i, user) ∧
        users_file w' = Some (<[i := updated]> users) ∧
        admin_file w' = admin_file w)) ∧
    movies_file w' = movies_file w ∧ series_files w' = series_files w ∧
    history_files w' = history_files w ∧ uuid_draws w' = uuid_draws w.
Proof. apply updateUser_inv. Qed.
End user_results.

Section login_results.
Context `{env : Env} `{bcrypt : Bcrypt}.

Lemma loginSchema_record username password parsed :
  loginSchema username password = Some parsed →
  len_between 3 64 username = true ∧
  matches_username username = true ∧
  len_between 8 128 password = true ∧
  parsed = (sanitize username, password).
Proof.
  unfold loginSchema, usernameSchema, passwordSchema. intros Hp.
  simplify_option_eq.
  repeat match goal with
         | H : check _ = Some _ |- _ => apply check_Some in H
         end.
  repeat match goal with
         | H : _ && _ = true |- _ => apply andb_prop in H as [? ?]
         end.
  done.
Qed.

(** [verifyCredentials] once the name and the password have passed
    [loginSchema]: the administrator is tried first, then the users. *)
Lemma verifyCredentials_admin username password w name pw a :
  loginSchema username password = Some (name, pw) →
  getAdmin w = (w, inr (Some a)) →
  u_username a = name →
  verifyCredentials username password w =
    (w, inr (if u_active a && bcrypt_compare pw (u_passwordHash a)
             then Some a else None)).
Proof.
  intros Hlogin Hadmin Hname. unfold verifyCredentials, bind at 1.
  rewrite Hlogin. simpl. unfold bind at 1, findUserByUsername, bind at 1.
  rewrite Hadmin. rewrite decide_True by done. unfold ret at 1.
  destruct (u_active a); simpl; [|done].
  by destruct (bcrypt_compare _ _).
Qed.

Lemma verifyCredentials_users username password w name pw admin users :
  loginSchema username password = Some (name, pw) →
  getAdmin w = (w, inr admin) →
  (∀ a, admin = Some a → u_username a ≠ name) →
  mapM userSchema (default [] (users_file w)) = Some users →
  verifyCredentials username password w =
    (with_users_file w,
     inr (match find_first (λ u, u_username u = name) users with
          | Some user =>
              if u_active user && bcrypt_compare pw (u_passwordHash user)
              then Some user else None
          | None => None
          end)).
Proof.
  intros Hlogin Hadmin Hno Husers. unfold verifyCredentials, bind at 1.
  rewrite Hlogin. simpl. unfold bind at 1, findUserByUsername, bind at 1.
  rewrite Hadmin.
  assert ((let! users := listUsers in
           ret (find_first (λ u, u_username u = name) users)) w =
          (with_users_file w,
           inr (find_first (λ u, u_username u = name) users))) as Hamong.
  { unfold bind. by rewrite listUsers_run, Husers. }
  destruct admin as [a|].
  - rewrite decide_False by (by apply Hno). rewrite Hamong.
    destruct (find_first _ users) as [user|]; [|done].
    destruct (u_active user); simpl; [|done].
    by destruct (bcrypt_compare _ _).
  - rewrite Hamong.
    destruct (find_first _ users) as [user|]; [|done].
    destruct (u_active user); simpl; [|done].
    by destruct (bcrypt_compare _ _).
Qed.

(** X18. [verifyCredentials] returns a user only if the stored record
    that the name reaches (the administrator first, then the users) is
    active and [bcrypt.compare] accepts the password against its hash;
    the user returned is that record. It changes no record: at most the
    missing users file is created, empty. *)
Theorem verifyCredentials_sound (w w' : World) (username password : string)
    (result : option UserRecord) :
  verifyCredentials username password w = (w', inr result) →
  (∀ user, result = Some user →
     u_active user = true ∧
     u_username user = sanitize username ∧
     bcrypt_compare password (u_passwordHash user) = true ∧
     ∃ admin,
       getAdmin w = (w, inr admin) ∧
       (admin = Some user ∨
        ∃ users, mapM userSchema (default [] (users_file w)) = Some users ∧
                 user ∈ users)) ∧
  admin_file w' = admin_file w ∧
  default [] (users_file w') = default [] (users_file w) ∧
  movies_file w' = movies_file w ∧ series_files w' = series_files w ∧
  history_files w' = history_files w ∧
  clock_reads w' = clock_reads w ∧ uuid_draws w' = uuid_draws w.
Proof.
  unfold verifyCredentials, bind at 1.
  destruct (loginSchema username password) as [parsed|] eqn:Hlogin; [|done].
  apply loginSchema_record in Hlogin as (_ & _ & _ & ->). simpl.
  unfold bind at 1.
  destruct (findUserByUsername _ w) as [w0 [e|found]] eqn:Hfind; [done|].
  apply findUserByUsername_inv in Hfind as (admin & Hadmin & Hfind).
  assert (w0 = w ∨ w0 = with_users_file w) as Hw0.
  { destruct admin as [a|]; [case_decide|].
    - left. by destruct Hfind.
    - right. by destruct Hfind as (? & ? & ? & ?).
    - right. by destruct Hfind as (? & ? & ? & ?). }
  assert (admin_file w0 = admin_file w ∧
          default [] (users_file w0) = default [] (users_file w) ∧
          movies_file w0 = movies_file w ∧ series_files w0 = series_files w ∧
          history_files w0 = history_files w ∧
          clock_reads w0 = clock_reads w ∧ uuid_draws w0 = uuid_draws w)
    as Hframe.
  { destruct Hw0 as [->| ->]; [done|]. unfold with_users_file.
    destruct (users_file w) eqn:Hfile; simpl; by rewrite ?Hfile. }
  assert (∀ user, found = Some user →
            u_username user = sanitize username ∧
            (admin = Some user ∨
             ∃ users, mapM userSchema (default [] (users_file w)) = Some users ∧
                      user ∈ users)) as Hfound.
  { intros user ->.
    assert (∀ users,
              Some user = find_first (λ u, u_username u = sanitize username) users →
              u_username user = sanitize username ∧ user ∈ users) as Hin.
    { intros users Hf. symmetry in Hf. by apply find_first_elem in Hf. }
    destruct admin as [a|].
    - case_decide as Ha.
      + destruct Hfind as [[= <-] _]. split; [done|]. by left.
      + destruct Hfind as (users & Husers & Hf & _).
        apply Hin in Hf as [Hname Helem]. split; [done|]. right.
        by exists users.
    - destruct Hfind as (users & Husers & Hf & _).
      apply Hin in Hf as [Hname Helem]. split; [done|]. right.
      by exists users. }
  destruct found as [user|].
  - destruct (u_active user) eqn:Hactive; simpl.
    + destruct (bcrypt_compare password (u_passwordHash user)) eqn:Hmatch.
      * unfold ret. intros [= <- <-]. split; [|done].
        intros ? [= <-]. destruct (Hfound user eq_refl) as [Hname Hwhere].
        split; [done|]. split; [done|]. split; [done|]. by exists admin.
      * unfold ret. intros [= <- <-]. split; [|done]. by intros ? [=].
    + unfold ret. intros [= <- <-]. split; [|done]. by intros ? [=].
  - unfold ret. intros [= <- <-]. split; [|done]. by intros ? [=].
Qed.
End login_results.

Section login_compositions.
Context `{env : Env} `{bcrypt : Bcrypt}.
Context (sanitize_names : ∀ s, matches_username s = true → sanitize s = s).

Lemma userSchema_accepts o :
  is_uuid (u_id o) = true → len_between 3 64 (u_username o) = true →
  matches_username (u_username o) = true →
  userSchema o = Some o.
Proof.
  intros Hid Hlen Hname. unfold userSchema, usernameSchema.
  rewrite Hid, Hlen, Hname. simpl. rewrite (sanitize_names _ Hname).
  by destruct o.
Qed.

Lemma userSchema_fixed o u :
  userSchema o = Some u →
  u = o ∧ userSchema u = Some u ∧ matches_username (u_username u) = true.
Proof.
  intros Hu. pose proof Hu as (Hid & Hlen & Hname & ->)%userSchema_record.
  rewrite (sanitize_names _ Hname).
  assert ({| u_id := u_id o; u_username := u_username o;
             u_passwordHash := u_passwordHash o; u_role := u_role o;
             u_active := u_active o; u_createdAt := u_createdAt o;
             u_updatedAt := u_updatedAt o |} = o) as -> by (by destruct o).
  split; [done|]. split; [|done]. by apply userSchema_accepts.
Qed.

Lemma mapM_userSchema_fixed stored users :
  mapM userSchema stored = Some users →
  Forall (λ u, userSchema u = Some u ∧ matches_username (u_username u) = true)
         users.
Proof.
  intros Hparse%mapM_Some.
  induction Hparse as [|o u l k Hu _ IH]; constructor; [|done].
  by apply userSchema_fixed in Hu as (_ & ? & ?).
Qed.

Lemma mapM_fixed {A : Type} (f : A → option A) (l : list A) :
  Forall (λ x, f x = Some x) l → mapM f l = Some l.
Proof.
  intros Hl. apply mapM_Some. induction Hl; by constructor.
Qed.

Lemma getAdmin_Some w w' user :
  getAdmin w = (w', inr (Some user)) →
  ∃ a, admin_file w = Some (Some a) ∧ userSchema a = Some user.
Proof.
  rewrite getAdmin_run. destruct (admin_file w) as [[a|]|]; [|done|done].
  destruct (userSchema a) as [a'|] eqn:Ha; [|done].
  intros [= _ <-]. by exists a.
Qed.

Lemma getAdmin_stored w user :
  admin_file w = Some (Some user) → userSchema user = Some user →
  getAdmin w = (w, inr (Some user)).
Proof. intros Hfile Hu. by rewrite getAdmin_run, Hfile, Hu. Qed.

Lemma getAdmin_same w w1 admin :
  admin_file w1 = admin_file w → getAdmin w = (w, inr admin) →
  getAdmin w1 = (w1, inr admin).
Proof.
  intros Hfile. rewrite !getAdmin_run, Hfile. by intros [= ->].
Qed.

Lemma loginSchema_accepts username password :
  len_between 3 64 username = true → matches_username username = true →
  len_between 8 128 password = true →
  loginSchema username password = Some (username, password).
Proof.
  intros Hlen Hname Hpw. unfold loginSchema, usernameSchema, passwordSchema.
  rewrite Hlen, Hname, Hpw. simpl. by rewrite (sanitize_names _ Hname).
Qed.

(** X19. A deactivated account cannot log in. After a successful
    [updateUser] whose update carries [active: false], [verifyCredentials]
    with that name returns no user whatever the password (and throws the
    validation error when the name or the password does not pass
    [loginSchema]); it changes nothing. The sanitiser is taken to leave
    strings of the username alphabet as they are. *)
Theorem deactivated_cannot_login (w w1 : World) (username password : string)
    (update : UserUpdate) (updated : UserRecord) :
  uu_active update = Some false →
  updateUser username update w = (w1, inr updated) →
  verifyCredentials username password w1 =
    (w1, match loginSchema username password with
         | Some _ => inr None
         | None => inl ValidationError
         end).
Proof.
  intros Hactive Hrun.
  destruct (loginSchema username password) as [parsed|] eqn:Hlogin.
  2:{ unfold verifyCredentials, bind. by rewrite Hlogin. }
  pose proof Hlogin as (Hlen & Hmatches & _ & ->)%loginSchema_record.
  rewrite (sanitize_names _ Hmatches) in Hlogin.
  apply updateUser_inv in Hrun
    as (admin & user & Hget & Hname & Hupdated & Hcases & _).
  rewrite Hname, (sanitize_names _ Hmatches), Hactive in Hupdated.
  simpl in Hupdated.
  assert (is_uuid (u_id user) = true) as Huuid.
  { destruct Hcases as [(-> & _)|(_ & users & i & Husers & Hfind & _)].
    - apply getAdmin_Some in Hget as (a & _ & Ha).
      pose proof (userSchema_fixed _ _ Ha) as (-> & _).
      by apply userSchema_record in Ha as (? & _).
    - apply list_find_Some in Hfind as (Hi & _).
      apply mapM_Some in Husers.
      destruct (Forall2_lookup_r _ _ _ _ _ Husers Hi) as (o & _ & Ho).
      pose proof (userSchema_fixed _ _ Ho) as (-> & _).
      by apply userSchema_record in Ho as (? & _). }
  assert (userSchema updated = Some updated) as Hfixed.
  { apply userSchema_accepts; by rewrite Hupdated. }
  assert (u_username updated = username) as Hname' by (by rewrite Hupdated).
  assert (u_active updated = false) as Hinactive by (by rewrite Hupdated).
  destruct Hcases as [(-> & Hadmin & _)|(Hno & users & i & Husers & Hfind & Hsaved & Hadmin)].
  - rewrite (verifyCredentials_admin _ _ _ _ _ updated Hlogin);
      [by rewrite Hinactive|by apply getAdmin_stored|done].
  - rewrite (verifyCredentials_users _ _ _ _ _ admin (<[i := updated]> users) Hlogin).
    + rewrite (find_first_insert _ _ _ _ _ Hfind Hname'), Hinactive. simpl.
      unfold with_users_file. by rewrite Hsaved.
    + by eapply getAdmin_same.
    + done.
    + rewrite Hsaved. simpl. apply mapM_fixed, Forall_insert; [|done].
      eapply Forall_impl; [by eapply mapM_userSchema_fixed|]. by intros ? [? _].
Qed.

(** X20. A user that [createUser] has returned can log in: with a
    [bcrypt.compare] that accepts a password against its own hash,
    [verifyCredentials] with the name and the password of the payload
    returns the record that [createUser] returned, and changes nothing.
    The sanitiser is taken to leave strings of the username alphabet as
    they are. *)
Theorem created_user_can_login (w w' : World) (payload : CreateUserPayload)
    (u : UserRecord) :
  (∀ password, bcrypt_compare password (bcrypt_hash password) = true) →
  createUser payload w = (w', inr u) →
  verifyCredentials (cu_username payload) (cu_password payload) w' =
    (w', inr (Some u)).
Proof.
  intros Hcompare Hrun.
  apply createUser_inv in Hrun
    as (admin & users & [parsed Hparsed] & Huuid & Hget & Husers & Hno_admin
        & Hno_user & _ & Hname & Hhash & _ & Hactive & _ & _ & Hsaved & _).
  apply createUserSchema_record in Hparsed as (Hlen & Hmatches & Hpw & _).
  rewrite !(sanitize_names _ Hmatches) in *.
  assert (userSchema u = Some u) as Hfixed.
  { apply userSchema_accepts; by rewrite ?Hname. }
  pose proof (loginSchema_accepts _ _ Hlen Hmatches Hpw) as Hlogin.
  destruct (u_role u).
  - destruct Hsaved as [Hadmin _].
    rewrite (verifyCredentials_admin _ _ _ _ _ u Hlogin);
      [|by apply getAdmin_stored|done].
    by rewrite Hactive, Hhash, Hcompare.
  - destruct Hsaved as [Hadmin Hfile].
    rewrite (verifyCredentials_users _ _ _ _ _ admin (users ++ [u]) Hlogin).
    + rewrite find_first_snoc; [| |done].
      * rewrite Hactive, Hhash, Hcompare. simpl.
        unfold with_users_file. by rewrite Hfile.
      * apply list_find_None, Forall_forall. intros x Hx. by apply Hno_user.
    + by eapply getAdmin_same.
    + done.
    + rewrite Hfile. simpl. apply mapM_fixed, Forall_app. split.
      * eapply Forall_impl; [by eapply mapM_userSchema_fixed|]. by intros ? [? _].
      * by constructor.
Qed.
End login_compositions.

(** ** Series: update and listing *)
Section series_results.
Context `{env : Env}.

(** X21. A successful [updateSeries] validates the series read from the
    file with the keys of the update written over it: keys that the
    update does not supply keep the value read. Two keys are not the
    update's to set: the slug is the slug of the call and updatedAt is
    the time of the call. With an idempotent sanitiser an update without
    seasons returns the seasons exactly as read. The series is saved
    under its slug and nothing else is written. *)
Theorem updateSeries_changes (w w' : World) (slug : string)
    (update : PartialSeries) (merged : Series) :
  updateSeries slug update w = (w', inr merged) →
  ∃ existing,
    readSeriesFile slug w = (w, inr (Some existing)) ∧
    s_slug merged = sanitize slug ∧
    s_updatedAt merged = clock (clock_reads w) ∧
    s_id merged = default (s_id existing) (ps_id update) ∧
    s_name merged = sanitize (default (s_name existing) (ps_name update)) ∧
    s_description merged =
      sanitize (default (s_description existing) (ps_description update)) ∧
    s_posterUrl merged = default (s_posterUrl existing) (ps_posterUrl update) ∧
    s_categories merged = default (s_categories existing) (ps_categories update) ∧
    mapM seasonSchema
      (default (season_object <$> s_seasons existing) (ps_seasons update))
      = Some (s_seasons merged) ∧
    s_published merged = default (s_published existing) (ps_published update) ∧
    s_featured merged = default (s_featured existing) (ps_featured update) ∧
    s_createdAt merged = default (s_createdAt existing) (ps_createdAt update) ∧
    ((∀ s, sanitize (sanitize s) = sanitize s) → ps_seasons update = None →
     s_seasons merged = s_seasons existing) ∧
    series_files w' = <[s_slug merged := merged]> (series_files w) ∧
    movies_file w' = movies_file w ∧ admin_file w' = admin_file w ∧
    users_file w' = users_file w ∧ history_files w' = history_files w ∧
    uuid_draws w' = uuid_draws w.
Proof.
  unfold updateSeries, bind at 1. rewrite readSeriesFile_run.
  destruct (series_files w !! slug) as [data|] eqn:Hfile; [|done].
  destruct (seriesSchema (series_object data)) as [existing|] eqn:Hexisting;
    [|done].
  unfold saveSeries. mrun.
  destruct (seriesSchema (updatedSeriesObject _ _ _ _)) as [parsed|] eqn:Hparsed;
    mrun; [|done].
  intros [= <- <-]. exists existing. split; [done|].
  pose proof Hparsed as (seasons & Hseasons & Hrecord)%seriesSchema_record.
  pose proof Hexisting as (_&_&_& Hseasons0 &_)%seriesSchema_fields.
  simpl in *. rewrite Hrecord. simpl. repeat split; try done.
  intros Hidem Hnone. rewrite Hnone in Hseasons. simpl in Hseasons.
  by eapply mapM_seasonSchema_stable.
Qed.
Lemma listSeries_fold (l : list (string * Series)) acc w :
  (∀ slug data, (slug, data) ∈ l → series_files w !! slug = Some data) →
  forM_fold (λ series file,
               let! record := readSeriesFile file in
               ret (match record with
                    | Some record => series ++ [record]
                    | None => series
                    end)) l.*1 acc w =
    (w, match mapM (λ kv, seriesSchema (series_object kv.2)) l with
        | Some parsed => inr (acc ++ parsed)
        | None => inl ValidationError
        end).
Proof.
  revert acc. induction l as [|[slug data] l IH]; intros acc Hfiles.
  - simpl. unfold ret. by rewrite app_nil_r.
  - rewrite fmap_cons. cbn [forM_fold fst]. unfold bind at 1, bind at 1.
    rewrite readSeriesFile_run, (Hfiles slug data) by (by left).
    change (mapM (λ kv, seriesSchema (series_object kv.2)) ((slug, data) :: l))
      with (y ← seriesSchema (series_object data);
            k ← mapM (λ kv, seriesSchema (series_object kv.2)) l;
            mret (y :: k)).
    destruct (seriesSchema (series_object data)) as [series|]; [|done].
    unfold ret at 1. rewrite IH.
    + simpl. destruct (mapM _ l) as [parsed|]; [|done].
      simpl. by rewrite <-app_assoc.
    + intros slug' data' Hin. apply Hfiles. by right.
Qed.

Lemma listSeries_run w :
  listSeries w =
    (w, match mapM (λ kv, seriesSchema (series_object kv.2))
                   (map_to_list (series_files w)) with
        | Some parsed =>
            inr (js_sort (λ a b, localeCompare (s_name a) (s_name b)) parsed)
        | None => inl ValidationError
        end).
Proof.
  unfold listSeries, bind at 1, readdir_series, bind at 1.
  rewrite listSeries_fold.
  - by destruct (mapM _ _).
  - intros slug data. apply elem_of_map_to_list.
Qed.

(** X22. [listSeries] is all or nothing. When every series file
    validates it returns one validated series per file, and a series is
    listed exactly when it is the validated content of some file; when
    one file does not validate the call throws the validation error and
    lists nothing. In both cases no file is touched. *)
Theorem listSeries_all_or_nothing (w : World) :
  ((∀ slug data, series_files w !! slug = Some data →
                 is_Some (seriesSchema (series_object data))) →
   ∃ result,
     listSeries w = (w, inr result) ∧
     length result = size (series_files w) ∧
     ∀ series, series ∈ result ↔
               ∃ slug data, series_files w !! slug = Some data ∧
                            seriesSchema (series_object data) = Some series) ∧
  (∀ slug data, series_files w !! slug = Some data →
                seriesSchema (series_object data) = None →
                listSeries w = (w, inl ValidationError)).
Proof.
  split.
  - intros Hvalid. rewrite listSeries_run.
    destruct (mapM _ _) as [parsed|] eqn:Hparsed.
    + eexists. split; [done|]. apply mapM_Some in Hparsed.
      split.
      * rewrite js_sort_perm, <-(Forall2_length _ _ _ Hparsed).
        apply length_map_to_list.
      * intros series. rewrite js_sort_perm. split.
        -- intros [i Hi]%list_elem_of_lookup.
           destruct (Forall2_lookup_r _ _ _ _ _ Hparsed Hi)
             as ([slug data] & Hkv & Hseries).
           exists slug, data. split; [|done].
           apply elem_of_map_to_list. by eapply list_elem_of_lookup_2.
        -- intros (slug & data & Hfile & Hseries).
           apply elem_of_map_to_list, list_elem_of_lookup in Hfile as [i Hi].
           destruct (Forall2_lookup_l _ _ _ _ _ Hparsed Hi)
             as (series' & Hlook & Hseries').
           simpl in Hseries'. rewrite Hseries in Hseries'.
           injection Hseries' as <-. by eapply list_elem_of_lookup_2.
    + apply mapM_None, Exists_exists in Hparsed as ([slug data] & Hin & Hnone).
      apply elem_of_map_to_list in Hin. destruct (Hvalid _ _ Hin) as [? Hsome].
      simpl in Hnone. by rewrite Hsome in Hnone.
  - intros slug data Hfile Hnone. rewrite listSeries_run.
    destruct (mapM _ _) as [parsed|] eqn:Hparsed; [|done].
    apply mapM_Some in Hparsed.
    apply elem_of_map_to_list, list_elem_of_lookup in Hfile as [i Hi].
    destruct (Forall2_lookup_l _ _ _ _ _ Hparsed Hi) as (series & _ & Hseries).
    simpl in Hseries. by rewrite Hnone in Hseries.
Qed.
End series_results.

(** ** Targets that do not exist *)
Section not_found.
Context `{env : Env}.

End not_found.

(** Unfolds the monad and the file operations of the category store. *)
Ltac crun :=
  repeat progress
    (unfold Categories.ensureJsonFile, Categories.readJsonFile,
       Categories.writeJsonFile, Categories.existsSync,
       Categories.withFileLock, Categories.parse, Categories.bind,
       Categories.ret, Categories.throw, Categories.lift, randomUUID;
     simpl).

#[local] Arguments categorySchema : simpl never.

(** ** Categories *)
Section category_facts.
Context `{env : Env}.

Lemma categorySchema_record o c :
  categorySchema o = Some c →
  pc_id o = Some (c_id c) ∧
  (∃ name, pc_name o = Some name ∧ c_name c = sanitize name) ∧
  (∃ slug, pc_slug o = Some slug ∧ c_slug c = sanitize slug) ∧
  pc_order o = Some (c_order c).
Proof.
  unfold categorySchema, sanitizedString, sanitizedSlug. intros H.
  simplify_option_eq. repeat split; eauto.
Qed.

Lemma listCategories_run s :
  Categories.listCategories s =
    (with_categories_file s,
     match mapM categorySchema
             (category_object <$> default [] (Categories.categories_file s)) with
     | Some categories => inr categories
     | None => inl ValidationError
     end).
Proof.
  unfold Categories.listCategories, with_categories_file. crun.
  destruct (Categories.categories_file s) as [stored|] eqn:Hfile; crun.
  - rewrite Hfile. by destruct (mapM _ _).
  - done.
Qed.

Lemma saveCategories_run s categories :
  Categories.saveCategories categories s =
    ({| Categories.files := Categories.files s;
        Categories.categories_file := Some categories |}, inr ()).
Proof.
  unfold Categories.saveCategories. crun.
  by destruct (Categories.categories_file s).
Qed.

Lemma compareCategories_le a b :
  Categories.compareCategories a b ≤ 0 → c_order a ≤ c_order b.
Proof. unfold Categories.compareCategories. case_decide; lia. Qed.

Lemma compareCategories_gt a b :
  ¬ Categories.compareCategories a b ≤ 0 → c_order b ≤ c_order a.
Proof. unfold Categories.compareCategories. case_decide; lia. Qed.

Lemma js_insert_order_sorted x l :
  Sorted Z.le (c_order <$> l) →
  Sorted Z.le (c_order <$> js_insert Categories.compareCategories x l).
Proof.
  induction l as [|y l IH]; simpl; intros Hs.
  - by repeat constructor.
  - destruct (decide (Categories.compareCategories x y ≤ 0)) as [Hxy|Hxy]; simpl.
    + constructor; [done|]. constructor. by apply compareCategories_le.
    + apply Sorted_inv in Hs as [Hs Hhd]. constructor; [by apply IH|].
      destruct l as [|z l]; simpl.
      * constructor. by apply compareCategories_gt.
      * destruct (decide (Categories.compareCategories x z ≤ 0)); simpl;
          constructor; [by apply compareCategories_gt|].
        by apply HdRel_inv in Hhd.
Qed.

(** Whatever the names compare to, the sort leaves the categories by
    ascending order. *)
Lemma js_sort_order_sorted l :
  Sorted Z.le (c_order <$> js_sort Categories.compareCategories l).
Proof.
  induction l as [|x l IH]; [constructor|].
  change (js_sort Categories.compareCategories (x :: l))
    with (js_insert Categories.compareCategories x
            (js_sort Categories.compareCategories l)).
  by apply js_insert_order_sorted.
Qed.

(** X24. [createCategory] checks nothing but the schema: whenever the
    input with a fresh identifier validates and the stored categories
    validate, the category is added, whatever slugs and names are
    stored already. The saved list is a rearrangement of the validated
    stored categories and the new one, by ascending order; the id of an
    input is replaced by the fresh identifier; no other file changes. *)
Theorem createCategory_adds (s : Categories.Store) (input : PartialCategory)
    (category : Category) (categories : list Category) :
  categorySchema
    (spread_category input
       {| pc_id := Some (uuid (uuid_draws (Categories.files s)));
          pc_name := None; pc_slug := None; pc_order := None |})
    = Some category →
  mapM categorySchema
    (category_object <$> default [] (Categories.categories_file s))
    = Some categories →
  ∃ s' saved,
    Categories.createCategory input s = (s', inr category) ∧
    Categories.categories_file s' = Some saved ∧
    saved ≡ₚ categories ++ [category] ∧
    Sorted Z.le (c_order <$> saved) ∧
    c_id category = uuid (uuid_draws (Categories.files s)) ∧
    Categories.files s' =
      set_uuid_draws (S (uuid_draws (Categories.files s))) (Categories.files s).
Proof.
  intros Hcategory Hcategories.
  unfold Categories.createCategory.
  unfold Categories.bind at 1, Categories.lift at 1, randomUUID. simpl.
  rewrite Hcategory. unfold Categories.parse at 1, Categories.bind at 1.
  unfold Categories.ret at 1. unfold Categories.bind at 1.
  rewrite listCategories_run. simpl. rewrite Hcategories.
  unfold Categories.bind. rewrite saveCategories_run.
  eexists _, _. split; [done|]. simpl. split; [done|].
  split; [apply js_sort_perm|]. split; [apply js_sort_order_sorted|].
  apply categorySchema_record in Hcategory as (Hid & _). simpl in Hid.
  split; [by injection Hid|].
  unfold with_categories_file.
  by destruct (Categories.categories_file s).
Qed.
End category_facts.

(** ** Lists in order *)
Section strongly_sorted_facts.
Context {A : Type} (R : relation A).

Lemma StronglySorted_sublist (l1 l2 : list A) :
  l1 `sublist_of` l2 → StronglySorted R l2 → StronglySorted R l1.
Proof.
  induction 1 as [|x l1 l2 Hsub IH|x l1 l2 Hsub IH]; intros Hs.
  - constructor.
  - apply StronglySorted_inv in Hs as [Hs Hx]. constructor; [by apply IH|].
    rewrite Forall_forall in Hx |- *. intros y Hy. apply Hx.
    by eapply elem_of_sublist.
  - apply StronglySorted_inv in Hs as [Hs _]. by apply IH.
Qed.

Lemma StronglySorted_lookup (l : list A) :
  StronglySorted R l ↔
  ∀ (i j : nat) (x y : A),
    (i < j)%nat → l !! i = Some x → l !! j = Some y → R x y.
Proof.
  split.
  - induction 1 as [|x l Hs IH Hx]; intros i j a b Hij Hi Hj.
    + by rewrite lookup_nil in Hi.
    + destruct j as [|j]; [lia|]. destruct i as [|i]; simplify_eq/=.
      * rewrite Forall_forall in Hx. apply Hx.
        by eapply list_elem_of_lookup_2.
      * apply (IH i j); [lia|done|done].
  - induction l as [|x l IH]; intros Hl; constructor.
    + apply IH. intros i j a b Hij Hi Hj. apply (Hl (S i) (S j)); [lia|done|done].
    + apply Forall_forall. intros y [j Hj]%list_elem_of_lookup.
      apply (Hl 0%nat (S j)); [lia|done|done].
Qed.
End strongly_sorted_facts.

Section category_order_facts.
Context `{env : Env}.

Lemma orderMap_snoc order x :
  Categories.orderMap (order ++ [x]) =
  <[x := length order]> (Categories.orderMap order).
Proof.
  unfold Categories.orderMap. rewrite imap_app, foldl_app. simpl.
  by rewrite Nat.add_0_r.
Qed.

Lemma orderMap_Some order id idx :
  Categories.orderMap order !! id = Some idx → order !! idx = Some id.
Proof.
  induction order as [|x order IH] using rev_ind.
  - unfold Categories.orderMap. simpl. by rewrite lookup_empty.
  - rewrite orderMap_snoc. destruct (decide (x = id)) as [->|Hne].
    + rewrite lookup_insert_eq. intros [= <-].
      by rewrite lookup_app_r, Nat.sub_diag.
    + rewrite lookup_insert_ne by done. intros Hidx%IH.
      by apply lookup_app_l_Some.
Qed.

Lemma orderMap_None order id :
  Categories.orderMap order !! id = None ↔ id ∉ order.
Proof.
  induction order as [|x order IH] using rev_ind.
  - unfold Categories.orderMap. simpl. rewrite lookup_empty.
    split; [intros _; apply not_elem_of_nil|done].
  - rewrite orderMap_snoc, not_elem_of_app, list_elem_of_singleton.
    destruct (decide (x = id)) as [->|Hne].
    + rewrite lookup_insert_eq. split; [done|]. by intros [_ ?].
    + rewrite lookup_insert_ne by done. rewrite IH. split; [|by intros [? _]].
      intros ?. split; [done|]. by intros ->.
Qed.

End category_order_facts.

Section category_theorems.
Context `{env : Env}.

(** X25. [reorderCategories] gives every validated category whose id is
    in [order] the place of that id as its order, keeps the order of the
    others, and saves and returns the list by ascending order; it changes
    no id, name or slug. When [order] lists the ids of the categories,
    each once, the categories come out in exactly that sequence, with the
    orders 0, 1, 2, ... *)
Theorem reorderCategories_orders (s : Categories.Store) (order : list string)
    (categories : list Category) :
  mapM categorySchema
    (category_object <$> default [] (Categories.categories_file s))
    = Some categories →
  ∃ s' result,
    Categories.reorderCategories order s = (s', inr result) ∧
    Categories.categories_file s' = Some result ∧
    Categories.files s' = Categories.files s ∧
    Sorted Z.le (c_order <$> result) ∧
    (∀ cat, cat ∈ result →
       ∃ cat0, cat0 ∈ categories ∧ c_id cat = c_id cat0 ∧
               c_name cat = c_name cat0 ∧ c_slug cat = c_slug cat0 ∧
               (((c_id cat0 ∉ order) ∧ c_order cat = c_order cat0) ∨
                (∃ idx : nat, order !! idx = Some (c_id cat0) ∧
                              c_order cat = Z.of_nat idx))) ∧
    (∀ cat0, cat0 ∈ categories → c_id cat0 ∉ order → cat0 ∈ result) ∧
    (NoDup order → c_id <$> categories ≡ₚ order →
     c_id <$> result = order ∧
     ∀ (idx : nat) cat, result !! idx = Some cat → c_order cat = Z.of_nat idx).
Proof.
  intros Hcategories. unfold Categories.reorderCategories, Categories.bind.
  rewrite listCategories_run, Hcategories, saveCategories_run.
  set (place := λ cat,
         set_c_order (default (c_order cat)
                        (Z.of_nat <$> Categories.orderMap order !! c_id cat)) cat).
  set (result := js_sort Categories.compareCategories (place <$> categories)).
  assert (result ≡ₚ place <$> categories) as Hperm by apply js_sort_perm.
  assert (Sorted Z.le (c_order <$> result)) as Hsorted
    by apply js_sort_order_sorted.
  assert (∀ cat, cat ∈ result →
            ∃ cat0, cat0 ∈ categories ∧ c_id cat = c_id cat0 ∧
                    c_name cat = c_name cat0 ∧ c_slug cat = c_slug cat0 ∧
                    (((c_id cat0 ∉ order) ∧ c_order cat = c_order cat0) ∨
                     (∃ idx : nat, order !! idx = Some (c_id cat0) ∧
                                   c_order cat = Z.of_nat idx))) as Hfrom.
  { intros cat. rewrite Hperm. intros (cat0 & -> & Hin)%list_elem_of_fmap.
    exists cat0. split; [done|]. unfold place. simpl.
    split; [done|]. split; [done|]. split; [done|].
    destruct (Categories.orderMap order !! c_id cat0) as [idx|] eqn:Hlook; simpl.
    - right. exists idx. split; [by apply orderMap_Some|done].
    - left. split; [by apply orderMap_None|done]. }
  eexists _, result. split; [done|]. simpl. split; [done|].
  split; [unfold with_categories_file; by destruct (Categories.categories_file s)|].
  split; [done|]. split; [done|]. split.
  { intros cat0 Hin Hnot. rewrite Hperm. apply list_elem_of_fmap.
    exists cat0. split; [|done]. unfold place.
    apply orderMap_None in Hnot. rewrite Hnot. by destruct cat0. }
  intros Hnd Hids.
  assert (c_id <$> result ≡ₚ order) as Hperm_ids.
  { rewrite Hperm, <-list_fmap_compose. by rewrite <-Hids. }
  assert (NoDup (c_id <$> result)) as Hnd_ids by (by rewrite Hperm_ids).
  assert (∀ cat, cat ∈ result →
            ∃ idx : nat, order !! idx = Some (c_id cat) ∧
                         c_order cat = Z.of_nat idx) as Hplaced.
  { intros cat (cat0 & Hin & Hid & _ & _ & [[Hnot _]|(idx & Hidx & Horder)])%Hfrom.
    - destruct Hnot. rewrite <-Hids. apply list_elem_of_fmap. by exists cat0.
    - exists idx. by rewrite Hid. }
  pose (before := λ a b : string,
          ∃ i j : nat, order !! i = Some a ∧ order !! j = Some b ∧ (i < j)%nat).
  assert (c_id <$> result = order) as Hsame.
  { apply (StronglySorted_unique_strong before).
    - intros x1 x2 _ _ (i & j & Hi & Hj & Hij) (i' & j' & Hi' & Hj' & Hij').
      pose proof (NoDup_lookup _ _ _ _ Hnd Hi Hj').
      pose proof (NoDup_lookup _ _ _ _ Hnd Hj Hi'). lia.
    - apply StronglySorted_lookup. intros i j x y Hij Hi Hj.
      apply list_lookup_fmap_Some in Hi as (c & -> & Hi).
      apply list_lookup_fmap_Some in Hj as (c' & -> & Hj).
      destruct (Hplaced c) as (idx & Hidx & Horder);
        [by eapply list_elem_of_lookup_2|].
      destruct (Hplaced c') as (idx' & Hidx' & Horder');
        [by eapply list_elem_of_lookup_2|].
      exists idx, idx'. split; [done|]. split; [done|].
      assert (c_order c ≤ c_order c') as Hle.
      { apply (Sorted_StronglySorted _) in Hsorted.
        eapply (proj1 (StronglySorted_lookup Z.le _) Hsorted i j); [done| |].
        - by rewrite list_lookup_fmap, Hi.
        - by rewrite list_lookup_fmap, Hj. }
      assert (idx ≠ idx') as Hne.
      { intros ->. assert (i = j); [|lia].
        eapply (NoDup_lookup _ _ _ (c_id c) Hnd_ids).
        - by rewrite list_lookup_fmap, Hi.
        - rewrite list_lookup_fmap, Hj. simpl. congruence. }
      lia.
    - apply StronglySorted_lookup. intros i j x y Hij Hi Hj. by exists i, j.
    - done. }
  split; [done|]. intros idx cat Hcat.
  destruct (Hplaced cat) as (idx' & Hidx' & ->);
    [by eapply list_elem_of_lookup_2|].
  f_equal. eapply (NoDup_lookup _ _ _ (c_id cat) Hnd); [done|].
  by rewrite <-Hsame, list_lookup_fmap, Hcat.
Qed.

(** X26. A successful [updateCategory] replaces the first validated
    category of the given id by the category with the keys of the update
    written over it: keys that the update does not supply keep their
    value, validated again. The list is saved by ascending order. When
    no validated category has the id the call is refused with the
    not-found error and nothing is saved. *)
Theorem updateCategory_changes (s : Categories.Store) (id : string)
    (update : PartialCategory) (categories : list Category) :
  mapM categorySchema
    (category_object <$> default [] (Categories.categories_file s))
    = Some categories →
  (∀ s' updated,
     Categories.updateCategory id update s = (s', inr updated) →
     ∃ i current saved,
       list_find (λ cat, c_id cat = id) categories = Some (i, current) ∧
       Categories.categories_file s' = Some saved ∧
       saved ≡ₚ <[i := updated]> categories ∧
       Sorted Z.le (c_order <$> saved) ∧
       c_id updated = default (c_id current) (pc_id update) ∧
       c_name updated = sanitize (default (c_name current) (pc_name update)) ∧
       c_slug updated = sanitize (default (c_slug current) (pc_slug update)) ∧
       c_order updated = default (c_order current) (pc_order update) ∧
       Categories.files s' = Categories.files s) ∧
  ((∀ cat, cat ∈ categories → c_id cat ≠ id) →
   Categories.updateCategory id update s =
     (with_categories_file s, inl NotFound)).
Proof.
  intros Hcategories. split.
  - intros s' updated. unfold Categories.updateCategory, Categories.bind at 1.
    rewrite listCategories_run, Hcategories. unfold findIndex.
    destruct (list_find _ categories) as [[i current]|] eqn:Hfind; [|done].
    unfold Categories.bind at 1.
    destruct (categorySchema _) as [parsed|] eqn:Hparsed; [|done].
    unfold Categories.parse, Categories.ret at 1, Categories.bind.
    rewrite saveCategories_run. unfold Categories.ret. intros [= <- <-].
    exists i, current. eexists. split; [done|]. simpl. split; [done|].
    split; [apply js_sort_perm|]. split; [apply js_sort_order_sorted|].
    apply categorySchema_record in Hparsed
      as (Hid & (name & Hname & ->) & (slug & Hslug & ->) & Horder).
    assert (Categories.files (with_categories_file s) = Categories.files s)
      as Hfiles.
    { unfold with_categories_file. by destruct (Categories.categories_file s). }
    cbn [spread_category category_object pc_id pc_name pc_slug pc_order]
      in Hid, Hname, Hslug, Horder.
    rewrite over_default in Hid. rewrite over_default in Hname.
    rewrite over_default in Hslug. rewrite over_default in Horder.
    by simplify_eq.
  - intros Hnone. unfold Categories.updateCategory, Categories.bind.
    rewrite listCategories_run, Hcategories. unfold findIndex.
    destruct (list_find _ categories) as [[i current]|] eqn:Hfind; [|done].
    apply list_find_Some in Hfind as (Hi & Hid & _).
    destruct (Hnone current); [by eapply list_elem_of_lookup_2|done].
Qed.

(** X27. [deleteCategory] saves the validated categories other than
    those with the given id, in their order: it never fails on an
    unknown id, and a list by ascending order stays by ascending
    order. *)
Theorem deleteCategory_removes (s : Categories.Store) (id : string)
    (categories : list Category) :
  mapM categorySchema
    (category_object <$> default [] (Categories.categories_file s))
    = Some categories →
  ∃ s' saved,
    Categories.deleteCategory id s = (s', inr ()) ∧
    Categories.categories_file s' = Some saved ∧
    saved = filter (λ cat, c_id cat ≠ id) categories ∧
    (∀ cat, cat ∈ saved ↔ cat ∈ categories ∧ c_id cat ≠ id) ∧
    ((∀ cat, cat ∈ categories → c_id cat ≠ id) → saved = categories) ∧
    (Sorted Z.le (c_order <$> categories) → Sorted Z.le (c_order <$> saved)) ∧
    Categories.files s' = Categories.files s.
Proof.
  intros Hcategories. unfold Categories.deleteCategory, Categories.bind.
  rewrite listCategories_run, Hcategories, saveCategories_run.
  eexists _, _. split; [done|]. simpl. split; [done|]. split; [done|].
  split; [|split; [|split]].
  - intros cat. by rewrite list_elem_of_filter, (comm (∧)).
  - intros Hall. apply filter_all. by apply Forall_forall.
  - intros Hsorted. apply StronglySorted_Sorted.
    apply (StronglySorted_sublist _ _ (c_order <$> categories)).
    + apply fmap_sublist, sublist_filter.
    + by apply (Sorted_StronglySorted _).
  - unfold with_categories_file. by destruct (Categories.categories_file s).
Qed.
End category_theorems.

(** ** The rate limiter *)
Section rate_limiter_facts.
Context (ip : string) (currentUser : option UserRecord).

Local Abbreviation key := (rate_key ip currentUser).

Lemma serve_within_window times rateMap state :
  rateMap !! key = Some state →
  1 ≤ rs_count state ≤ LIMIT →
  Forall (λ now, now ≤ rs_expiresAt state) times →
  ∃ rateMap' state',
    serve ip currentUser times rateMap =
      (rateMap',
       replicate (Nat.min (length times) (Z.to_nat (LIMIT - rs_count state))) Next ++
       replicate (length times - Z.to_nat (LIMIT - rs_count state))
                 (Status 429)) ∧
    rateMap' !! key = Some state' ∧
    rs_expiresAt state' = rs_expiresAt state ∧
    rs_count state' = Z.min LIMIT (rs_count state + Z.of_nat (length times)).
Proof.
  intros Hstate Hcount Htimes. revert rateMap state Hstate Hcount Htimes.
  induction times as [|now times IH]; intros rateMap state Hstate Hcount Htimes.
  - exists rateMap, state. simpl. split; [done|]. split; [done|].
    split; [done|]. unfold LIMIT in *. lia.
  - apply Forall_cons in Htimes as [Hnow Htimes].
    cbn [serve]. unfold adminRateLimiter. rewrite Hstate.
    rewrite decide_False by lia.
    destruct (decide (LIMIT ≤ rs_count state)) as [Hfull|Hroom].
    + destruct (IH rateMap state Hstate Hcount Htimes)
        as (rateMap' & state' & -> & Hstate' & Hexp & Hcnt).
      exists rateMap', state'. split; [|split; [done|split; [done|]]].
      * assert (Z.to_nat (LIMIT - rs_count state) = 0%nat) as -> by lia.
        rewrite !Nat.min_0_r, !Nat.sub_0_r. done.
      * unfold LIMIT in *. simpl length. lia.
    + set (state1 := {| rs_count := rs_count state + 1;
                        rs_expiresAt := rs_expiresAt state |}).
      destruct (IH (<[key := state1]> rateMap) state1)
        as (rateMap' & state' & -> & Hstate' & Hexp & Hcnt).
      * apply lookup_insert_eq.
      * simpl. unfold LIMIT in *. lia.
      * done.
      * exists rateMap', state'. split; [|split; [done|split; [done|]]].
        -- simpl rs_count. simpl length.
           assert (Z.to_nat (LIMIT - rs_count state) =
                   S (Z.to_nat (LIMIT - (rs_count state + 1)))) as ->
             by (unfold LIMIT in *; lia).
           done.
        -- simpl in *. unfold LIMIT in *. lia.
Qed.
End rate_limiter_facts.

Section rate_limiter_theorems.

(** X28. The limiter lets ten requests of a client through per window
    and no more. When the client has no window open at [now] (none yet,
    or one that has expired), the request at [now] opens a window of
    [WINDOW_MS] and passes, and of the requests that follow up to the end
    of that window, whenever they come, the first nine pass and every
    further one is answered with 429. *)
Theorem rate_limit_burst (ip : string) (currentUser : option UserRecord)
    (now : Z) (times : list Z) (rateMap : gmap string RateState) :
  (∀ state, rateMap !! rate_key ip currentUser = Some state →
            rs_expiresAt state < now) →
  Forall (λ t, t ≤ now + WINDOW_MS) times →
  (serve ip currentUser (now :: times) rateMap).2 =
    replicate (Nat.min (S (length times)) 10) Next ++
    replicate (S (length times) - 10) (Status 429).
Proof.
  intros Hopen Htimes. cbn [serve].
  set (fresh := {| rs_count := 1; rs_expiresAt := now + WINDOW_MS |}).
  assert (adminRateLimiter ip currentUser now rateMap =
            (<[rate_key ip currentUser := fresh]> rateMap, Next)) as ->.
  { unfold adminRateLimiter.
    destruct (rateMap !! rate_key ip currentUser) as [state|] eqn:Hstate; [|done].
    by rewrite decide_True by (by apply Hopen). }
  destruct (serve_within_window ip currentUser times
              (<[rate_key ip currentUser := fresh]> rateMap) fresh)
    as (rateMap' & state' & -> & _).
  - apply lookup_insert_eq.
  - simpl. unfold LIMIT. lia.
  - done.
  - simpl. change (Z.to_nat (LIMIT - 1)) with 9%nat.
    by destruct (length times) as [|[|[|[|[|[|[|[|[|n]]]]]]]]].
Qed.

(** X29. One request through the limiter: the answer is [next()] or the
    status 429; the windows of the other clients are not touched; a
    refusal changes nothing, so it does not prolong the window; and
    every counter stays between 1 and [LIMIT] if it was. *)
Theorem adminRateLimiter_step (ip : string) (currentUser : option UserRecord)
    (now : Z) (rateMap : gmap string RateState) :
  (∀ other, other ≠ rate_key ip currentUser →
     (adminRateLimiter ip currentUser now rateMap).1 !! other = rateMap !! other) ∧
  ((adminRateLimiter ip currentUser now rateMap).2 = Next ∨
   (adminRateLimiter ip currentUser now rateMap).2 = Status 429 ∧
   (adminRateLimiter ip currentUser now rateMap).1 = rateMap ∧
   ∃ state, rateMap !! rate_key ip currentUser = Some state ∧
            now ≤ rs_expiresAt state ∧ LIMIT ≤ rs_count state) ∧
  (map_Forall (λ _ state, 1 ≤ rs_count state ≤ LIMIT) rateMap →
   map_Forall (λ _ state, 1 ≤ rs_count state ≤ LIMIT)
     (adminRateLimiter ip currentUser now rateMap).1).
Proof.
  unfold adminRateLimiter.
  destruct (rateMap !! rate_key ip currentUser) as [state|] eqn:Hstate.
  - destruct (decide (rs_expiresAt state < now)) as [Hexpired|Hopen]; simpl.
    + split; [by intros other Hne; rewrite lookup_insert_ne|].
      split; [by left|]. intros Hall. apply map_Forall_insert_2; [|done].
      simpl. unfold LIMIT. lia.
    + destruct (decide (LIMIT ≤ rs_count state)) as [Hfull|Hroom]; simpl.
      * split; [done|]. split; [|done]. right. split; [done|]. split; [done|].
        exists state. split; [done|]. split; [lia|done].
      * split; [by intros other Hne; rewrite lookup_insert_ne|].
        split; [by left|]. intros Hall. apply map_Forall_insert_2; [|done].
        simpl. specialize (Hall _ _ Hstate). simpl in Hall. lia.
  - simpl. split; [by intros other Hne; rewrite lookup_insert_ne|].
    split; [by left|]. intros Hall. apply map_Forall_insert_2; [|done].
    simpl. unfold LIMIT. lia.
Qed.
End rate_limiter_theorems.

(** ** Authentication *)
Section auth_theorems.
Context `{env : Env} `{dates : Dates}.

(** X30. [attachUser] on a request that carries no user yet. A user is
    attached only from a session that has not expired, and it is the
    stored record that the name of the session reaches, which is active;
    the session is then rewritten with the name and the role of that
    record and the time of the call. In every other case the session is
    dropped and the request stays without a user, so that [requireAuth]
    and [requireRole] answer 401. [requireRole] for administrators lets
    the request through only if the stored record has the role, whatever
    role the session carried. *)
Theorem attachUser_current (w w' : World) (now : Z) (req req' : Request) :
  currentUser req = None →
  attachUser now req w = (w', inr req') →
  (∀ user, currentUser req' = Some user →
     u_active user = true ∧
     ∃ sessionUser w0,
       session_user req = Some sessionUser ∧
       session_expired now (su_lastActive sessionUser) = false ∧
       findUserByUsername (su_username sessionUser) w = (w0, inr (Some user)) ∧
       session_user req' =
         Some {| su_username := u_username user; su_role := u_role user;
                 su_lastActive := clock (clock_reads w) |}) ∧
  (currentUser req' = None →
   session_user req' = None ∧ requireAuth req' = Status 401 ∧
   ∀ role, requireRole role req' = Status 401) ∧
  (requireRole RoleAdmin req' = Next →
   ∃ user, currentUser req' = Some user ∧ u_role user = RoleAdmin ∧
           u_active user = true) ∧
  (∀ sessionUser, session_user req = Some sessionUser →
     session_expired now (su_lastActive sessionUser) = true →
     w' = w ∧ req' = delete_session_user req).
Proof.
  intros Hnone. unfold attachUser.
  assert (∀ r, currentUser r = None →
            requireAuth r = Status 401 ∧ ∀ role, requireRole role r = Status 401)
    as Hclosed.
  { intros r Hr. unfold requireAuth, requireRole. by rewrite Hr. }
  destruct (session_user req) as [sessionUser|] eqn:Hsession.
  2:{ unfold ret. intros [= <- <-]. rewrite Hnone.
      split; [done|]. split; [by split; [|apply Hclosed]|].
      split; [|done]. unfold requireRole. by rewrite Hnone. }
  destruct (session_expired now (su_lastActive sessionUser)) eqn:Hexpired.
  { unfold ret. intros [= <- <-]. simpl. rewrite Hnone.
    split; [done|]. split; [by split; [|apply Hclosed]|].
    split; [unfold requireRole; simpl; by rewrite Hnone|].
    by intros ? [= <-] _. }
  unfold bind at 1.
  destruct (findUserByUsername _ w) as [w0 [e|[user|]]] eqn:Hfind; [done| |].
  2:{ unfold ret. intros [= <- <-]. simpl. rewrite Hnone.
      split; [done|]. split; [by split; [|apply Hclosed]|].
      split; [unfold requireRole; simpl; by rewrite Hnone|].
      intros ? [= <-] ?. congruence. }
  destruct (u_active user) eqn:Hactive; simpl.
  2:{ unfold ret. intros [= <- <-]. simpl. rewrite Hnone.
      split; [done|]. split; [by split; [|apply Hclosed]|].
      split; [unfold requireRole; simpl; by rewrite Hnone|].
      intros ? [= <-] ?. congruence. }
  mrun. intros [= <- <-]. simpl.
  assert (clock_reads w0 = clock_reads w) as ->.
  { apply findUserByUsername_inv in Hfind as (admin & _ & Hcases).
    assert (w0 = w ∨ w0 = with_users_file w) as [->| ->]; [|done|].
    - destruct admin as [a|]; [case_decide|].
      + left. by destruct Hcases.
      + right. by destruct Hcases as (? & ? & ? & ?).
      + right. by destruct Hcases as (? & ? & ? & ?).
    - unfold with_users_file. by destruct (users_file w). }
  split; [|split; [done|split]].
  - intros ? [= <-]. split; [done|]. by exists sessionUser, w0.
  - unfold requireRole. simpl. case_decide as Hrole; [done|]. intros _.
    exists user. split; [done|]. split; [|done].
    destruct (u_role user); [done|]. destruct Hrole. by split.
  - intros ? [= <-] ?. congruence.
Qed.
End auth_theorems.

(** * The services on the sample documents *)

#[local] Existing Instance Sample.env.

(** C1, as stated, fails. Merging [{ duration: 20 }] onto the episode
    [{ title: "A", duration: 10, published: false }] of season 1 is a
    validation error, not a merged episode; and merging a payload that
    supplies every required key but neither [published] nor [views] onto
    an episode with [published: true] and 7 views yields [published:
    false] and 0 views: keys that the payload does not supply are not
    kept from the existing record. *)
Lemma mergeSeasons_partial_payload :
  (mergeSeasons (s_seasons Sample.atlas)
     [{| si_season := 1; si_episodes := [Sample.only_duration] |}]
     Sample.world).2 = inl ValidationError ∧
  (mergeSeasons
     [{| se_season := 1;
         se_episodes := [Sample.episode 1 1 "A" 10 true 7] |}]
     [{| si_season := 1; si_episodes := [Sample.without_flags 1 1 20] |}]
     Sample.world).2 =
  inr [{| se_season := 1;
          se_episodes :=
            [set_ep_lastUpdated (Sample.stamp 0)
               (Sample.episode 1 1 "A" 20 false 0)] |}].
Proof. split; vm_compute; reflexivity. Qed.

(** C1, witness: the payload [{ duration: 20 }], which is rejected, and
    the payload of season 1, episode 1 with a duration of 20 against the
    stored episode of 10. *)
Lemma mergeSeasons_episode_from_payload_witness :
  lacks_required_key Sample.only_duration ∧
  (∃ w', mergeSeasons (s_seasons Sample.atlas)
           [{| si_season := 1; si_episodes := [Sample.only_duration] |}]
           Sample.world = (w', inl ValidationError)) ∧
  ∃ w' seasons merged,
    mergeSeasons
      [{| se_season := 1;
          se_episodes := [Sample.episode 1 1 "A" 10 true 7] |}]
      [{| si_season := 1; si_episodes := [Sample.without_flags 1 1 20] |}]
      Sample.world = (w', inr seasons) ∧
    lookup_episode 1 1 seasons = Some merged ∧
    ep_title merged = "A" ∧
    ep_duration merged = 20 ∧
    ep_lastUpdated merged = Sample.stamp 0.
Proof.
  assert (lacks_required_key Sample.only_duration) as H0 by (by left).
  split; [exact H0|].
  split.
  { apply (proj1 (mergeSeasons_episode_from_payload (env := Sample.env))
             Sample.world (s_seasons Sample.atlas) _
             {| si_season := 1; si_episodes := [Sample.only_duration] |}
             Sample.only_duration);
      [apply list_elem_of_here|apply list_elem_of_here|exact H0]. }
  destruct (mergeSeasons
              [{| se_season := 1;
                  se_episodes := [Sample.episode 1 1 "A" 10 true 7] |}]
              [{| si_season := 1; si_episodes := [Sample.without_flags 1 1 20] |}]
              Sample.world) as [w' [e|seasons]] eqn:Hrun;
    [vm_compute in Hrun; discriminate|].
  destruct (proj2 (mergeSeasons_episode_from_payload (env := Sample.env))
              Sample.world w'
              [{| se_season := 1;
                  se_episodes := [Sample.episode 1 1 "A" 10 true 7] |}]
              [{| si_season := 1; si_episodes := [Sample.without_flags 1 1 20] |}]
              seasons
              {| se_season := 1;
                 se_episodes := [Sample.episode 1 1 "A" 10 true 7] |}
              (Sample.episode 1 1 "A" 10 true 7)
              {| si_season := 1; si_episodes := [Sample.without_flags 1 1 20] |}
              (Sample.without_flags 1 1 20))
    as (merged & now & Hlook & Hnow & Hstamp & _ & (title & Htitle & Htitle')
        & _ & _ & _ & Hduration & _).
  - apply NoDup_singleton.
  - apply list_elem_of_here.
  - apply list_elem_of_here.
  - apply NoDup_singleton.
  - apply list_elem_of_here.
  - reflexivity.
  - apply NoDup_singleton.
  - apply list_elem_of_here.
  - reflexivity.
  - exact Hrun.
  - exists w', seasons, merged. split; [reflexivity|]. split; [exact Hlook|].
    split; [by injection Htitle as <-|]. split; [by injection Hduration|].
    assert (clock_reads w' = 1%nat) as Hreads.
    { vm_compute in Hrun. by injection Hrun as <-. }
    rewrite Hstamp. f_equal. change (clock_reads Sample.world) with 0%nat in Hnow.
    lia.
Defined.

(** C2, the failing input. The stored series has season 1 with episode
    1; the payload brings season 2 with episodes 2 and 1 in that order.
    Season 2 is not yet present, so it is inserted as it came: the
    document returned and saved has the episodes of season 2 in the
    order 2, 1, which the ordering invariant excludes. Likewise two
    incoming episodes numbered 1 are both kept. *)
Lemma createOrMergeSeries_keeps_incoming_order :
  match (createOrMergeSeries
           (Sample.atlas_import
              [{| si_season := 2;
                  si_episodes := [Sample.without_flags 2 2 20;
                                  Sample.without_flags 2 1 20] |}])
           Sample.world).2 with
  | inr series =>
      well_ordered (s_seasons Sample.atlas) ∧
      season_numbers (s_seasons series) = [1; 2] ∧
      episode_numbers <$> s_seasons series = [[1]; [2; 1]] ∧
      ¬ well_ordered (s_seasons series)
  | inl _ => False
  end ∧
  match (createOrMergeSeries
           (Sample.atlas_import
              [{| si_season := 2;
                  si_episodes := [Sample.without_flags 2 1 20;
                                  Sample.without_flags 2 1 30] |}])
           Sample.world).2 with
  | inr series =>
      episode_numbers <$> s_seasons series = [[1]; [1; 1]] ∧
      ¬ well_ordered (s_seasons series)
  | inl _ => False
  end.
Proof.
  split.
  - destruct (createOrMergeSeries _ _) as [w [e|series]] eqn:Hrun;
      vm_compute in Hrun; [discriminate|].
    injection Hrun as _ <-. split; [|split; [done|split; [done|]]].
    + split; [repeat constructor|]. repeat constructor.
    + intros [_ Heps]. apply Forall_cons in Heps as [_ Heps].
      apply Forall_cons in Heps as [Heps _].
      apply StronglySorted_inv in Heps as [_ Heps].
      apply Forall_cons in Heps as [Heps _]. vm_compute in Heps. discriminate.
  - destruct (createOrMergeSeries _ _) as [w [e|series]] eqn:Hrun;
      vm_compute in Hrun; [discriminate|].
    injection Hrun as _ <-. split; [done|].
    intros [_ Heps]. apply Forall_cons in Heps as [_ Heps].
    apply Forall_cons in Heps as [Heps _].
    apply StronglySorted_inv in Heps as [_ Heps].
    apply Forall_cons in Heps as [Heps _]. vm_compute in Heps. discriminate.
Qed.



(** C4, witness: alice has watched m2 and then m1 before; she watches m1
    again. *)
Lemma appendHistory_moves_to_front_witness :
  history_files Sample.world !! "alice" =
    Some [Sample.watched "m2" (1 # 2); Sample.watched "m1" (1 # 4)] ∧
  history_valid [Sample.watched "m2" (1 # 2); Sample.watched "m1" (1 # 4)] ∧
  ∃ w',
    appendHistory "alice" (Sample.watched "m1" 1) Sample.world = (w', inr ()) ∧
    history_files w' !! "alice" =
      Some [Sample.watched "m1" 1; Sample.watched "m2" (1 # 2)].
Proof.
  assert (history_files Sample.world !! "alice" =
            Some [Sample.watched "m2" (1 # 2); Sample.watched "m1" (1 # 4)])
    as Hfile by (vm_compute; reflexivity).
  assert (history_valid
            [Sample.watched "m2" (1 # 2); Sample.watched "m1" (1 # 4)])
    as Hvalid by (repeat constructor; eexists; vm_compute; reflexivity).
  split; [exact Hfile|]. split; [exact Hvalid|].
  destruct (appendHistory_moves_to_front Sample.world
              "alice" (Sample.watched "m1" 1) _ Hfile Hvalid)
    as (w' & rest & Hrun & Hstored & -> & _).
  exists w'. split; [exact Hrun|]. exact Hstored.
Defined.

(** C5, witness: a new movie with the slug of "Alpha", and a new user
    named as the stored user alice. *)
Lemma duplicate_slug_or_username_conflicts_witness :
  (movies_valid [Sample.movie 61 "Alpha" "alpha" 3; Sample.movie 62 "Beta" "beta" 0] ∧
   ∃ w',
     createMovie (movie_object (Sample.movie 0 "Alpha Again" "alpha" 0))
       Sample.world = (w', inl Conflict) ∧
     movies_file w' = movies_file Sample.world) ∧
  (users_valid [Sample.account 2 "alice" RoleUser] ∧
   ∃ w',
     createUser {| cu_username := "alice"; cu_password := "password1";
                   cu_role := None |} Sample.world = (w', inl Conflict) ∧
     admin_file w' = admin_file Sample.world ∧
     users_file w' = users_file Sample.world).
Proof.
  assert (movies_valid [Sample.movie 61 "Alpha" "alpha" 3;
                        Sample.movie 62 "Beta" "beta" 0]) as Hmovies
    by (eexists; vm_compute; reflexivity).
  assert (users_valid [Sample.account 2 "alice" RoleUser]) as Husers
    by (eexists; vm_compute; reflexivity).
  split.
  - split; [exact Hmovies|].
    destruct (proj1 (duplicate_slug_or_username_conflicts (env := Sample.env))
                Sample.world
                (movie_object (Sample.movie 0 "Alpha Again" "alpha" 0))
                [Sample.movie 61 "Alpha" "alpha" 3; Sample.movie 62 "Beta" "beta" 0]
                (Sample.movie 61 "Alpha" "alpha" 3))
      as (w' & Hrun & Hfile & _).
    + reflexivity.
    + exact Hmovies.
    + eexists. vm_compute. reflexivity.
    + apply list_elem_of_here.
    + reflexivity.
    + exists w'. split; [exact Hrun|exact Hfile].
  - split; [exact Husers|].
    apply (proj2 (duplicate_slug_or_username_conflicts (env := Sample.env))
             Sample.world _ (Sample.account 2 "alice" RoleUser)).
    + eexists. vm_compute. reflexivity.
    + eexists. vm_compute. reflexivity.
    + right. exists [Sample.account 2 "alice" RoleUser].
      split; [reflexivity|]. split; [exact Husers|]. apply list_elem_of_here.
    + reflexivity.
Defined.

(** C6, the failing input. The stored movies have the slugs alpha and
    beta; [updateMovie] of the second with [{ slug: "alpha" }] succeeds
    and saves two movies with the slug alpha. *)
Lemma updateMovie_duplicates_slug :
  NoDup (m_slug <$> default [] (movies_file Sample.world)) ∧
  (∃ updated,
     (updateMovie (Sample.ident 62) (Sample.only_slug "alpha") Sample.world).2
     = inr updated) ∧
  m_slug <$> default []
    (movies_file
       (updateMovie (Sample.ident 62) (Sample.only_slug "alpha") Sample.world).1)
  = ["alpha"; "alpha"] ∧
  ¬ NoDup (m_slug <$> default []
    (movies_file
       (updateMovie (Sample.ident 62) (Sample.only_slug "alpha") Sample.world).1)).
Proof.
  assert (m_slug <$> default []
            (movies_file
               (updateMovie (Sample.ident 62) (Sample.only_slug "alpha")
                  Sample.world).1) = ["alpha"; "alpha"]) as Hslugs
    by (vm_compute; reflexivity).
  split; [|split; [|split; [exact Hslugs|]]].
  - change (NoDup ["alpha"; "beta"]). apply NoDup_cons.
    split; [|apply NoDup_singleton].
    intros Hin. apply list_elem_of_singleton in Hin. discriminate.
  - eexists. vm_compute. reflexivity.
  - rewrite Hslugs. intros Hnd. apply NoDup_cons in Hnd as [Hnot _].
    apply Hnot, list_elem_of_here.
Qed.

(** C7, witness: the series of the scenario imported again, without
    seasons. *)
Lemma createOrMergeSeries_keeps_identity_witness :
  match (createOrMergeSeries (Sample.atlas_import []) Sample.world) with
  | (w', inr series) =>
      s_id series = s_id Sample.atlas ∧
      s_createdAt series = s_createdAt Sample.atlas ∧
      s_slug series = "echoes-of-atlas" ∧
      series_files w' = <[ "echoes-of-atlas" := series ]> (series_files Sample.world)
  | (_, inl _) => False
  end.
Proof.
  destruct (createOrMergeSeries (Sample.atlas_import []) Sample.world)
    as [w' [e|series]] eqn:Hrun; [vm_compute in Hrun; discriminate|].
  destruct (createOrMergeSeries_keeps_identity (env := Sample.env)
              Sample.world w' (Sample.atlas_import []) Sample.atlas Sample.atlas
              series)
    as (Hid & Hcreated & _ & _ & Hslug & Hfiles).
  - intros s _. reflexivity.
  - vm_compute. reflexivity.
  - vm_compute. reflexivity.
  - exact Hrun.
  - split; [exact Hid|]. split; [exact Hcreated|].
    assert (s_slug series = "echoes-of-atlas") as Hs
      by (rewrite Hslug; vm_compute; reflexivity).
    split; [exact Hs|]. by rewrite Hfiles, Hs.
Defined.

(** C8, the failing input. The stored series was last updated on
    2024-06-01; a view of its episode 1 of season 1 at 2025-01-01
    increases the view counter and stamps the episode, and the saved
    series still has the updatedAt of 2024-06-01. *)
Lemma incrementSeriesView_keeps_updatedAt :
  (incrementSeriesView "echoes-of-atlas" 1 1 Sample.world).2 = inr () ∧
  clock 0 = "2025-01-01T00:00:00.000Z" ∧
  (λ saved, (s_updatedAt saved, lookup_episode 1 1 (s_seasons saved))) <$>
    series_files (incrementSeriesView "echoes-of-atlas" 1 1 Sample.world).1
      !! "echoes-of-atlas" =
  Some ("2024-06-01T10:00:00.000Z",
        Some (set_ep_lastUpdated "2025-01-01T00:00:00.000Z"
                (Sample.episode 1 1 "A" 10 false 1))).
Proof. repeat split; vm_compute; reflexivity. Qed.



(** ** The further properties on the sample documents *)

#[local] Existing Instance Sample.bcrypt.
#[local] Existing Instance Sample.dates.

(** X1, witness: the series of the scenario and an import of seasons 2
    and 1. *)
Lemma mergeSeasons_numbers_witness :
  ∃ w' seasons,
    mergeSeasons (s_seasons Sample.atlas) Sample.second_import Sample.world =
      (w', inr seasons) ∧
    strictly_ascending (season_numbers seasons) ∧
    season_numbers seasons = [1; 2] ∧
    (2 ∈ season_numbers seasons ↔
     2 ∈ season_numbers (s_seasons Sample.atlas) ∨
     2 ∈ si_season <$> Sample.second_import).
Proof.
  destruct (mergeSeasons (s_seasons Sample.atlas) Sample.second_import
              Sample.world) as [w' [e|seasons]] eqn:Hrun;
    [vm_compute in Hrun; discriminate|].
  destruct (mergeSeasons_numbers (env := Sample.env) _ _ _ _ _ Hrun)
    as [Hsorted Hiff].
  exists w', seasons. split; [reflexivity|]. split; [exact Hsorted|].
  split; [|apply Hiff].
  vm_compute in Hrun. injection Hrun as _ <-. reflexivity.
Defined.

(** X2, witness: episode 1 of the stored season 1 and episode 2 of the
    incoming season 1 are both in season 1 of the result. *)
Lemma mergeSeasons_keeps_episodes_witness :
  NoDup (season_numbers (s_seasons Sample.atlas)) ∧
  ∃ w' seasons,
    mergeSeasons (s_seasons Sample.atlas) Sample.second_import Sample.world =
      (w', inr seasons) ∧
    (∃ merged, merged ∈ seasons ∧ se_season merged = 1 ∧
               1 ∈ episode_numbers merged) ∧
    (∃ merged, merged ∈ seasons ∧ se_season merged = 1 ∧
               2 ∈ episode_numbers merged).
Proof.
  assert (NoDup (season_numbers (s_seasons Sample.atlas))) as Hnd
    by (apply NoDup_singleton).
  split; [exact Hnd|].
  destruct (mergeSeasons (s_seasons Sample.atlas) Sample.second_import
              Sample.world) as [w' [e|seasons]] eqn:Hrun;
    [vm_compute in Hrun; discriminate|].
  destruct (mergeSeasons_keeps_episodes (env := Sample.env) _ _ _ _ _ Hrun)
    as [Hstored Hincoming].
  exists w', seasons. split; [reflexivity|]. split.
  - apply (Hstored Hnd
             {| se_season := 1;
                se_episodes := [Sample.episode 1 1 "A" 10 false 0] |} 1).
    + apply list_elem_of_here.
    + apply list_elem_of_here.
  - apply (Hincoming
             {| si_season := 1; si_episodes := [Sample.without_flags 1 2 30] |} 2).
    + apply list_elem_of_further, list_elem_of_here.
    + apply list_elem_of_here.
Defined.

(** X3, witness: an import of season 2 alone returns the stored season 1
    as it is. *)
Lemma mergeSeasons_untouched_witness :
  ∃ w' seasons,
    mergeSeasons (s_seasons Sample.atlas)
      [{| si_season := 2; si_episodes := [Sample.without_flags 2 1 20] |}]
      Sample.world = (w', inr seasons) ∧
    {| se_season := 1; se_episodes := [Sample.episode 1 1 "A" 10 false 0] |}
      ∈ seasons.
Proof.
  destruct (mergeSeasons (s_seasons Sample.atlas)
              [{| si_season := 2; si_episodes := [Sample.without_flags 2 1 20] |}]
              Sample.world) as [w' [e|seasons]] eqn:Hrun;
    [vm_compute in Hrun; discriminate|].
  exists w', seasons. split; [reflexivity|].
  apply (mergeSeasons_untouched (env := Sample.env) (s_seasons Sample.atlas)
           [{| si_season := 2; si_episodes := [Sample.without_flags 2 1 20] |}]
           Sample.world w' seasons).
  - apply NoDup_singleton.
  - apply list_elem_of_here.
  - intros Hin. apply list_elem_of_singleton in Hin. discriminate.
  - exact Hrun.
Defined.

(** X4, witness: the same import; both arguments have their episodes in
    ascending order. *)
Lemma mergeSeasons_well_ordered_witness :
  Forall (λ season, strictly_ascending (episode_numbers season))
         (s_seasons Sample.atlas) ∧
  Forall (λ incoming, strictly_ascending (incoming_episode_numbers incoming))
         Sample.second_import ∧
  ∃ w' seasons,
    mergeSeasons (s_seasons Sample.atlas) Sample.second_import Sample.world =
      (w', inr seasons) ∧
    well_ordered seasons.
Proof.
  assert (Forall (λ season, strictly_ascending (episode_numbers season))
                 (s_seasons Sample.atlas)) as Hstored
    by (repeat constructor).
  assert (Forall (λ incoming,
                    strictly_ascending (incoming_episode_numbers incoming))
                 Sample.second_import) as Hincoming.
  { repeat constructor. }
  split; [exact Hstored|]. split; [exact Hincoming|].
  destruct (mergeSeasons (s_seasons Sample.atlas) Sample.second_import
              Sample.world) as [w' [e|seasons]] eqn:Hrun;
    [vm_compute in Hrun; discriminate|].
  exists w', seasons. split; [reflexivity|].
  exact (mergeSeasons_well_ordered (env := Sample.env) _ _ _ _ _
           Hstored Hincoming Hrun).
Defined.

(** X6, witness: the import of seasons 2 and 1 into the stored series. *)
Lemma createOrMergeSeries_well_ordered_witness :
  ∃ w' series,
    createOrMergeSeries (Sample.atlas_import Sample.second_import) Sample.world =
      (w', inr series) ∧
    well_ordered (s_seasons series) ∧
    series_files w' !! s_slug series = Some series.
Proof.
  destruct (createOrMergeSeries (Sample.atlas_import Sample.second_import)
              Sample.world) as [w' [e|series]] eqn:Hrun;
    [vm_compute in Hrun; discriminate|].
  exists w', series. split; [reflexivity|].
  apply (createOrMergeSeries_well_ordered (env := Sample.env) Sample.world w'
           (Sample.atlas_import Sample.second_import) series).
  - change (Forall (λ season, strictly_ascending (episode_numbers season))
                   (s_seasons Sample.atlas)).
    repeat constructor.
  - repeat constructor.
  - exact Hrun.
Defined.

(** X7, witness: a series whose slug, new-show, has no file. *)
Lemma createOrMergeSeries_creates_witness :
  series_files Sample.world !! "new-show" = None ∧
  ∃ w' series,
    createOrMergeSeries Sample.new_show Sample.world = (w', inr series) ∧
    s_id series = Sample.ident 0 ∧
    s_createdAt series = Sample.stamp 0 ∧
    s_updatedAt series = Sample.stamp 0 ∧
    season_numbers (s_seasons series) = [2; 1] ∧
    uuid_draws w' = 1%nat.
Proof.
  assert (series_files Sample.world !!
            slugify (or_else (sp_slug Sample.new_show) (sp_name Sample.new_show))
          = None) as Hfile by (vm_compute; reflexivity).
  split; [exact Hfile|].
  destruct (createOrMergeSeries Sample.new_show Sample.world)
    as [w' [e|series]] eqn:Hrun; [vm_compute in Hrun; discriminate|].
  destruct (createOrMergeSeries_creates (env := Sample.env) _ _ _ _ Hfile Hrun)
    as (Hid & Hc & Hu & _ & Hn & _ & _ & Hdraws & _).
  exists w', series. split; [reflexivity|]. split; [exact Hid|].
  split; [exact Hc|]. split; [exact Hu|]. split; [exact Hn|exact Hdraws].
Defined.

(** X8, witness: episode 2 of season 1 is merged into the series of the
    scenario; episode 1 is reached as before. *)
Lemma mergeEpisode_frame_witness :
  ∃ w1 s1,
    mergeEpisode "echoes-of-atlas" Sample.sequel Sample.world = (w1, inr s1) ∧
    lookup_episode 1 1 (s_seasons s1) = Some (Sample.episode 1 1 "A" 10 false 0) ∧
    s_id s1 = s_id Sample.atlas ∧
    s_updatedAt s1 = Sample.stamp 0 ∧
    movies_file w1 = movies_file Sample.world.
Proof.
  destruct (mergeEpisode "echoes-of-atlas" Sample.sequel Sample.world)
    as [w1 [e|s1]] eqn:Hrun; [vm_compute in Hrun; discriminate|].
  destruct (mergeEpisode_frame (env := Sample.env) _ _ _ _ _ Hrun)
    as (existing & Hread & Hframe & Hid & _ & _ & _ & _ & _ & _ & _ & _
        & Hupdated & _ & Hmovies & _).
  assert (existing = Sample.atlas) as ->.
  { vm_compute in Hread. by injection Hread as <-. }
  exists w1, s1. split; [reflexivity|]. split.
  - rewrite (Hframe 1 1) by (intros [=]). vm_compute. reflexivity.
  - split; [exact Hid|]. split; [exact Hupdated|exact Hmovies].
Defined.

(** X9, witness: the payload of season 1, episode 1 replaces the stored
    episode and keeps its id; the payload of episode 2 makes a new
    episode with a fresh id. *)
Lemma mergeEpisode_upserts_witness :
  (∀ s, sanitize (sanitize s) = sanitize s) ∧
  (∃ w1 s1 ep1,
     mergeEpisode "echoes-of-atlas" Sample.pilot_extended Sample.world =
       (w1, inr s1) ∧
     lookup_episode 1 1 (s_seasons s1) = Some ep1 ∧
     ep_title ep1 = "Pilot Extended" ∧
     ep_id ep1 = Sample.ident 11 ∧
     ep_lastUpdated ep1 = Sample.stamp 0) ∧
  (∃ w1 s1 ep1,
     mergeEpisode "echoes-of-atlas" Sample.sequel Sample.world = (w1, inr s1) ∧
     lookup_episode 1 2 (s_seasons s1) = Some ep1 ∧
     ep_id ep1 = Sample.ident 0 ∧
     ep_views ep1 = 0).
Proof.
  assert (∀ s, sanitize (sanitize s) = sanitize s) as Hidem by done.
  split; [exact Hidem|]. split.
  - destruct (mergeEpisode "echoes-of-atlas" Sample.pilot_extended Sample.world)
      as [w1 [e|s1]] eqn:Hrun; [vm_compute in Hrun; discriminate|].
    destruct (mergeEpisode_upserts (env := Sample.env) _ _ _ _ _ Hidem Hrun)
      as (existing & ep1 & Hread & Hlook & _ & _ & Htitle & _ & _ & _ & _ & _
          & Hstamp & Hcases).
    assert (existing = Sample.atlas) as ->.
    { vm_compute in Hread. by injection Hread as <-. }
    exists w1, s1, ep1. split; [reflexivity|]. split; [exact Hlook|].
    split; [exact Htitle|]. split; [|exact Hstamp].
    change (lookup_episode (py_season Sample.pilot_extended)
              (py_episode Sample.pilot_extended) (s_seasons Sample.atlas))
      with (Some (Sample.episode 1 1 "A" 10 false 0)) in Hcases.
    by destruct Hcases as (-> & _).
  - destruct (mergeEpisode "echoes-of-atlas" Sample.sequel Sample.world)
      as [w1 [e|s1]] eqn:Hrun; [vm_compute in Hrun; discriminate|].
    destruct (mergeEpisode_upserts (env := Sample.env) _ _ _ _ _ Hidem Hrun)
      as (existing & ep1 & Hread & Hlook & _ & _ & _ & _ & _ & _ & _ & _
          & _ & Hcases).
    assert (existing = Sample.atlas) as ->.
    { vm_compute in Hread. by injection Hread as <-. }
    exists w1, s1, ep1. split; [reflexivity|]. split; [exact Hlook|].
    change (lookup_episode (py_season Sample.sequel)
              (py_episode Sample.sequel) (s_seasons Sample.atlas))
      with (@None Episode) in Hcases.
    destruct Hcases as (Hid & Hviews & _). split; [exact Hid|exact Hviews].
Defined.

(** X10, witness: the series of the scenario, the movie "Alpha" and the
    account of alice, validated twice. *)
Lemma validation_stable_witness :
  (∀ s, sanitize (sanitize s) = sanitize s) ∧
  seriesSchema (series_object Sample.atlas) = Some Sample.atlas ∧
  movieSchema (movie_object (Sample.movie 61 "Alpha" "alpha" 3)) =
    Some (Sample.movie 61 "Alpha" "alpha" 3) ∧
  userSchema (Sample.account 2 "alice" RoleUser) =
    Some (Sample.account 2 "alice" RoleUser).
Proof.
  assert (∀ s, sanitize (sanitize s) = sanitize s) as Hidem by done.
  destruct (validation_stable (env := Sample.env) Hidem)
    as (Hseries & Hmovie & Huser).
  split; [exact Hidem|]. split; [|split].
  - destruct (Hseries (series_object Sample.atlas) Sample.atlas) as [Hsame|Hnone].
    + vm_compute. reflexivity.
    + exact Hsame.
    + vm_compute in Hnone. discriminate.
  - destruct (Hmovie (movie_object (Sample.movie 61 "Alpha" "alpha" 3))
                (Sample.movie 61 "Alpha" "alpha" 3)) as [Hsame|Hnone].
    + vm_compute. reflexivity.
    + exact Hsame.
    + vm_compute in Hnone. discriminate.
  - destruct (Huser (Sample.account 2 "alice" RoleUser)
                (Sample.account 2 "alice" RoleUser)) as [Hsame|Hnone].
    + vm_compute. reflexivity.
    + exact Hsame.
    + vm_compute in Hnone. discriminate.
Defined.

(** X11, witness: a movie "Gamma" is added to the two stored movies. *)
Lemma createMovie_adds_witness :
  ∃ w' movie saved,
    createMovie (movie_object (Sample.movie 0 "Gamma" "gamma" 5)) Sample.world =
      (w', inr movie) ∧
    movies_file w' = Some saved ∧
    saved ≡ₚ [Sample.movie 61 "Alpha" "alpha" 3; Sample.movie 62 "Beta" "beta" 0;
              movie] ∧
    m_id movie = Sample.ident 0 ∧
    m_views movie = 0 ∧
    m_createdAt movie = Sample.stamp 0.
Proof.
  destruct (createMovie (movie_object (Sample.movie 0 "Gamma" "gamma" 5))
              Sample.world) as [w' [e|movie]] eqn:Hrun;
    [vm_compute in Hrun; discriminate|].
  destruct (createMovie_adds (env := Sample.env) _ _ _ _ Hrun)
    as (movies & saved & Hmovies & Hfile & Hperm & _ & _ & Hid & Hviews & Hc & _).
  vm_compute in Hmovies. injection Hmovies as <-.
  exists w', movie, saved. split; [reflexivity|]. split; [exact Hfile|].
  split; [exact Hperm|]. split; [exact Hid|]. split; [exact Hviews|exact Hc].
Defined.

(** X12, witness: the movie "Beta" gets the slug beta-two. *)
Lemma updateMovie_changes_witness :
  ∃ w' updated,
    updateMovie (Sample.ident 62) (Sample.only_slug "beta-two") Sample.world =
      (w', inr updated) ∧
    movies_file w' = Some [Sample.movie 61 "Alpha" "alpha" 3; updated] ∧
    m_slug updated = "beta-two" ∧
    m_title updated = "Beta" ∧
    m_updatedAt updated = Sample.stamp 0.
Proof.
  destruct (updateMovie (Sample.ident 62) (Sample.only_slug "beta-two")
              Sample.world) as [w' [e|updated]] eqn:Hrun;
    [vm_compute in Hrun; discriminate|].
  destruct (updateMovie_changes (env := Sample.env) _ _ _ _ _ Hrun)
    as (movies & i & current & Hmovies & Hfind & Hfile & Hstamp & _ & Htitle
        & Hslug & _).
  vm_compute in Hmovies. injection Hmovies as <-.
  vm_compute in Hfind. injection Hfind as <- <-.
  exists w', updated. split; [reflexivity|]. split; [exact Hfile|].
  split; [exact Hslug|]. split; [exact Htitle|exact Hstamp].
Defined.

(** X13, witness: the movie "Alpha" is deleted; "Beta" stays. *)
Lemma deleteMovie_removes_witness :
  ∃ w',
    deleteMovie (Sample.ident 61) Sample.world = (w', inr ()) ∧
    movies_file w' = Some [Sample.movie 62 "Beta" "beta" 0].
Proof.
  destruct (deleteMovie_removes (env := Sample.env) Sample.world (Sample.ident 61)
              [Sample.movie 61 "Alpha" "alpha" 3; Sample.movie 62 "Beta" "beta" 0])
    as (w' & saved & Hrun & Hfile & -> & _).
  { vm_compute. reflexivity. }
  exists w'. split; [exact Hrun|]. exact Hfile.
Defined.

(** X14, witness: alice watches m1 again and reads her history. *)
Lemma appendHistory_read_back_witness :
  history_valid (default [] (history_files Sample.world !! "alice")) ∧
  is_Some (historyEntrySchema (Sample.watched "m1" 1)) ∧
  ∃ w',
    appendHistory "alice" (Sample.watched "m1" 1) Sample.world = (w', inr ()) ∧
    getHistory "alice" w' =
      (w', inr [Sample.watched "m1" 1; Sample.watched "m2" (1 # 2)]) ∧
    appendHistory "alice" (Sample.watched "m1" 1) w' = (w', inr ()).
Proof.
  assert (history_valid (default [] (history_files Sample.world !! "alice")))
    as Hvalid by (repeat constructor; eexists; vm_compute; reflexivity).
  assert (is_Some (historyEntrySchema (Sample.watched "m1" 1))) as Hentry
    by (eexists; vm_compute; reflexivity).
  split; [exact Hvalid|]. split; [exact Hentry|].
  destruct (appendHistory_read_back Sample.world "alice"
              (Sample.watched "m1" 1) Hvalid Hentry)
    as (w' & saved & Hrun & -> & _ & Hread & Hagain).
  exists w'. split; [exact Hrun|]. split; [exact Hread|exact Hagain].
Defined.

(** X15, witness: an entry of type podcast is appended to the history of
    alice. *)
Lemma appendHistory_unvalidated_witness :
  history_valid (default [] (history_files Sample.world !! "alice")) ∧
  historyEntrySchema Sample.podcast = None ∧
  ∃ w',
    appendHistory "alice" Sample.podcast Sample.world = (w', inr ()) ∧
    getHistory "alice" w' = (w', inl ValidationError) ∧
    appendHistory "alice" (Sample.watched "m1" 1) w' = (w', inl ValidationError).
Proof.
  assert (history_valid (default [] (history_files Sample.world !! "alice")))
    as Hvalid by (repeat constructor; eexists; vm_compute; reflexivity).
  assert (historyEntrySchema Sample.podcast = None) as Hentry
    by (vm_compute; reflexivity).
  split; [exact Hvalid|]. split; [exact Hentry|].
  destruct (appendHistory_unvalidated Sample.world "alice"
              Sample.podcast Hvalid Hentry)
    as (w' & rest & Hrun & _ & Hread & Hlater).
  exists w'. split; [exact Hrun|]. split; [exact Hread|apply Hlater].
Defined.

(** X16, witness: the user bob is created beside alice. *)
Lemma createUser_adds_witness :
  ∃ w' u,
    createUser {| cu_username := "bob"; cu_password := "password1";
                  cu_role := None |} Sample.world = (w', inr u) ∧
    u_id u = Sample.ident 0 ∧
    u_username u = "bob" ∧
    u_role u = RoleUser ∧
    u_active u = true ∧
    users_file w' = Some [Sample.account 2 "alice" RoleUser; u] ∧
    admin_file w' = admin_file Sample.world.
Proof.
  destruct (createUser {| cu_username := "bob"; cu_password := "password1";
                          cu_role := None |} Sample.world)
    as [w' [e|u]] eqn:Hrun; [vm_compute in Hrun; discriminate|].
  destruct (createUser_adds (env := Sample.env) _ _ _ _ Hrun)
    as (admin & users & _ & _ & _ & Husers & _ & _ & Hid & Hname & _ & Hrole
        & Hactive & _ & _ & Hfiles & _).
  vm_compute in Husers. injection Husers as <-.
  change (u_role u = RoleUser) in Hrole. rewrite Hrole in Hfiles.
  destruct Hfiles as [Hadmin Hfile].
  exists w', u. split; [reflexivity|]. split; [exact Hid|].
  split; [exact Hname|]. split; [exact Hrole|]. split; [exact Hactive|].
  split; [exact Hfile|exact Hadmin].
Defined.

(** X17, witness: alice is deactivated. *)
Lemma updateUser_changes_witness :
  ∃ w' updated,
    updateUser "alice" Sample.deactivate Sample.world = (w', inr updated) ∧
    u_active updated = false ∧
    u_updatedAt updated = Sample.stamp 0 ∧
    u_passwordHash updated = "$2a$12$hash" ∧
    users_file w' = Some [updated] ∧
    admin_file w' = admin_file Sample.world.
Proof.
  destruct (updateUser "alice" Sample.deactivate Sample.world)
    as [w' [e|updated]] eqn:Hrun; [vm_compute in Hrun; discriminate|].
  destruct (updateUser_changes (env := Sample.env) _ _ _ _ _ Hrun)
    as (admin & user & Hadmin & Hname & Hupdated & Hwhere & _).
  vm_compute in Hadmin. injection Hadmin as <-.
  destruct Hwhere as [(Hroot & _)|(_ & users & i & Husers & Hfind & Hfile & Hfile')].
  - injection Hroot as <-. discriminate Hname.
  - vm_compute in Husers. injection Husers as <-.
    vm_compute in Hfind. injection Hfind as <- <-.
    exists w', updated. split; [reflexivity|]. rewrite Hupdated at 1 2 3.
    split; [reflexivity|]. split; [reflexivity|]. split; [reflexivity|].
    split; [exact Hfile|exact Hfile'].
Defined.

(** X18, witness: carol logs in with her password. *)
Lemma verifyCredentials_sound_witness :
  ∃ w',
    verifyCredentials "carol" "password1" Sample.members =
      (w', inr (Some Sample.carol)) ∧
    u_active Sample.carol = true ∧
    bcrypt_compare "password1" (u_passwordHash Sample.carol) = true ∧
    users_file w' = users_file Sample.members ∧
    admin_file w' = admin_file Sample.members.
Proof.
  destruct (verifyCredentials "carol" "password1" Sample.members)
    as [w' result] eqn:Hrun.
  assert (result = inr (Some Sample.carol)) as ->.
  { vm_compute in Hrun. by injection Hrun as _ <-. }
  destruct (verifyCredentials_sound (env := Sample.env) _ _ _ _ _ Hrun)
    as (Huser & Hadmin & Husers & _).
  destruct (Huser _ eq_refl) as (Hactive & _ & Hhash & _).
  exists w'. split; [reflexivity|]. split; [exact Hactive|].
  split; [exact Hhash|]. split; [|exact Hadmin].
  vm_compute in Hrun. by injection Hrun as <-.
Defined.

(** X19, witness: carol is deactivated and tries her password. *)
Lemma deactivated_cannot_login_witness :
  (∀ s, matches_username s = true → sanitize s = s) ∧
  uu_active Sample.deactivate = Some false ∧
  ∃ w1 updated,
    updateUser "carol" Sample.deactivate Sample.members = (w1, inr updated) ∧
    verifyCredentials "carol" "password1" w1 = (w1, inr None).
Proof.
  assert (∀ s, matches_username s = true → sanitize s = s) as Hnames by done.
  split; [exact Hnames|]. split; [reflexivity|].
  destruct (updateUser "carol" Sample.deactivate Sample.members)
    as [w1 [e|updated]] eqn:Hrun; [vm_compute in Hrun; discriminate|].
  exists w1, updated. split; [reflexivity|].
  exact (deactivated_cannot_login (env := Sample.env) Hnames
           Sample.members w1 "carol" "password1" Sample.deactivate updated
           eq_refl Hrun).
Defined.

(** X20, witness: bob is created and logs in. *)
Lemma created_user_can_login_witness :
  (∀ s, matches_username s = true → sanitize s = s) ∧
  (∀ password, bcrypt_compare password (bcrypt_hash password) = true) ∧
  ∃ w' u,
    createUser {| cu_username := "bob"; cu_password := "password1";
                  cu_role := None |} Sample.world = (w', inr u) ∧
    verifyCredentials "bob" "password1" w' = (w', inr (Some u)).
Proof.
  assert (∀ s, matches_username s = true → sanitize s = s) as Hnames by done.
  assert (∀ password, bcrypt_compare password (bcrypt_hash password) = true)
    as Hcompare by (intros password; apply bool_decide_eq_true_2; reflexivity).
  split; [exact Hnames|]. split; [exact Hcompare|].
  destruct (createUser {| cu_username := "bob"; cu_password := "password1";
                          cu_role := None |} Sample.world)
    as [w' [e|u]] eqn:Hrun; [vm_compute in Hrun; discriminate|].
  exists w', u. split; [reflexivity|].
  exact (created_user_can_login (env := Sample.env) Hnames Sample.world w'
           {| cu_username := "bob"; cu_password := "password1";
              cu_role := None |} u Hcompare Hrun).
Defined.

(** X21, witness: the series of the scenario is withdrawn. *)
Lemma updateSeries_changes_witness :
  ∃ w' merged,
    updateSeries "echoes-of-atlas" (Sample.only_published false) Sample.world =
      (w', inr merged) ∧
    s_published merged = false ∧
    s_name merged = "Echoes of Atlas" ∧
    s_updatedAt merged = Sample.stamp 0 ∧
    s_seasons merged = s_seasons Sample.atlas ∧
    series_files w' !! "echoes-of-atlas" = Some merged.
Proof.
  destruct (updateSeries "echoes-of-atlas" (Sample.only_published false)
              Sample.world) as [w' [e|merged]] eqn:Hrun;
    [vm_compute in Hrun; discriminate|].
  destruct (updateSeries_changes (env := Sample.env) _ _ _ _ _ Hrun)
    as (existing & Hread & Hslug & Hstamp & _ & Hname & _ & _ & _ & _ & Hpub
        & _ & _ & Hseasons & Hfiles & _).
  assert (existing = Sample.atlas) as ->.
  { vm_compute in Hread. by injection Hread as <-. }
  exists w', merged. split; [reflexivity|]. split; [exact Hpub|].
  split; [exact Hname|]. split; [exact Hstamp|].
  split; [by apply Hseasons|].
  rewrite Hfiles, Hslug. apply lookup_insert_eq.
Defined.

(** X22, witness: the one file of the sample world is listed; with a
    second file that does not validate, nothing is. *)
Lemma listSeries_all_or_nothing_witness :
  (∃ result, listSeries Sample.world = (Sample.world, inr result) ∧
             length result = 1%nat ∧ Sample.atlas ∈ result) ∧
  listSeries Sample.with_broken = (Sample.with_broken, inl ValidationError).
Proof.
  split.
  - destruct (proj1 (listSeries_all_or_nothing (env := Sample.env) Sample.world))
      as (result & Hrun & Hlength & Hin).
    + intros slug data Hlook.
      change (series_files Sample.world)
        with ({[ "echoes-of-atlas" := Sample.atlas ]} : gmap string Series)
        in Hlook.
      apply lookup_singleton_Some in Hlook as [<- <-].
      eexists. vm_compute. reflexivity.
    + exists result. split; [exact Hrun|]. split.
      * rewrite Hlength. apply (map_size_singleton (M := gmap string)).
      * apply Hin. exists "echoes-of-atlas", Sample.atlas.
        split; [apply (lookup_singleton_eq (M := gmap string))|].
        vm_compute. reflexivity.
  - apply (proj2 (listSeries_all_or_nothing (env := Sample.env)
                    Sample.with_broken) "broken" Sample.broken).
    + apply lookup_insert_eq.
    + vm_compute. reflexivity.
Defined.


(** X24, witness: a category "Action" with the slug of the stored
    category "Drama" is added all the same. *)
Lemma createCategory_adds_witness :
  ∃ s' category saved,
    Categories.createCategory Sample.action Sample.store = (s', inr category) ∧
    Categories.categories_file s' = Some saved ∧
    saved ≡ₚ [Sample.category 71 "Drama" "drama" 0;
              Sample.category 72 "Comedy" "comedy" 1; category] ∧
    c_slug category = "drama" ∧
    c_id category = Sample.ident 0.
Proof.
  destruct (createCategory_adds (env := Sample.env) Sample.store Sample.action
              {| c_id := Sample.ident 0; c_name := "Action"; c_slug := "drama";
                 c_order := 0 |}
              [Sample.category 71 "Drama" "drama" 0;
               Sample.category 72 "Comedy" "comedy" 1])
    as (s' & saved & Hrun & Hfile & Hperm & _ & Hid & _).
  - vm_compute. reflexivity.
  - vm_compute. reflexivity.
  - eexists s', _, saved. split; [exact Hrun|]. split; [exact Hfile|].
    split; [exact Hperm|]. split; [reflexivity|exact Hid].
Defined.

(** X25, witness: the two stored categories are put in the other
    order. *)
Lemma reorderCategories_orders_witness :
  ∃ s' result,
    Categories.reorderCategories [Sample.ident 72; Sample.ident 71] Sample.store =
      (s', inr result) ∧
    Categories.categories_file s' = Some result ∧
    c_id <$> result = [Sample.ident 72; Sample.ident 71] ∧
    (∀ cat, result !! 0%nat = Some cat → c_order cat = 0).
Proof.
  destruct (reorderCategories_orders (env := Sample.env) Sample.store
              [Sample.ident 72; Sample.ident 71]
              [Sample.category 71 "Drama" "drama" 0;
               Sample.category 72 "Comedy" "comedy" 1])
    as (s' & result & Hrun & Hfile & _ & _ & _ & _ & Hall).
  { vm_compute. reflexivity. }
  destruct Hall as [Hids Horders].
  { apply NoDup_cons. split; [|apply NoDup_singleton].
    intros Hin%list_elem_of_singleton. vm_compute in Hin. discriminate. }
  { apply Permutation_swap. }
  exists s', result. split; [exact Hrun|]. split; [exact Hfile|].
  split; [exact Hids|]. intros cat. apply (Horders 0%nat).
Defined.

(** X26, witness: the category "Comedy" is renamed; an id of no category
    is refused. *)
Lemma updateCategory_changes_witness :
  (∃ s' updated saved,
     Categories.updateCategory (Sample.ident 72) (Sample.only_name "Comedies")
       Sample.store = (s', inr updated) ∧
     Categories.categories_file s' = Some saved ∧
     saved ≡ₚ [Sample.category 71 "Drama" "drama" 0; updated] ∧
     c_name updated = "Comedies" ∧ c_slug updated = "comedy") ∧
  Categories.updateCategory (Sample.ident 99) (Sample.only_name "Comedies")
    Sample.store = (Sample.store, inl NotFound).
Proof.
  split.
  - destruct (Categories.updateCategory (Sample.ident 72)
                (Sample.only_name "Comedies") Sample.store)
      as [s' [e|updated]] eqn:Hrun; [vm_compute in Hrun; discriminate|].
    destruct (proj1 (updateCategory_changes (env := Sample.env) Sample.store
                       (Sample.ident 72) (Sample.only_name "Comedies")
                       [Sample.category 71 "Drama" "drama" 0;
                        Sample.category 72 "Comedy" "comedy" 1] eq_refl)
                _ _ Hrun)
      as (i & current & saved & Hfind & Hfile & Hperm & _ & _ & Hname & Hslug & _).
    vm_compute in Hfind. injection Hfind as <- <-.
    exists s', updated, saved. split; [reflexivity|]. split; [exact Hfile|].
    split; [exact Hperm|]. split; [exact Hname|exact Hslug].
  - apply (proj2 (updateCategory_changes (env := Sample.env) Sample.store
                    (Sample.ident 99) (Sample.only_name "Comedies")
                    [Sample.category 71 "Drama" "drama" 0;
                     Sample.category 72 "Comedy" "comedy" 1] eq_refl)).
    intros cat Hin.
    apply elem_of_cons in Hin as [->|Hin]; [discriminate|].
    apply list_elem_of_singleton in Hin as ->. discriminate.
Defined.

(** X27, witness: the category "Drama" is deleted; "Comedy" stays. *)
Lemma deleteCategory_removes_witness :
  ∃ s',
    Categories.deleteCategory (Sample.ident 71) Sample.store = (s', inr ()) ∧
    Categories.categories_file s' = Some [Sample.category 72 "Comedy" "comedy" 1].
Proof.
  destruct (deleteCategory_removes (env := Sample.env) Sample.store
              (Sample.ident 71)
              [Sample.category 71 "Drama" "drama" 0;
               Sample.category 72 "Comedy" "comedy" 1])
    as (s' & saved & Hrun & Hfile & -> & _).
  { vm_compute. reflexivity. }
  exists s'. split; [exact Hrun|]. exact Hfile.
Defined.

(** X28, witness: twelve requests of a guest within one minute. *)
Lemma rate_limit_burst_witness :
  (serve "10.0.0.1" None
     [0; 100; 200; 300; 400; 500; 600; 700; 800; 900; 1000; 60000] ∅).2 =
  replicate 10 Next ++ replicate 2 (Status 429).
Proof.
  apply (rate_limit_burst "10.0.0.1" None 0
           [100; 200; 300; 400; 500; 600; 700; 800; 900; 1000; 60000] ∅).
  - intros state Hstate. rewrite lookup_empty in Hstate. discriminate.
  - repeat (constructor; [unfold WINDOW_MS; lia|]). constructor.
Defined.

(** X30, witness: a session of alice that says administrator, an hour
    old. The stored record of alice is attached, the session is
    rewritten with the stored role, and the administrator routes answer
    403. *)
Lemma attachUser_current_witness :
  ∃ w' req',
    attachUser (1717236000000 + 3600000) Sample.stale_session Sample.world =
      (w', inr req') ∧
    currentUser req' = Some (Sample.account 2 "alice" RoleUser) ∧
    session_user req' =
      Some {| su_username := "alice"; su_role := RoleUser;
              su_lastActive := Sample.stamp 0 |} ∧
    requireAuth req' = Next ∧
    requireRole RoleAdmin req' = Status 403.
Proof.
  destruct (attachUser (1717236000000 + 3600000) Sample.stale_session
              Sample.world) as [w' [e|req']] eqn:Hrun;
    [vm_compute in Hrun; discriminate|].
  destruct (attachUser_current (env := Sample.env) Sample.world w'
              (1717236000000 + 3600000) Sample.stale_session req' eq_refl Hrun)
    as (Huser & _ & Hadmin & _).
  assert (currentUser req' = Some (Sample.account 2 "alice" RoleUser)) as Hcurrent.
  { vm_compute in Hrun. by injection Hrun as _ <-. }
  destruct (Huser _ Hcurrent) as (_ & sessionUser & w0 & _ & _ & _ & Hsession).
  exists w', req'. split; [reflexivity|]. split; [exact Hcurrent|].
  split; [exact Hsession|]. unfold requireAuth, requireRole. rewrite Hcurrent.
  split; reflexivity.
Defined.
